(** * dbt semantic layer to Sigma data model converter: verification of the
      dependency layering, the expression translator and the metric resolver.

    The development follows the JavaScript sources:
    - [Dag]      utils/dag_analyzer.js (SemanticModelAnalyzer) and
                 utils/topological_sorter.js (TopologicalSorter);
    - [Expr]     routes/dimensions/utils/*.js and
                 routes/dimensions/formula/build_sigma_formula.js;
    - [Metrics]  routes/metrics/*.js, routes/metrics/formula/*.js,
                 routes/filter/*.js and the metric passes of
                 routes/converter/convert_semantics.js. *)

From Stdlib Require Import Ascii String DecimalString ZArith Lia ListDec Sorted.
From stdpp Require Import base option list strings gmap sets relations.

Open Scope string_scope.
Open Scope nat_scope.
Open Scope list_scope.
Open Scope stdpp_scope.

(** ** Insertion-ordered maps

    A JavaScript [Map] iterates in insertion order; [m.set k v] keeps the
    position of an existing key and appends a new one. *)

Module JsMap.

Definition t (V : Type) : Type := list (string * V).

Definition keys {V} (m : t V) : list string := m.*1.

Fixpoint get {V} (k : string) (m : t V) : option V :=
  match m with
  | [] => None
  | (k', v) :: m' => if decide (k' = k) then Some v else get k m'
  end.

Definition has {V} (k : string) (m : t V) : bool :=
  match get k m with Some _ => true | None => false end.

Fixpoint set {V} (k : string) (v : V) (m : t V) : t V :=
  match m with
  | [] => [(k, v)]
  | (k', v') :: m' =>
      if decide (k' = k) then (k, v) :: m' else (k', v') :: set k v m'
  end.

Definition size {V} (m : t V) : nat := length m.

(** The well-formedness of a [Map]: every key occurs once. *)
Definition wf {V} (m : t V) : Prop := NoDup (keys m).

End JsMap.

(** ** The dependency graph builder and the topological layerer *)

Module Dag.

(** *** Data model (dag_analyzer.js) *)

Record Entity := {
  e_name : string;
  e_type : string;
  e_expr : option string
}.

Record SemanticModel := {
  sm_name : string;
  sm_description : option string;
  sm_entities : option (list Entity)
}.

(** A parsed YAML file: its base name and its [semantic_models] key. *)
Record ModelFile := {
  mf_fileName : string;
  mf_semantic_models : option (list SemanticModel)
}.

Record DefinitionInfo := {
  di_fileName : string;
  di_semanticModelName : string
}.

Record ForeignEntityDef := {
  fe_name : string;
  fe_expr : option string;
  fe_file : option string;
  fe_semanticModelName : option string
}.

Record ModelInfo := {
  mi_fileName : string;
  mi_name : string;
  mi_description : option string;
  mi_primaryEntity : option string;
  mi_foreignEntities : list ForeignEntityDef;
  mi_allEntities : list string
}.

Record DepInfo := {
  modelInfo : ModelInfo;
  dependsOn : list string;
  dependents : list string
}.

(** *** buildEntityToFileMap

    Every entity of type primary or unique is recorded under its name; a
    later definition overwrites an earlier one. *)

Definition index_entity (fileName smName : string)
    (idx : gmap string DefinitionInfo) (e : Entity) : gmap string DefinitionInfo :=
  if bool_decide (e_type e = "primary") || bool_decide (e_type e = "unique")
  then <[ e_name e := {| di_fileName := fileName; di_semanticModelName := smName |} ]> idx
  else idx.

Definition index_model (fileName : string)
    (idx : gmap string DefinitionInfo) (sm : SemanticModel) : gmap string DefinitionInfo :=
  match sm_entities sm with
  | Some es => fold_left (index_entity fileName (sm_name sm)) es idx
  | None => idx
  end.

Definition index_file (idx : gmap string DefinitionInfo) (f : ModelFile)
    : gmap string DefinitionInfo :=
  match mf_semantic_models f with
  | Some sms => fold_left (index_model (mf_fileName f)) sms idx
  | None => idx
  end.

Definition buildEntityToFileMap (files : list ModelFile) : gmap string DefinitionInfo :=
  fold_left index_file files ∅.

(** *** parseSemanticModel *)

(** [entity.expr || null]: an empty expression counts as absent. *)
Definition expr_or_null (o : option string) : option string :=
  match o with
  | Some s => if decide (s = "") then None else Some s
  | None => None
  end.

Definition parse_entity (entityToFileMap : gmap string DefinitionInfo)
    (mi : ModelInfo) (e : Entity) : ModelInfo :=
  let mi1 := {| mi_fileName := mi_fileName mi; mi_name := mi_name mi;
                mi_description := mi_description mi;
                mi_primaryEntity := mi_primaryEntity mi;
                mi_foreignEntities := mi_foreignEntities mi;
                mi_allEntities := mi_allEntities mi ++ [e_name e] |} in
  if bool_decide (e_type e = "primary") then
    {| mi_fileName := mi_fileName mi1; mi_name := mi_name mi1;
       mi_description := mi_description mi1;
       mi_primaryEntity := Some (e_name e);
       mi_foreignEntities := mi_foreignEntities mi1;
       mi_allEntities := mi_allEntities mi1 |}
  else if bool_decide (e_type e = "foreign") then
    let def :=
      match entityToFileMap !! e_name e with
      | Some d => {| fe_name := e_name e; fe_expr := expr_or_null (e_expr e);
                     fe_file := Some (di_fileName d);
                     fe_semanticModelName := Some (di_semanticModelName d) |}
      | None => {| fe_name := e_name e; fe_expr := expr_or_null (e_expr e);
                   fe_file := None; fe_semanticModelName := None |}
      end in
    {| mi_fileName := mi_fileName mi1; mi_name := mi_name mi1;
       mi_description := mi_description mi1;
       mi_primaryEntity := mi_primaryEntity mi1;
       mi_foreignEntities := mi_foreignEntities mi1 ++ [def];
       mi_allEntities := mi_allEntities mi1 |}
  else mi1.

Definition parse_model (entityToFileMap : gmap string DefinitionInfo)
    (fileName : string) (sm : SemanticModel) : ModelInfo :=
  let mi0 := {| mi_fileName := fileName; mi_name := sm_name sm;
                mi_description := sm_description sm;
                mi_primaryEntity := None; mi_foreignEntities := [];
                mi_allEntities := [] |} in
  match sm_entities sm with
  | Some es => fold_left (parse_entity entityToFileMap) es mi0
  | None => mi0
  end.

(** [None] stands for the thrown error "No semantic models found". *)
Definition parseSemanticModel (entityToFileMap : gmap string DefinitionInfo)
    (f : ModelFile) : option (list ModelInfo) :=
  match mf_semantic_models f with
  | None | Some [] => None
  | Some sms => Some (map (parse_model entityToFileMap (mf_fileName f)) sms)
  end.

(** *** analyzeDirectory: files that fail to parse are skipped. *)

Definition analyze_file (entityToFileMap : gmap string DefinitionInfo)
    (models : JsMap.t ModelInfo) (f : ModelFile) : JsMap.t ModelInfo :=
  match parseSemanticModel entityToFileMap f with
  | Some infos => fold_left (fun m mi => JsMap.set (mi_name mi) mi m) infos models
  | None => models
  end.

Definition analyzeDirectory (files : list ModelFile) : JsMap.t ModelInfo :=
  fold_left (analyze_file (buildEntityToFileMap files)) files [].

(** *** buildDependencyGraph *)

Definition add_dependency_record (deps : JsMap.t DepInfo) (e : string * ModelInfo)
    : JsMap.t DepInfo :=
  let foreignEntityNames := map fe_name (mi_foreignEntities e.2) in
  JsMap.set e.1 {| modelInfo := e.2; dependsOn := foreignEntityNames;
                   dependents := [] |} deps.

Definition push_dependent (modelName : string) (deps : JsMap.t DepInfo)
    (dependency : string) : JsMap.t DepInfo :=
  match JsMap.get dependency deps with
  | Some d => JsMap.set dependency
                {| modelInfo := modelInfo d; dependsOn := dependsOn d;
                   dependents := dependents d ++ [modelName] |} deps
  | None => deps
  end.

(** The second loop visits the keys in order; [dependsOn] of an entry is
    never changed by [push_dependent], so it is read from the first pass. *)
Definition buildDependencyGraph (models : JsMap.t ModelInfo) : JsMap.t DepInfo :=
  let deps0 := fold_left add_dependency_record models [] in
  fold_left (fun deps e => fold_left (push_dependent e.1) (dependsOn e.2) deps)
            deps0 deps0.

(** *** Layers (topological_sorter.js) *)

Record LayerModel := {
  lm_name : string;
  lm_fileName : string;
  lm_primaryEntity : option string;
  lm_foreignEntities : list ForeignEntityDef
}.

Record Layer := {
  layer : nat;
  models : list LayerModel;
  description : string
}.

Definition mkLayerModel (modelName : string) (depInfo : DepInfo) : LayerModel :=
  {| lm_name := modelName;
     lm_fileName := mi_fileName (modelInfo depInfo);
     lm_primaryEntity := mi_primaryEntity (modelInfo depInfo);
     lm_foreignEntities := mi_foreignEntities (modelInfo depInfo) |}.

Definition nat_to_string (n : nat) : string :=
  NilEmpty.string_of_uint (Nat.to_uint n).

Record SortState := {
  layers : list Layer;
  processed : gset string;
  previousLayerModels : gset string;
  currentLayer : nat;
  warnings : list string
}.

(** First loop: the models without dependencies. *)
Definition layer1_step (acc : list LayerModel * gset string) (e : string * DepInfo)
    : list LayerModel * gset string :=
  if decide (length (dependsOn e.2) = 0)
  then (acc.1 ++ [mkLayerModel e.1 e.2], acc.2 ∪ {[ e.1 ]})
  else acc.

Definition allDependenciesResolved (previous : gset string) (depInfo : DepInfo) : bool :=
  forallb (fun dep => bool_decide (dep ∈ previous)) (dependsOn depInfo).

(** Body of the [for] loop of one round of the [while] loop. *)
Definition round_step (previous : gset string)
    (acc : list LayerModel * gset string) (e : string * DepInfo)
    : list LayerModel * gset string :=
  if decide (e.1 ∈ acc.2) then acc
  else if allDependenciesResolved previous e.2
       then (acc.1 ++ [mkLayerModel e.1 e.2], acc.2 ∪ {[ e.1 ]})
       else acc.

(** The cycle-breaking loop over [remainingModels]; [get] on a name taken
    from [keys] is always defined (see [get_of_key]). *)
Definition fallback_step (deps : JsMap.t DepInfo)
    (acc : list LayerModel * gset string) (modelName : string)
    : list LayerModel * gset string :=
  match JsMap.get modelName deps with
  | Some depInfo => (acc.1 ++ [mkLayerModel modelName depInfo], acc.2 ∪ {[ modelName ]})
  | None => acc
  end.

Definition circular_warning (remainingModels : list string) : string :=
  "Warning: Circular dependencies detected for models: "
    +:+ String.concat ", " remainingModels +:+ ".".

Definition push_layer (st : SortState) (current : list LayerModel)
    (processed' : gset string) (ws : list string) : SortState :=
  {| layers := layers st ++
       [ {| layer := currentLayer st; models := current;
            description := "Models that depend only on entities from layers 1-"
                             +:+ nat_to_string (currentLayer st - 1) |} ];
     processed := processed';
     previousLayerModels :=
       previousLayerModels st ∪ list_to_set (map lm_name current);
     currentLayer := S (currentLayer st);
     warnings := warnings st ++ ws |}.

(** One pass through the body of the [while] loop: either the loop is
    left by [break] or it goes on with a new state. *)
Inductive outcome := Break (st : SortState) | Continue (st : SortState).

Definition round_body (deps : JsMap.t DepInfo) (st : SortState) : outcome :=
  let r := fold_left (round_step (previousLayerModels st)) deps ([], processed st) in
  match r.1 with
  | [] =>
      let remainingModels := filter (fun name => name ∉ r.2) (JsMap.keys deps) in
      match remainingModels with
      | [] =>
          Break {| layers := layers st; processed := r.2;
                   previousLayerModels := previousLayerModels st;
                   currentLayer := currentLayer st;
                   warnings := warnings st |}
      | _ :: _ =>
          let r' := fold_left (fallback_step deps) remainingModels r in
          match r'.1 with
          | [] =>
              Continue {| layers := layers st; processed := r'.2;
                          previousLayerModels := previousLayerModels st;
                          currentLayer := S (currentLayer st);
                          warnings := warnings st ++ [circular_warning remainingModels] |}
          | _ :: _ =>
              Continue (push_layer st r'.1 r'.2 [circular_warning remainingModels])
          end
      end
  | _ :: _ => Continue (push_layer st r.1 r.2 [])
  end.

(** The [while] loop; [fuel] bounds the number of rounds and [None] means
    that the bound was reached before the loop condition became false. *)
Fixpoint sort_loop (fuel : nat) (deps : JsMap.t DepInfo) (st : SortState)
    : option SortState :=
  if decide (size (processed st) < JsMap.size deps) then
    match fuel with
    | 0 => None
    | S fuel' =>
        match round_body deps st with
        | Break st' => Some st'
        | Continue st' => sort_loop fuel' deps st'
        end
    end
  else Some st.

Definition sort_init (deps : JsMap.t DepInfo) : SortState :=
  let r := fold_left layer1_step deps ([], ∅) in
  {| layers :=
       match r.1 with
       | [] => []
       | _ :: _ =>
           [ {| layer := 1; models := r.1;
                description :=
                  "Models with only primary entities (no foreign dependencies)." |} ]
       end;
     processed := r.2;
     previousLayerModels := list_to_set (map lm_name r.1);
     currentLayer := 2;
     warnings := [] |}.

Definition sort_fuel (fuel : nat) (deps : JsMap.t DepInfo)
    : option (list Layer * list string) :=
  st ← sort_loop fuel deps (sort_init deps);
  Some (layers st, warnings st).

(** One round places at least one model, so as many rounds as there are
    models always suffice ([sort_fuel_enough]). *)
Definition sort (deps : JsMap.t DepInfo) : option (list Layer * list string) :=
  sort_fuel (JsMap.size deps) deps.

Definition layer_names (l : Layer) : list string := map lm_name (models l).

Definition placed (ls : list Layer) : list string := concat (map layer_names ls).

(** The [layer] number of the first layer that holds model [m]. *)
Fixpoint layer_of (ls : list Layer) (m : string) : option nat :=
  match ls with
  | [] => None
  | l :: ls' => if decide (m ∈ layer_names l) then Some (layer l) else layer_of ls' m
  end.

(** How many layers hold model [m]. *)
Definition layer_count (ls : list Layer) (m : string) : nat :=
  length (filter (fun l => m ∈ layer_names l) ls).

(** *** Edges, closed walks and cycles of a dependency map *)

Definition edge (deps : JsMap.t DepInfo) (m d : string) : Prop :=
  ∃ info, JsMap.get m deps = Some info ∧ d ∈ dependsOn info.

(** [walk deps x l y]: there are edges x -> l1 -> ... -> ln -> y. *)
Fixpoint walk (deps : JsMap.t DepInfo) (x : string) (l : list string) (y : string) : Prop :=
  match l with
  | [] => edge deps x y
  | z :: l' => edge deps x z ∧ walk deps z l' y
  end.

(** A cycle among the models of [c]: a closed walk through them. *)
Definition is_cycle (deps : JsMap.t DepInfo) (c : list string) : Prop :=
  match c with
  | [] => False
  | s :: rest => walk deps s rest s
  end.

Definition acyclic (deps : JsMap.t DepInfo) : Prop := ∀ c, ¬ is_cycle deps c.

(** Every name in a [dependsOn] list is a model of the map. *)
Definition closed (deps : JsMap.t DepInfo) : Prop :=
  ∀ m d, edge deps m d → d ∈ JsMap.keys deps.

(** *** The properties of the specification *)

(** The layering property: the layerer returns, every model is in exactly
    one layer, and the layer of a model is strictly later than the layer of
    each model it depends on. *)
Definition layering_claim (deps : JsMap.t DepInfo) : Prop :=
  ∃ ls ws, sort deps = Some (ls, ws) ∧
    (∀ m, m ∈ JsMap.keys deps → layer_count ls m = 1) ∧
    (∀ m d, edge deps m d → d ∈ JsMap.keys deps →
       ∃ i j, layer_of ls m = Some i ∧ layer_of ls d = Some j ∧ (j < i)%nat).

(** The cycle property, for the models [c]: the layerer returns, the models
    of [c] are all in the last layer and in no other, and the one warning
    names the models of that layer. *)
Definition cycle_claim (deps : JsMap.t DepInfo) (c : list string) : Prop :=
  ∃ ls ws, sort deps = Some (ls, ws) ∧
    ∃ init last, ls = init ++ [last] ∧
      (∀ s, s ∈ c → s ∈ layer_names last ∧ layer_count ls s = 1) ∧
      ws = [circular_warning (layer_names last)].

(** *** Notions used in the proofs about the layerer *)

Definition entry_model (e : string * DepInfo) : LayerModel := mkLayerModel e.1 e.2.

(** A model that one round places: not placed yet, dependencies placed. *)
Definition is_ready (previous done : gset string) (e : string * DepInfo) : Prop :=
  e.1 ∉ done ∧ allDependenciesResolved previous e.2.

#[global] Instance is_ready_dec previous done e : Decision (is_ready previous done e).
Proof. unfold is_ready. apply _. Defined.

Definition no_deps (e : string * DepInfo) : Prop := dependsOn e.2 = [].

#[global] Instance no_deps_dec e : Decision (no_deps e).
Proof. unfold no_deps. apply _. Defined.

Definition root_list (l : list (string * DepInfo)) : list (string * DepInfo) :=
  filter no_deps l.

Definition ready_list (previous done : gset string) (l : list (string * DepInfo))
    : list (string * DepInfo) :=
  filter (is_ready previous done) l.

Definition ready_of (deps : JsMap.t DepInfo) (st : SortState) : list (string * DepInfo) :=
  ready_list (previousLayerModels st) (processed st) deps.

Definition remaining_of (deps : JsMap.t DepInfo) (st : SortState) : list string :=
  filter (fun name => name ∉ processed st) (JsMap.keys deps).

(** Layer numbers increase strictly and lie in [lo, hi). *)
Fixpoint numbered (lo : nat) (ls : list Layer) (hi : nat) : Prop :=
  match ls with
  | [] => (lo ≤ hi)%nat
  | l :: ls' => (lo ≤ layer l)%nat ∧ numbered (S (layer l)) ls' hi
  end.

(** [layered deps before ls]: the dependencies of the models of a layer
    lie in [before] or in a strictly earlier layer of [ls]. *)
Fixpoint layered (deps : JsMap.t DepInfo) (before : list string) (ls : list Layer)
    : Prop :=
  match ls with
  | [] => True
  | l :: ls' =>
      (∀ m d, m ∈ layer_names l → edge deps m d → d ∈ before) ∧
      layered deps (before ++ layer_names l) ls'
  end.

(** [chain deps w]: consecutive members of [w] are joined by edges. *)
Fixpoint chain (deps : JsMap.t DepInfo) (w : list string) : Prop :=
  match w with
  | x :: ((y :: _) as t) => edge deps x y ∧ chain deps t
  | _ => True
  end.

(** The invariant of the [while] loop. *)
Record Inv (deps : JsMap.t DepInfo) (st : SortState) : Prop := {
  inv_processed : processed st = list_to_set (placed (layers st));
  inv_previous : previousLayerModels st = list_to_set (placed (layers st));
  inv_nodup : NoDup (placed (layers st));
  inv_keys : ∀ m, m ∈ placed (layers st) → m ∈ JsMap.keys deps;
  inv_numbered : numbered 1 (layers st) (currentLayer st)
}.

Definition well_layered (deps : JsMap.t DepInfo) (st : SortState) : Prop :=
  layered deps [] (layers st) ∧ warnings st = [].

(** The models [S] are either all waiting, or all in the last layer. *)
Definition cycle_pending (deps : JsMap.t DepInfo) (S : list string) (st : SortState)
    : Prop :=
  (warnings st = [] ∧ ∀ s, s ∈ S → s ∉ processed st)
  ∨ (∃ init last, layers st = init ++ [last] ∧
       (∀ s, s ∈ S → s ∈ layer_names last) ∧
       warnings st = [circular_warning (layer_names last)] ∧
       processed st = list_to_set (JsMap.keys deps)).

(** *** The dependency property of the specification *)

(** [dependsOn] as the specification words it: the distinct owning-model
    names of the foreign entities that the index resolves. *)
Definition dependsOn_claim (files : list ModelFile) : Prop :=
  ∀ m info,
    JsMap.get m (buildDependencyGraph (analyzeDirectory files)) = Some info →
    NoDup (dependsOn info) ∧
    ∀ d, d ∈ dependsOn info ↔
      ∃ mi fe di, JsMap.get m (analyzeDirectory files) = Some mi ∧
        fe ∈ mi_foreignEntities mi ∧
        buildEntityToFileMap files !! fe_name fe = Some di ∧
        d = di_semanticModelName di.

(** The names of the entities of type foreign, in declaration order. *)
Definition foreign_entity_names (sm : SemanticModel) : list string :=
  match sm_entities sm with
  | Some es => map e_name (filter (fun e => e_type e = "foreign") es)
  | None => []
  end.

(** The part of a dependency record that the second loop of
    [buildDependencyGraph] leaves alone. *)
Definition dep_core (e : string * DepInfo) : string * (ModelInfo * list string) :=
  (e.1, (modelInfo e.2, dependsOn e.2)).

Definition initial_record (e : string * ModelInfo) : string * DepInfo :=
  (e.1, {| modelInfo := e.2;
           dependsOn := map fe_name (mi_foreignEntities e.2);
           dependents := [] |}).

(** A model of the map [models] comes from a semantic model of [files]. *)
Definition parsed_from (files : list ModelFile) (e : string * ModelInfo) : Prop :=
  ∃ f sms sm, f ∈ files ∧ mf_semantic_models f = Some sms ∧ sm ∈ sms ∧
    e.1 = sm_name sm ∧
    e.2 = parse_model (buildEntityToFileMap files) (mf_fileName f) sm.

(** *** Example corpora *)

Definition entity (n t : string) : Entity :=
  {| e_name := n; e_type := t; e_expr := None |}.

Definition model_file (n : string) (es : list Entity) : ModelFile :=
  {| mf_fileName := n;
     mf_semantic_models :=
       Some [ {| sm_name := n; sm_description := None; sm_entities := Some es |} ] |}.

(** Three models; [B] names a foreign entity [x] that no model defines. *)
Definition corpus_dangling : list ModelFile :=
  [ model_file "A" [entity "A" "primary"];
    model_file "B" [entity "B" "primary"; entity "x" "foreign"];
    model_file "C" [entity "C" "primary"; entity "B" "foreign"] ].

Definition deps_dangling : JsMap.t DepInfo :=
  buildDependencyGraph (analyzeDirectory corpus_dangling).

(** A diamond: [B] and [C] depend on [A], [D] on both. *)
Definition corpus_diamond : list ModelFile :=
  [ model_file "D" [entity "D" "primary"; entity "B" "foreign"; entity "C" "foreign"];
    model_file "A" [entity "A" "primary"];
    model_file "B" [entity "B" "primary"; entity "A" "foreign"];
    model_file "C" [entity "C" "primary"; entity "A" "foreign"] ].

Definition deps_diamond : JsMap.t DepInfo :=
  buildDependencyGraph (analyzeDirectory corpus_diamond).

(** [P] and [Q] depend on each other; [R] is free and [T] depends on [R]. *)
Definition corpus_cyclic : list ModelFile :=
  [ model_file "P" [entity "P" "primary"; entity "Q" "foreign"];
    model_file "Q" [entity "Q" "primary"; entity "P" "foreign"];
    model_file "R" [entity "R" "primary"];
    model_file "T" [entity "T" "primary"; entity "R" "foreign"] ].

Definition deps_cyclic : JsMap.t DepInfo :=
  buildDependencyGraph (analyzeDirectory corpus_cyclic).

(** The entity is called [customer_id], its owning model [customers]. *)
Definition corpus_orders : list ModelFile :=
  [ model_file "customers" [entity "customer_id" "primary"];
    model_file "orders" [entity "order_id" "primary"; entity "customer_id" "foreign";
                         entity "ghost" "foreign"; entity "customer_id" "foreign"] ].

End Dag.

(** ** The summary of a run and the analysis of a directory *)

Module DagSummary.
Import Dag.

(** *** TopologicalSorter.getSummary *)

Record LayerSummary := {
  ls_layer : nat;
  ls_modelCount : nat;
  ls_models : list LayerModel
}.

Record Summary := {
  totalModels : nat;
  processedModels : nat;
  totalLayers : nat;
  summaryLayers : list LayerSummary
}.

(** The sorter after [sort]: its fields [layers] and [processed]. *)
Definition getSummary (deps : JsMap.t DepInfo) (st : SortState) : Summary :=
  {| totalModels := JsMap.size deps;
     processedModels := size (processed st);
     totalLayers := length (layers st);
     summaryLayers :=
       map (fun l => {| ls_layer := layer l; ls_modelCount := length (models l);
                        ls_models := models l |}) (layers st) |}.

(** *** buildDAG, in the mode that analyzes a whole directory: analysis,
    dependency graph, layers and summary. *)
Definition buildDAG (files : list ModelFile) : option Summary :=
  let deps := buildDependencyGraph (analyzeDirectory files) in
  st ← sort_loop (JsMap.size deps) deps (sort_init deps);
  Some (getSummary deps st).

(** *** Notions used in the statements *)

(** The semantic models of the files that parse, each with the name of
    its file, in the order in which [analyzeDirectory] meets them. *)
Definition all_models (files : list ModelFile) : list (string * SemanticModel) :=
  flat_map (fun f => map (pair (mf_fileName f)) (default [] (mf_semantic_models f)))
           files.

(** The semantic model that the analysis keeps under the name [m], with
    the name of its file: the last one read with that name. *)
Definition model_of (files : list ModelFile) (m : string)
    : option (string * SemanticModel) :=
  List.find (fun q => bool_decide (sm_name q.2 = m)) (rev (all_models files)).

(** The entities of type primary or unique, each with its file and
    semantic model, in the order in which [buildEntityToFileMap] meets
    them. *)
Definition is_definition (e : Entity) : bool :=
  bool_decide (e_type e = "primary") || bool_decide (e_type e = "unique").

Definition model_definitions (fileName : string) (sm : SemanticModel)
    : list (string * DefinitionInfo) :=
  map (fun e => (e_name e,
                 {| di_fileName := fileName; di_semanticModelName := sm_name sm |}))
      (List.filter is_definition (default [] (sm_entities sm))).

Definition all_definitions (files : list ModelFile) : list (string * DefinitionInfo) :=
  flat_map (fun f => flat_map (model_definitions (mf_fileName f))
                       (default [] (mf_semantic_models f)))
           files.

(** The last entry of an association list under a key. *)
Definition last_of {V} (k : string) (l : list (string * V)) : option V :=
  snd <$> List.find (fun p => bool_decide (p.1 = k)) (rev l).

(** A dependency record with further dependents. *)
Definition add_dependents (extra : list string) (d : DepInfo) : DepInfo :=
  {| modelInfo := modelInfo d; dependsOn := dependsOn d;
     dependents := dependents d ++ extra |}.

(** The model [e.1], once for every occurrence of [d] in its [dependsOn]. *)
Definition dependent_entries (d : string) (e : string * DepInfo) : list string :=
  map (fun _ => e.1) (List.filter (fun x => bool_decide (x = d)) (dependsOn e.2)).

(** The layer of [m] is strictly later than the layer of [d]. *)
Definition later (ls : list Layer) (m d : string) : Prop :=
  ∃ i j, layer_of ls m = Some i ∧ layer_of ls d = Some j ∧ (j < i)%nat.

End DagSummary.

(** ** The expression translator

    Expressions and formulas are scanned and built character by character:
    they are lists of code units (8-bit here, as bytes of Latin-1 text). *)

Module Expr.

Notation str := (list ascii).

Coercion list_ascii_of_string : string >-> list.

(** *** Results of calls that may exhaust the call stack

    [convertExpressionToSigma] calls itself through the rewriters; the
    depth of the JavaScript call stack is the [fuel] of the model and
    [StackOverflow] is the RangeError of the engine. *)

Inductive res (A : Type) : Type :=
  | Ok (a : A)
  | StackOverflow.

Arguments Ok {A} a.
Arguments StackOverflow {A}.

#[global] Instance res_ret : MRet res := fun A a => Ok a.

#[global] Instance res_bind : MBind res := fun A B f r =>
  match r with
  | Ok a => f a
  | StackOverflow => StackOverflow
  end.

(** *** Characters *)

Definition code (c : ascii) : nat := nat_of_ascii c.

Definition quote : ascii := "'"%char.
Definition dquote : ascii := ascii_of_nat 34.
Definition lparen : ascii := "("%char.
Definition rparen : ascii := ")"%char.
Definition lbracket : ascii := "["%char.
Definition rbracket : ascii := "]"%char.
Definition comma : ascii := ","%char.
Definition space : ascii := " "%char.
Definition underscore : ascii := "_"%char.

Definition isQuote (c : ascii) : bool := Ascii.eqb c quote || Ascii.eqb c dquote.

(** [\s]: tab, line feed, vertical tab, form feed, carriage return, space
    and the no-break space. *)
Definition isSpace (c : ascii) : bool :=
  let n := code c in
  ((9 <=? n) && (n <=? 13)) || (n =? 32) || (n =? 160).

Definition isDigit (c : ascii) : bool :=
  let n := code c in (48 <=? n) && (n <=? 57).

(** [[a-zA-Z_]] *)
Definition isIdentStart (c : ascii) : bool :=
  let n := code c in
  ((65 <=? n) && (n <=? 90)) || ((97 <=? n) && (n <=? 122)) || (n =? 95).

(** [\w], that is [[a-zA-Z0-9_]] *)
Definition isWord (c : ascii) : bool := isIdentStart c || isDigit c.

Definition toLowerChar (c : ascii) : ascii :=
  let n := code c in
  if ((65 <=? n) && (n <=? 90))
     || ((192 <=? n) && (n <=? 222) && negb (n =? 215))
  then ascii_of_nat (n + 32) else c.

(** *** The string operations of JavaScript that the translator uses *)

Definition toLowerCase (s : str) : str := map toLowerChar s.

(** [s.substring(a, b)]: both indices are clamped, and swapped when
    [a > b]. *)
Definition substring (a b : nat) (s : str) : str :=
  let a' := a `min` length s in
  let b' := b `min` length s in
  take ((a' `max` b') - (a' `min` b')) (drop (a' `min` b') s).

(** [s.substring(a)] *)
Definition substringFrom (a : nat) (s : str) : str := drop a s.

Fixpoint startsWith (pat s : str) : bool :=
  match pat, s with
  | [], _ => true
  | p :: pat', c :: s' => Ascii.eqb p c && startsWith pat' s'
  | _ :: _, [] => false
  end.

Definition endsWith (pat s : str) : bool := startsWith (rev pat) (rev s).

(** [pat] is in lower case; the letters of [s] are compared without case
    (the [i] flag of a regular expression). *)
Fixpoint startsWithCI (pat s : str) : bool :=
  match pat, s with
  | [], _ => true
  | p :: pat', c :: s' => Ascii.eqb p (toLowerChar c) && startsWithCI pat' s'
  | _ :: _, [] => false
  end.

Fixpoint indexOf_go (pat : str) (pos : nat) (s : str) : option nat :=
  if startsWith pat s then Some pos
  else match s with
       | [] => None
       | _ :: s' => indexOf_go pat (S pos) s'
       end.

(** [s.indexOf(pat, from)]; [None] is the result -1. *)
Definition indexOf (pat : str) (from : nat) (s : str) : option nat :=
  indexOf_go pat (from `min` length s) (drop from s).

Fixpoint lastIndexOf_go (pat : str) (pos : nat) (s : str) (found : option nat)
    : option nat :=
  let found' := if startsWith pat s then Some pos else found in
  match s with
  | [] => found'
  | _ :: s' => lastIndexOf_go pat (S pos) s' found'
  end.

(** [s.lastIndexOf(pat)] *)
Definition lastIndexOf (pat : str) (s : str) : option nat :=
  lastIndexOf_go pat 0 s None.

Fixpoint drop_while (p : ascii → bool) (s : str) : str :=
  match s with
  | [] => []
  | c :: s' => if p c then drop_while p s' else s
  end.

Fixpoint take_while (p : ascii → bool) (s : str) : str :=
  match s with
  | [] => []
  | c :: s' => if p c then c :: take_while p s' else []
  end.

(** [s.trim()] *)
Definition trim (s : str) : str :=
  rev (drop_while isSpace (rev (drop_while isSpace s))).

(** [s.replace(/\s+/g, ' ')]: every run of white space becomes one space.
    [inRun] tells that the previous character was white space. *)
Fixpoint collapse (inRun : bool) (s : str) : str :=
  match s with
  | [] => []
  | c :: s' =>
      if isSpace c then (if inRun then collapse true s' else space :: collapse true s')
      else c :: collapse false s'
  end.

(** [s.replace(/\s+/g, ' ').trim()] *)
Definition normalize (s : str) : str := trim (collapse false s).

Fixpoint count_char (c : ascii) (s : str) : nat :=
  match s with
  | [] => 0
  | d :: s' => (if Ascii.eqb d c then 1 else 0) + count_char c s'
  end.

Definition replace_char (c d : ascii) (s : str) : str :=
  map (fun x => if Ascii.eqb x c then d else x) s.

(** [parts.join(sep)] on an array whose members may be [null]: [null]
    joins as the empty string. *)
Fixpoint join (sep : str) (parts : list (option str)) : str :=
  match parts with
  | [] => []
  | [p] => default [] p
  | p :: ps => default [] p ++ sep ++ join sep ps
  end.

(** A value in a condition: [null] and the empty string are falsy. *)
Definition truthy (o : option str) : bool :=
  match o with
  | Some (_ :: _) => true
  | _ => false
  end.

(** [`${v}`] *)
Definition template (o : option str) : str := default ("null" : str) o.

(** *** convertToUserFriendlyName *)

Definition convertToUserFriendlyName (name : str) : str :=
  replace_char underscore space name.

(** *** findMatchingClosingParen

    [s] is the part of the expression from position [i] on. *)
Fixpoint closing_paren_go (i depth : nat) (s : str) : option nat :=
  match s with
  | [] => None
  | c :: s' =>
      if Ascii.eqb c lparen then closing_paren_go (S i) (S depth) s'
      else if Ascii.eqb c rparen then
        match depth with
        | 0 => Some i
        | S depth' => closing_paren_go (S i) depth' s'
        end
      else closing_paren_go (S i) depth s'
  end.

Definition findMatchingClosingParen (expr : str) (startPos : nat) : option nat :=
  closing_paren_go startPos 0 (drop startPos expr).

(** *** parseFunctionArguments *)

Record ArgState := {
  args : list str;
  currentArg : str;
  inString : bool;
  stringChar : option ascii;
  parenDepth : Z
}.

Definition arg_step (st : ArgState) (char : ascii) : ArgState :=
  if negb (inString st) && isQuote char then
    {| args := args st; currentArg := currentArg st ++ [char];
       inString := true; stringChar := Some char; parenDepth := parenDepth st |}
  else if inString st && bool_decide (stringChar st = Some char) then
    {| args := args st; currentArg := currentArg st ++ [char];
       inString := false; stringChar := None; parenDepth := parenDepth st |}
  else if negb (inString st) && Ascii.eqb char lparen then
    {| args := args st; currentArg := currentArg st ++ [char];
       inString := inString st; stringChar := stringChar st;
       parenDepth := (parenDepth st + 1)%Z |}
  else if negb (inString st) && Ascii.eqb char rparen then
    {| args := args st; currentArg := currentArg st ++ [char];
       inString := inString st; stringChar := stringChar st;
       parenDepth := (parenDepth st - 1)%Z |}
  else if negb (inString st) && (parenDepth st =? 0)%Z && Ascii.eqb char comma then
    {| args := args st ++ [trim (currentArg st)]; currentArg := [];
       inString := inString st; stringChar := stringChar st;
       parenDepth := parenDepth st |}
  else
    {| args := args st; currentArg := currentArg st ++ [char];
       inString := inString st; stringChar := stringChar st;
       parenDepth := parenDepth st |}.

Definition parseFunctionArguments (argsStr : str) : list str :=
  let st := fold_left arg_step argsStr
              {| args := []; currentArg := []; inString := false;
                 stringChar := None; parenDepth := 0%Z |} in
  match trim (currentArg st) with
  | [] => args st
  | _ :: _ => args st ++ [trim (currentArg st)]
  end.

(** *** convertColumnReferences *)

Definition sigmaFunctions : list str :=
  [ "splitpart" : str;
    "SUBSTRING" : str; "substring" : str; "SUBSTR" : str; "substr" : str;
    "CONCAT" : str; "concat" : str; "CONCAT_WS" : str; "concat_ws" : str;
    "UPPER" : str; "upper" : str; "LOWER" : str; "lower" : str;
    "TRIM" : str; "trim" : str; "LTRIM" : str; "ltrim" : str;
    "RTRIM" : str; "rtrim" : str;
    "COALESCE" : str; "coalesce" : str; "NULLIF" : str; "nullif" : str;
    "CASE" : str; "case" : str; "WHEN" : str; "when" : str;
    "THEN" : str; "then" : str; "ELSE" : str; "else" : str;
    "END" : str; "end" : str;
    "IF" : str; "if" : str; "AND" : str; "and" : str; "OR" : str; "or" : str;
    "NOT" : str; "not" : str;
    "IS" : str; "is" : str; "NULL" : str; "null" : str;
    "DATE_TRUNC" : str; "date_trunc" : str; "DATE_PART" : str; "date_part" : str;
    "EXTRACT" : str; "extract" : str; "TO_DATE" : str; "to_date" : str;
    "TO_TIMESTAMP" : str; "to_timestamp" : str;
    "CAST" : str; "cast" : str; "::" : str ].

Definition isSigmaFunction (identifier : str) : bool :=
  bool_decide (toLowerCase identifier ∈ sigmaFunctions).

(** The matches of the global pattern for identifiers (a letter or
    underscore, then letters, digits and underscores, between word
    boundaries) in order, each with its index: a match starts where a letter or underscore follows a
    character that is no word character (or the start) and takes the whole
    run of word characters. [pos] is the index of the head of [s] and
    [prevWord] tells that the character before it is a word character. *)
Fixpoint identifier_matches (pos : nat) (prevWord : bool) (s : str)
    : list (nat * str) :=
  match s with
  | [] => []
  | c :: s' =>
      if negb prevWord && isIdentStart c
      then (pos, c :: take_while isWord s') :: identifier_matches (S pos) (isWord c) s'
      else identifier_matches (S pos) (isWord c) s'
  end.

Record Replacement := {
  r_start : nat;
  r_end : nat;
  r_replacement : str
}.

(** The three tests under which an identifier is left alone. *)
Definition skipped (converted : str) (startPos : nat) (identifier : str) : bool :=
  let endPos := startPos + length identifier in
  let before := substring 0 startPos converted in
  let singleQuotesBefore := count_char quote before in
  let doubleQuotesBefore := count_char dquote before in
  isSigmaFunction identifier
  || (singleQuotesBefore mod 2 =? 1) || (doubleQuotesBefore mod 2 =? 1)
  || match lastIndexOf [lbracket] before,
           indexOf [rbracket] 0 (substringFrom endPos converted) with
     | Some beforeBrackets, Some afterBrackets =>
         (beforeBrackets <? startPos) && (0 <=? afterBrackets)
     | _, _ => false
     end.

Definition replacement_of (userFriendly : bool) (converted : str)
    (m : nat * str) : option Replacement :=
  let identifier := m.2 in
  let startPos := m.1 in
  if skipped converted startPos identifier then None
  else
    let userFriendlyName :=
      if userFriendly then convertToUserFriendlyName identifier else identifier in
    Some {| r_start := startPos; r_end := startPos + length identifier;
            r_replacement := [lbracket] ++ userFriendlyName ++ [rbracket] |}.

(** [replacements.sort((a, b) => b.start - a.start)]: a stable sort by
    descending start. *)
Fixpoint insert_desc (r : Replacement) (l : list Replacement) : list Replacement :=
  match l with
  | [] => [r]
  | x :: l' =>
      if (r_start x <? r_start r) then r :: l else x :: insert_desc r l'
  end.

Definition sort_desc (l : list Replacement) : list Replacement :=
  fold_right insert_desc [] l.

Definition apply_replacement (converted : str) (r : Replacement) : str :=
  substring 0 (r_start r) converted ++ r_replacement r
    ++ substringFrom (r_end r) converted.

(** [userFriendly] is the test [USER_FRIENDLY_COLUMN_NAMES === 'true']. *)
Definition convertColumnReferences (userFriendly : bool) (expr : str) : str :=
  let converted := normalize expr in
  let replacements :=
    omap (replacement_of userFriendly converted)
         (identifier_matches 0 false converted) in
  fold_left apply_replacement (sort_desc replacements) converted.

(** *** Anchors of the rewriters *)

Definition boundary_after (s : str) : bool :=
  match s with
  | [] => true
  | c :: _ => negb (isWord c)
  end.

(** [/\bcase\b/i] has a match in [s]. *)
Fixpoint case_word_go (prevWord : bool) (s : str) : bool :=
  (negb prevWord && startsWithCI "case" s && boundary_after (drop 4 s))
  || match s with
     | [] => false
     | c :: s' => case_word_go (isWord c) s'
     end.

Definition matches_case_word (s : str) : bool := case_word_go false s.

(** After the name of a call: [\s*\(]; the result is the length of what
    was matched. *)
Fixpoint ws_then_paren (n : nat) (s : str) : option nat :=
  match s with
  | [] => None
  | c :: s' =>
      if Ascii.eqb c lparen then Some (S n)
      else if isSpace c then ws_then_paren (S n) s'
      else None
  end.

Definition call_at (name : str) (s : str) : option nat :=
  if startsWithCI name s
  then (fun k => length name + k) <$> ws_then_paren 0 (drop (length name) s)
  else None.

Fixpoint match_call_go (name : str) (pos : nat) (s : str) : option (nat * nat) :=
  match call_at name s with
  | Some len => Some (pos, len)
  | None =>
      match s with
      | [] => None
      | _ :: s' => match_call_go name (S pos) s'
      end
  end.

(** [expr.match(/name\s*\(/i)]: the index of the first match and the
    length of the matched text. *)
Definition match_call (name : str) (expr : str) : option (nat * nat) :=
  match_call_go name 0 expr.

(** *** convertSplitPart *)

Definition convertSplitPart (userFriendly : bool)
    (convertExpressionToSigma : str → res (option str)) (expr : str)
    : res (option str) :=
  match match_call "split_part" expr with
  | None => Ok None
  | Some (index, len) =>
      let startPos := index + len in
      match findMatchingClosingParen expr startPos with
      | None => Ok None
      | Some endPos =>
          let argsStr := substring startPos endPos expr in
          let args := parseFunctionArguments argsStr in
          if length args <? 3 then Ok None
          else
            let firstArg0 :=
              convertColumnReferences userFriendly (trim (default [] (head args))) in
            firstArg ← convertExpressionToSigma firstArg0;
            let otherArgs := map trim (tail args) in
            let result :=
              ("splitpart(" : str) ++ template firstArg ++ [comma]
                ++ join [comma] (map Some otherArgs) ++ [rparen] in
            Ok (Some (substring 0 index expr ++ result
                        ++ substringFrom (endPos + 1) expr))
      end
  end.

(** *** convertConcat *)

Definition isQuotedLiteral (arg : str) : bool :=
  (startsWith [quote] arg && endsWith [quote] arg)
  || (startsWith [dquote] arg && endsWith [dquote] arg).

Fixpoint convert_args (userFriendly : bool)
    (convertExpressionToSigma : str → res (option str)) (args : list str)
    : res (list (option str)) :=
  match args with
  | [] => Ok []
  | arg0 :: rest =>
      let arg := trim arg0 in
      a ← (if isQuotedLiteral arg then Ok (Some arg)
           else convertExpressionToSigma (convertColumnReferences userFriendly arg));
      r ← convert_args userFriendly convertExpressionToSigma rest;
      Ok (a :: r)
  end.

Definition convertConcat (userFriendly : bool)
    (convertExpressionToSigma : str → res (option str)) (expr : str)
    : res (option str) :=
  match match_call "concat" expr with
  | None => Ok None
  | Some (index, len) =>
      let startPos := index + len in
      match findMatchingClosingParen expr startPos with
      | None => Ok None
      | Some endPos =>
          let argsStr := substring startPos endPos expr in
          let args := parseFunctionArguments argsStr in
          convertedArgs ← convert_args userFriendly convertExpressionToSigma args;
          let result := join (" & " : str) convertedArgs in
          Ok (Some (substring 0 index expr ++ result
                      ++ substringFrom (endPos + 1) expr))
      end
  end.

(** *** convertCase *)

(** The scan for the THEN of a WHEN: [s] is [body] from index [i] on. *)
Fixpoint find_then (i : nat) (depth : Z) (inStr : bool) (strChar : option ascii)
    (s : str) : option nat :=
  match s with
  | [] => None
  | char :: s' =>
      if negb inStr && isQuote char then find_then (S i) depth true (Some char) s'
      else if inStr && bool_decide (strChar = Some char)
      then find_then (S i) depth false None s'
      else if negb inStr then
        if Ascii.eqb char lparen then find_then (S i) (depth + 1)%Z inStr strChar s'
        else if Ascii.eqb char rparen then find_then (S i) (depth - 1)%Z inStr strChar s'
        else if (depth =? 0)%Z && startsWith "then" s then Some i
        else find_then (S i) depth inStr strChar s'
      else find_then (S i) depth inStr strChar s'
  end.

Record CaseState := {
  conditions : list (option str);
  results : list (option str);
  elseResult : option str
}.

Definition earlier (candidate : option nat) (nextBoundary : nat) : nat :=
  match candidate with
  | Some i => if i <? nextBoundary then i else nextBoundary
  | None => nextBoundary
  end.

(** The loop over the WHEN clauses; [pos] grows in every round, so that
    [rounds], the length of the body, bounds the number of rounds. *)
Fixpoint when_loop (convertExpressionToSigma : str → res (option str))
    (caseBody body : str) (rounds pos : nat) (st : CaseState) : res CaseState :=
  match rounds with
  | 0 => Ok st
  | S rounds' =>
      if negb (pos <? length body) then Ok st
      else
        match indexOf "when" pos body with
        | None => Ok st
        | Some whenIndex =>
            match find_then (whenIndex + 4) 0%Z false None
                    (drop (whenIndex + 4) body) with
            | None => Ok st
            | Some thenIndex =>
                let conditionStr := trim (substring (whenIndex + 4) thenIndex caseBody) in
                condition ← convertExpressionToSigma conditionStr;
                let nextWhenIndex := indexOf "when" (thenIndex + 4) body in
                let elseIndex := indexOf "else" (thenIndex + 4) body in
                let caseEndIndex := indexOf "end" (thenIndex + 4) body in
                let nextBoundary :=
                  earlier caseEndIndex
                    (earlier elseIndex (earlier nextWhenIndex (length body))) in
                let resultStr := trim (substring (thenIndex + 4) nextBoundary caseBody) in
                result ← convertExpressionToSigma resultStr;
                let st1 := {| conditions := conditions st ++ [condition];
                              results := results st ++ [result];
                              elseResult := elseResult st |} in
                if bool_decide (elseIndex = Some nextBoundary) then
                  let elseStr := trim (substringFrom (nextBoundary + 4) caseBody) in
                  e ← convertExpressionToSigma elseStr;
                  Ok {| conditions := conditions st1; results := results st1;
                        elseResult := e |}
                else when_loop convertExpressionToSigma caseBody body rounds'
                       nextBoundary st1
            end
        end
  end.

Fixpoint if_args (conditions results : list (option str)) : list (option str) :=
  match conditions, results with
  | c :: cs, r :: rs => c :: r :: if_args cs rs
  | _, _ => []
  end.

Definition convertCase
    (convertExpressionToSigma : str → res (option str)) (expr : str)
    : res (option str) :=
  if negb (matches_case_word expr) then Ok None
  else
    let normalized := normalize expr in
    let caseIndex := indexOf "case" 0 (toLowerCase normalized) in
    match lastIndexOf "end" (toLowerCase normalized) with
    | None => Ok None
    | Some endIndex =>
        (* caseIndex + 4, where a missing index is -1 *)
        let bodyStart := match caseIndex with Some i => i + 4 | None => 3 end in
        let caseBody := trim (substring bodyStart endIndex normalized) in
        let body := toLowerCase caseBody in
        st ← when_loop convertExpressionToSigma caseBody body (length body) 0
               {| conditions := []; results := []; elseResult := None |};
        match conditions st with
        | [] => Ok None
        | _ :: _ =>
            let ifArgs :=
              if_args (conditions st) (results st)
                ++ (if truthy (elseResult st) then [elseResult st] else []) in
            let result := ("if(" : str) ++ join [comma] ifArgs ++ [rparen] in
            Ok (Some (substring 0 (default 0 caseIndex) normalized ++ result
                        ++ substringFrom (endIndex + 3) normalized))
        end
    end.

(** *** convertExpressionToSigma *)

(** One round of the loop: [Some] is the rewritten expression when a
    rewriter applied, [None] when none did. *)
Definition rewrite_step (userFriendly : bool)
    (convertExpressionToSigma : str → res (option str)) (converted : str)
    : res (option str) :=
  caseResult ← convertCase convertExpressionToSigma converted;
  if truthy caseResult && negb (bool_decide (caseResult = Some converted))
  then Ok caseResult
  else
    concatResult ← convertConcat userFriendly convertExpressionToSigma converted;
    if truthy concatResult && negb (bool_decide (concatResult = Some converted))
    then Ok concatResult
    else
      splitPartResult ← convertSplitPart userFriendly convertExpressionToSigma converted;
      if truthy splitPartResult
         && negb (bool_decide (splitPartResult = Some converted))
      then Ok splitPartResult
      else Ok None.

Definition maxIterations : nat := 10.

(** The [while] loop, with [iterations] rounds left. *)
Fixpoint rewrite_loop (userFriendly : bool)
    (convertExpressionToSigma : str → res (option str))
    (iterations : nat) (converted : str) : res str :=
  match iterations with
  | 0 => Ok converted
  | S iterations' =>
      r ← rewrite_step userFriendly convertExpressionToSigma converted;
      match r with
      | Some converted' =>
          rewrite_loop userFriendly convertExpressionToSigma iterations' converted'
      | None => Ok converted
      end
  end.

Fixpoint convertExpressionToSigma (userFriendly : bool) (fuel : nat) (expr : str)
    : res (option str) :=
  match fuel with
  | 0 => StackOverflow
  | S fuel' =>
      match expr with
      | [] => Ok None
      | _ :: _ =>
          let converted := normalize (trim expr) in
          converted' ← rewrite_loop userFriendly
                         (convertExpressionToSigma userFriendly fuel')
                         maxIterations converted;
          Ok (Some (convertColumnReferences userFriendly converted'))
      end
  end.

(** The translation of the specification: the display-name flag is off
    and the call stack has room for [fuel] nested calls. *)
Definition translate (fuel : nat) (expr : str) : res (option str) :=
  convertExpressionToSigma false fuel expr.


(** The call [convertExpressionToSigma(v)] on a value that may be [null]. *)
Definition translate_value (fuel : nat) (v : option str) : res (option str) :=
  match v with
  | Some expr => translate fuel expr
  | None => Ok None
  end.



(** *** One pass over the characters in place of the replacements

    What [convertColumnReferences] builds with its list of replacements is
    the result of one pass from left to right that writes a bracket before
    and after every identifier that is not left alone. *)

(** The three tests of [skipped] on the text before and after the
    identifier. *)
Definition skip_spec (pre identifier rest : str) : bool :=
  isSigmaFunction identifier
  || (count_char quote pre mod 2 =? 1) || (count_char dquote pre mod 2 =? 1)
  || (bool_decide (lbracket ∈ pre) && bool_decide (rbracket ∈ rest)).

(** [pre] is the text before [s], [prevWord] tells that it ends in a word
    character and [opened] that a bracket was written at the start of the
    identifier the pass is in. *)
Fixpoint bracketize (pre : str) (prevWord opened : bool) (s : str) : str :=
  match s with
  | [] => if opened then [rbracket] else []
  | c :: s' =>
      if isWord c then
        if negb prevWord && isIdentStart c
           && negb (skip_spec pre (c :: take_while isWord s') (drop_while isWord s'))
        then lbracket :: c :: bracketize (pre ++ [c]) true true s'
        else c :: bracketize (pre ++ [c]) true opened s'
      else (if opened then [rbracket] else [])
             ++ c :: bracketize (pre ++ [c]) false false s'
  end.

(** Every white space is one space that follows no white space;
    [prevSpace] tells that the character before [s] is white space. *)
Fixpoint tidy (prevSpace : bool) (s : str) : bool :=
  match s with
  | [] => true
  | c :: s' =>
      if isSpace c then negb prevSpace && bool_decide (c = space) && tidy true s'
      else tidy false s'
  end.

(** The first character is no white space. *)
Definition no_lead (s : str) : bool :=
  match s with
  | [] => true
  | c :: _ => negb (isSpace c)
  end.

(** The text has the form that [normalize] gives. *)
Definition normalized (s : str) : Prop :=
  tidy false s = true ∧ no_lead s = true ∧ no_lead (rev s) = true.

(** The replacements applied from the last of the list to the first. *)
Definition apply_all (converted : str) (l : list Replacement) : str :=
  fold_right (λ r acc, apply_replacement acc r) converted l.

Definition before (a b : Replacement) : Prop := r_start a < r_start b.

(** The text written so far against the text read so far: the same quotes,
    and a bracket wherever there was one. *)
Definition similar (pre written : str) : Prop :=
  count_char quote written = count_char quote pre
  ∧ count_char dquote written = count_char dquote pre
  ∧ (lbracket ∈ pre → lbracket ∈ written).

End Expr.

(** ** Notions for the scanners of the expression translator *)

Module ExprScan.
Import Expr.

(** The depth of nesting after the text [s], entered at depth [depth];
    [None] when a closing parenthesis occurs at depth 0. *)
Fixpoint balance (depth : nat) (s : str) : option nat :=
  match s with
  | [] => Some depth
  | c :: s' =>
      if Ascii.eqb c lparen then balance (S depth) s'
      else if Ascii.eqb c rparen then
        match depth with
        | 0 => None
        | S depth' => balance depth' s'
        end
      else balance depth s'
  end.

(** Every parenthesis of the text has its partner in the text. *)
Definition balanced (s : str) : Prop := balance 0 s = Some 0.

(** The part of the state of [parseFunctionArguments] that decides how a
    character is read: inside a literal, its quote, and the depth. *)
Definition ScanState : Type := bool * option ascii * Z.

Definition scan_of (st : ArgState) : ScanState :=
  (inString st, stringChar st, parenDepth st).

(** One character that does not end an argument; [None] for a comma that
    does. *)
Definition scan_step (σ : ScanState) (char : ascii) : option ScanState :=
  let '(inS, sc, depth) := σ in
  if negb inS && isQuote char then Some (true, Some char, depth)
  else if inS && bool_decide (sc = Some char) then Some (false, None, depth)
  else if negb inS && Ascii.eqb char lparen then Some (inS, sc, (depth + 1)%Z)
  else if negb inS && Ascii.eqb char rparen then Some (inS, sc, (depth - 1)%Z)
  else if negb inS && (depth =? 0)%Z && Ascii.eqb char comma then None
  else Some σ.

Fixpoint scan (σ : ScanState) (s : str) : option ScanState :=
  match s with
  | [] => Some σ
  | c :: s' => σ' ← scan_step σ c; scan σ' s'
  end.

(** An argument as [parseFunctionArguments] gives it back: not empty,
    without white space around it, every literal and every parenthesis
    closed, and no comma outside of literals and parentheses. *)
Definition whole_argument (a : str) : Prop :=
  a ≠ [] ∧ trim a = a ∧ scan (false, None, 0%Z) a = Some (false, None, 0%Z).

(** The text without square brackets. *)
Definition without_brackets (s : str) : str :=
  List.filter (fun c => negb (Ascii.eqb c lbracket || Ascii.eqb c rbracket)) s.

End ExprScan.

(** ** The filter translator and the metric resolver *)

Module Metrics.

Import Expr.

(** *** Data model *)

(** A property of a JavaScript object that holds a string, [null], or is
    absent. *)
Inductive jsval :=
  | Undefined
  | Null
  | Str (s : str).

#[global] Instance jsval_eq_dec : EqDecision jsval.
Proof. solve_decision. Defined.

Definition js_truthy (v : jsval) : bool :=
  match v with
  | Str (_ :: _) => true
  | _ => false
  end.

(** [`${v}`] *)
Definition js_template (v : jsval) : str :=
  match v with
  | Undefined => "undefined"
  | Null => "null"
  | Str s => s
  end.

Record Measure := {
  measure_name : str;
  measure_agg : str;
  measure_expr : option str
}.

Record Entity := {
  entity_name : str
}.

Record SemanticModel := {
  model_name : str;
  model_measures : option (list Measure);
  model_entities : option (list Entity)
}.

(** A metric reference is a bare name or a record with a name and,
    optionally, an alias and a filter (filters are strings). *)
Inductive MetricRef :=
  | RefName (name : str)
  | RefObj (name : str) (alias : option str) (filter : option str).

(** A reference in a condition: the empty name is falsy, a record is not. *)
Definition ref_truthy (r : MetricRef) : bool :=
  match r with
  | RefName [] => false
  | _ => true
  end.

Definition ref_name (r : MetricRef) : str :=
  match r with
  | RefName n => n
  | RefObj n _ _ => n
  end.

(** [typeof r === 'object' && r.filter], and [r.filter] on a string *)
Definition ref_filter (r : MetricRef) : option str :=
  match r with
  | RefName _ => None
  | RefObj _ _ f => if truthy f then f else None
  end.

Record TypeParams := {
  tp_measure : option str;
  tp_expr : option str;
  tp_metrics : option (list MetricRef);
  tp_numerator : option MetricRef;
  tp_denominator : option MetricRef
}.

Record Metric := {
  metric_name : str;
  metric_description : option str;
  metric_label : option str;
  metric_type : str;
  metric_type_params : option TypeParams;
  metric_filter : option str
}.

Record FormulaObject := {
  formula : str;
  aggFunc : jsval;
  measureExpr : jsval;
  existingFilter : jsval
}.

Record SigmaMetric := {
  sigma_id : str;
  sigma_name : str;
  sigma_description : str;
  sigma_formula : option str
}.

(** *** dimension_parser.js *)

(** [s.split('__')] *)
Fixpoint split_go (sep : str) (skip : nat) (current : str) (s : str) : list str :=
  match s with
  | [] => [current]
  | c :: s' =>
      match skip with
      | S skip' => split_go sep skip' current s'
      | 0 =>
          if startsWith sep s
          then current :: split_go sep (length sep - 1) [] s'
          else split_go sep 0 (current ++ [c]) s'
      end
  end.

Definition split (sep : str) (s : str) : list str := split_go sep 0 [] s.

(** The result [{ modelName, dimensionName }]. *)
Definition parseDimensionReference (userFriendly : bool) (dimRef : str)
    : option str * str :=
  let friendly := fun n => if userFriendly then convertToUserFriendlyName n else n in
  match split "__" dimRef with
  | p0 :: p1 :: _ => (Some p0, friendly p1)
  | _ => (None, friendly dimRef)
  end.

(** A match of [DIMENSION_REF_PATTERN] at the head of [s]: the text
    [Dimension(], a quote, one or more characters that are no quotes, a
    quote and [)]. The result is the length of the match and the quoted
    reference. *)
Definition dimension_ref_at (s : str) : option (nat * str) :=
  if startsWith "Dimension(" s then
    match drop 10 s with
    | q :: s1 =>
        if isQuote q then
          let dimRef := take_while (fun c => negb (isQuote c)) s1 in
          match dimRef, drop (length dimRef) s1 with
          | _ :: _, q' :: c :: _ =>
              if isQuote q' && Ascii.eqb c rparen
              then Some (10 + 1 + length dimRef + 2, dimRef)
              else None
          | _, _ => None
          end
        else None
    | [] => None
    end
  else None.

(** The matches of a global pattern that has a match of positive length
    [m s] at the head of [s]: after a match the search goes on behind it. *)
Fixpoint matches_go {A} (m : str → option (nat * A)) (skip : nat) (s : str) : list A :=
  match s with
  | [] => []
  | _ :: s' =>
      match skip with
      | S skip' => matches_go m skip' s'
      | 0 =>
          match m s with
          | Some (len, a) => a :: matches_go m (len - 1) s'
          | None => matches_go m 0 s'
          end
      end
  end.

(** [s.replace(pattern, match => f(match))] for such a pattern. *)
Fixpoint replace_go (m : str → option (nat * str)) (skip : nat) (s : str) : str :=
  match s with
  | [] => []
  | c :: s' =>
      match skip with
      | S skip' => replace_go m skip' s'
      | 0 =>
          match m s with
          | Some (len, text) => text ++ replace_go m (len - 1) s'
          | None => c :: replace_go m 0 s'
          end
      end
  end.

Definition findDimensionReferences (s : str) : list str :=
  matches_go dimension_ref_at 0 s.

Definition extractDimensionReferences (metric : Metric) : list str :=
  match metric_type_params metric with
  | Some tp =>
      match tp_metrics tp with
      | Some refs =>
          concat (map (fun refMetric =>
                         match ref_filter refMetric with
                         | Some filterStr => findDimensionReferences filterStr
                         | None => []
                         end) refs)
      | None => []
      end
  | None => []
  end.

(** *** metric_analyzer.js: canAddMetricToModel *)

Definition measure_exists (semanticModel : SemanticModel) (n : str) : bool :=
  match model_measures semanticModel with
  | Some ms => existsb (fun m => bool_decide (measure_name m = n)) ms
  | None => false
  end.

Definition metric_exists (allMetrics : list Metric) (n : str) : bool :=
  existsb (fun m => bool_decide (metric_name m = n)) allMetrics.

Definition entity_exists (semanticModel : SemanticModel) (n : option str) : bool :=
  match model_entities semanticModel with
  | Some es => existsb (fun e => bool_decide (Some (entity_name e) = n)) es
  | None => false
  end.

Definition reference_known (semanticModel : SemanticModel) (allMetrics : list Metric)
    (r : MetricRef) : bool :=
  measure_exists semanticModel (ref_name r) || metric_exists allMetrics (ref_name r).

Definition canAddMetricToModel (userFriendly : bool) (metric : Metric)
    (semanticModel : SemanticModel) (allMetrics : list Metric) : bool :=
  (* the metrics referenced in type_params.metrics *)
  match metric_type_params metric ≫= tp_metrics with
  | Some refs => forallb (reference_known semanticModel allMetrics) refs
  | None => true
  end
  (* numerator and denominator of a ratio metric *)
  && match metric_type_params metric with
     | Some tp =>
         if bool_decide (metric_type metric = ("ratio" : str)) then
           match tp_numerator tp with
           | Some numerator =>
               negb (ref_truthy numerator)
               || reference_known semanticModel allMetrics numerator
           | None => true
           end
           && match tp_denominator tp with
              | Some denominator =>
                  negb (ref_truthy denominator)
                  || reference_known semanticModel allMetrics denominator
              | None => true
              end
         else true
     | None => true
     end
  (* the dimension references of the filters *)
  && forallb (fun dimRef =>
                entity_exists semanticModel
                  (parseDimensionReference userFriendly dimRef).1)
       (extractDimensionReferences metric).

(** *** filter_converter.js: convertFilterToSigma *)

Definition jinja_at (s : str) : option (nat * str) :=
  if startsWith "{{" s || startsWith "}}" s then Some (2, []) else None.

(** One or more characters that satisfy [p], then the rest. *)
Definition many1 (p : ascii → bool) (s : str) : option (str * str) :=
  match take_while p s with
  | [] => None
  | run => Some (run, drop (length run) s)
  end.

Definition lit (c : ascii) (s : str) : option str :=
  match s with
  | d :: s' => if Ascii.eqb c d then Some s' else None
  | [] => None
  end.

Definition litCI (pat : str) (s : str) : option str :=
  if startsWithCI pat s then Some (drop (length pat) s) else None.

(** A bracketed dimension and white space at the head of [s]: the
    dimension and the rest. *)
Definition bracketed_then_space (s : str) : option (str * str) :=
  s1 ← lit lbracket s;
  '(dimension, s2) ← many1 (fun c => negb (Ascii.eqb c rbracket)) s1;
  s3 ← lit rbracket s2;
  '(_, s4) ← many1 isSpace s3;
  Some (dimension, s4).

(** A parenthesized list of values. *)
Definition parenthesized (s : str) : option (str * str) :=
  s1 ← lit lparen s;
  '(values, s2) ← many1 (fun c => negb (Ascii.eqb c rparen)) s1;
  s3 ← lit rparen s2;
  Some (values, s3).

(** A quote, characters that are no quotes, and the same quote again. *)
Definition quoted_pattern (s : str) : option (ascii * str * str) :=
  match s with
  | q :: s1 =>
      if isQuote q then
        let pattern := take_while (fun c => negb (isQuote c)) s1 in
        s2 ← lit q (drop (length pattern) s1);
        Some (q, pattern, s2)
      else None
  | [] => None
  end.

Definition matched (s rest : str) : nat := length s - length rest.

(** [[dimension] in (values)] *)
Definition in_at (s : str) : option (nat * str) :=
  '(dimension, s1) ← bracketed_then_space s;
  s2 ← litCI "in" s1;
  '(_, s3) ← many1 isSpace s2;
  '(values, s4) ← parenthesized s3;
  Some (matched s s4,
        ("arraycontains(array(" : str) ++ values ++ ("),[" : str) ++ dimension
          ++ ("])" : str)).

(** [[dimension] not in (values)] *)
Definition not_in_at (s : str) : option (nat * str) :=
  '(dimension, s1) ← bracketed_then_space s;
  s2 ← litCI "not" s1;
  '(_, s3) ← many1 isSpace s2;
  s4 ← litCI "in" s3;
  '(_, s5) ← many1 isSpace s4;
  '(values, s6) ← parenthesized s5;
  Some (matched s s6,
        ("not(arraycontains(array(" : str) ++ values ++ ("),[" : str) ++ dimension
          ++ ("]))" : str)).

(** [[dimension] is not null] *)
Definition is_not_null_at (s : str) : option (nat * str) :=
  '(dimension, s1) ← bracketed_then_space s;
  s2 ← litCI "is" s1;
  '(_, s3) ← many1 isSpace s2;
  s4 ← litCI "not" s3;
  '(_, s5) ← many1 isSpace s4;
  s6 ← litCI "null" s5;
  Some (matched s s6, ("isnotnull([" : str) ++ dimension ++ ("])" : str)).

(** [[dimension] is null] *)
Definition is_null_at (s : str) : option (nat * str) :=
  '(dimension, s1) ← bracketed_then_space s;
  s2 ← litCI "is" s1;
  '(_, s3) ← many1 isSpace s2;
  s4 ← litCI "null" s3;
  Some (matched s s4, ("isnull([" : str) ++ dimension ++ ("])" : str)).

(** [[dimension] not ilike 'pattern'] *)
Definition not_ilike_at (s : str) : option (nat * str) :=
  '(dimension, s1) ← bracketed_then_space s;
  s2 ← litCI "not" s1;
  '(_, s3) ← many1 isSpace s2;
  s4 ← litCI "ilike" s3;
  '(_, s5) ← many1 isSpace s4;
  '(q, pattern, s6) ← quoted_pattern s5;
  Some (matched s s6,
        ("not(ilike([" : str) ++ dimension ++ ("]," : str) ++ [q] ++ pattern ++ [q]
          ++ ("))" : str)).

(** [[dimension] ilike 'pattern'] *)
Definition ilike_at (s : str) : option (nat * str) :=
  '(dimension, s1) ← bracketed_then_space s;
  s2 ← litCI "ilike" s1;
  '(_, s3) ← many1 isSpace s2;
  '(q, pattern, s4) ← quoted_pattern s3;
  Some (matched s s4,
        ("ilike([" : str) ++ dimension ++ ("]," : str) ++ [q] ++ pattern ++ [q]
          ++ (")" : str)).

Definition dimension_at (userFriendly : bool) (s : str) : option (nat * str) :=
  '(len, dimRef) ← dimension_ref_at s;
  Some (len, [lbracket] ++ (parseDimensionReference userFriendly dimRef).2
               ++ [rbracket]).

(** [modelName] is not used by the source either. *)
Definition convertFilterToSigma (userFriendly : bool) (filterStr : str)
    (modelName : str) : str :=
  let c0 := normalize (replace_go jinja_at 0 filterStr) in
  let c1 := replace_go (dimension_at userFriendly) 0 c0 in
  let c2 := replace_go in_at 0 c1 in
  let c3 := replace_go not_in_at 0 c2 in
  let c4 := replace_go is_not_null_at 0 c3 in
  let c5 := replace_go is_null_at 0 c4 in
  let c6 := replace_go not_ilike_at 0 c5 in
  replace_go ilike_at 0 c6.

(** *** filter_utils.js *)

(** The filters are strings, [null] or [undefined]; the result is one of
    the arguments or a new string. *)
Definition combineFilters (existingFilter newFilter : jsval) : jsval :=
  if negb (js_truthy existingFilter) then newFilter
  else if negb (js_truthy newFilter) then existingFilter
  else Str (("(" : str) ++ js_template existingFilter ++ (") and " : str)
              ++ js_template newFilter).

Definition rebuildFilteredFormula (aggFunc measureExpr combinedFilter : jsval) : str :=
  if bool_decide (aggFunc = Str "countif")
  then js_template aggFunc ++ ("(" : str) ++ js_template combinedFilter ++ (")" : str)
  else js_template aggFunc ++ ("([" : str) ++ js_template measureExpr ++ ("]," : str)
         ++ js_template combinedFilter ++ (")" : str).

(** *** build_formula_object.js *)

Definition expr_val (o : option str) : jsval :=
  match o with
  | Some s => Str s
  | None => Undefined
  end.

Definition buildMeasureFormula (userFriendly : bool) (measure : Measure) : FormulaObject :=
  let userFriendlyExpr :=
    match measure_expr measure with
    | Some e =>
        (* convertToUserFriendlyName returns a falsy name unchanged *)
        Str (if userFriendly then convertToUserFriendlyName e else e)
    | None => Undefined
    end in
  let agg := measure_agg measure in
  let aggFunc : str :=
    if bool_decide (agg = ("count_distinct" : str)) then "countdistinct" else agg in
  {| formula := aggFunc ++ ("([" : str) ++ js_template userFriendlyExpr ++ ("])" : str);
     aggFunc := Str aggFunc;
     measureExpr := userFriendlyExpr;
     existingFilter := Null |}.

Definition filtered_aggregation (measureAgg : str) : jsval :=
  if bool_decide (measureAgg = ("sum" : str)) then Str "sumif"
  else if bool_decide (measureAgg = ("avg" : str)) then Str "avgif"
  else if bool_decide (measureAgg = ("min" : str)) then Str "minif"
  else if bool_decide (measureAgg = ("max" : str)) then Str "maxif"
  else if bool_decide (measureAgg = ("count" : str)) then Str "countif"
  else if bool_decide (measureAgg = ("count_distinct" : str)) then Str "countdistinctif"
  else Null.

Definition buildMeasureFormulaWithFilter (userFriendly : bool) (measure : Measure)
    (filterStr : str) (modelName : str) : FormulaObject :=
  let measureExpr := expr_val (measure_expr measure) in
  let measureAgg := measure_agg measure in
  let convertedFilter := convertFilterToSigma userFriendly filterStr modelName in
  let aggFunc := filtered_aggregation measureAgg in
  let isCount := bool_decide (measureAgg = ("count" : str)) in
  {| formula :=
       if isCount
       then js_template aggFunc ++ ("(" : str) ++ convertedFilter ++ (")" : str)
       else js_template aggFunc ++ ("([" : str) ++ js_template measureExpr
              ++ ("]," : str) ++ convertedFilter ++ (")" : str);
     aggFunc := aggFunc;
     measureExpr := if isCount then Null else measureExpr;
     existingFilter := Str convertedFilter |}.

(** *** The state of a run and the monad of the resolver

    [convertedMetrics] memoizes formula objects by name and [warnings]
    collects what [console.warn] prints. The memo is a plain object
    ([const convertedMetrics = {}]), not a [Map]: a read
    [convertedMetrics[n]] that finds no own property goes on to the
    prototype, and the assignment [convertedMetrics['__proto__'] = o] is
    a call of the setter of [Object.prototype.__proto__], which makes the
    object [o] the prototype and stores no property. The state holds the
    own properties of the memo and its prototype: [None] is
    [Object.prototype], [Some o] a formula object, whose own prototype is
    [Object.prototype]. A computation takes the state and returns a result
    with the new state, or exhausts the call stack. *)

Record State := {
  convertedMetrics : gmap str FormulaObject;
  prototype : option FormulaObject;
  warnings : list str
}.

Definition proto_key : str := "__proto__".

(** The function-valued properties of [Object.prototype]. *)
Definition object_prototype_methods : list str :=
  [ "constructor" : str; "__defineGetter__" : str; "__defineSetter__" : str;
    "hasOwnProperty" : str; "__lookupGetter__" : str; "__lookupSetter__" : str;
    "isPrototypeOf" : str; "propertyIsEnumerable" : str; "toString" : str;
    "valueOf" : str; "toLocaleString" : str ].

(** What a read of the memo gives: a formula object, a property of the
    formula object that is the prototype (undefined, null or a string), or
    a builtin, which is [Object.prototype] itself or one of its methods. *)
Inductive value :=
  | VFormula (o : FormulaObject)
  | VPrim (v : jsval)
  | VBuiltin.

Definition value_truthy (v : value) : bool :=
  match v with
  | VFormula _ | VBuiltin => true
  | VPrim p => js_truthy p
  end.

(** [v.formula], [v.aggFunc], [v.measureExpr] and [v.existingFilter] for a
    truthy [v]: a string and a builtin have none of these properties. *)
Definition value_formula (v : value) : jsval :=
  match v with VFormula o => Str (formula o) | _ => Undefined end.

Definition value_aggFunc (v : value) : jsval :=
  match v with VFormula o => aggFunc o | _ => Undefined end.

Definition value_measureExpr (v : value) : jsval :=
  match v with VFormula o => measureExpr o | _ => Undefined end.

Definition value_existingFilter (v : value) : jsval :=
  match v with VFormula o => existingFilter o | _ => Undefined end.

(** The property [n] of a formula object, when it has one. An object
    [{ formula }] is kept with its other fields undefined, which is also
    what a read of a missing property gives. *)
Definition formula_object_property (o : FormulaObject) (n : str) : option jsval :=
  if bool_decide (n = ("formula" : str)) then Some (Str (formula o))
  else if bool_decide (n = ("aggFunc" : str)) then Some (aggFunc o)
  else if bool_decide (n = ("measureExpr" : str)) then Some (measureExpr o)
  else if bool_decide (n = ("existingFilter" : str)) then Some (existingFilter o)
  else None.

(** [Object.prototype[n]] for [n] other than [__proto__]. *)
Definition object_prototype_property (n : str) : value :=
  if bool_decide (n ∈ object_prototype_methods) then VBuiltin else VPrim Undefined.

(** [convertedMetrics[n]]. The memo never has an own property
    [__proto__], since it is only written by assignment: that name reads
    the prototype. *)
Definition read_converted (st : State) (n : str) : value :=
  if bool_decide (n = proto_key) then
    match prototype st with
    | Some o => VFormula o
    | None => VBuiltin
    end
  else
    match convertedMetrics st !! n with
    | Some o => VFormula o
    | None =>
        match prototype st with
        | Some proto =>
            match formula_object_property proto n with
            | Some v => VPrim v
            | None => object_prototype_property n
            end
        | None => object_prototype_property n
        end
    end.

(** [convertedMetrics[n] = o] for a formula object [o]: every property
    of the prototypes other than [__proto__] is a writable data property,
    so that the assignment makes an own property. *)
Definition stored (n : str) (o : FormulaObject) (st : State) : State :=
  if bool_decide (n = proto_key)
  then {| convertedMetrics := convertedMetrics st; prototype := Some o;
          warnings := warnings st |}
  else {| convertedMetrics := <[ n := o ]> (convertedMetrics st);
          prototype := prototype st; warnings := warnings st |}.

Definition M (A : Type) : Type := State → res (A * State).

#[global] Instance M_ret : MRet M := fun A a st => Ok (a, st).

#[global] Instance M_bind : MBind M := fun A B f m st =>
  match m st with
  | Ok (a, st') => f a st'
  | StackOverflow => StackOverflow
  end.

Definition lookup_converted (n : str) : M value :=
  fun st => Ok (read_converted st n, st).

Definition store_converted (n : str) (o : FormulaObject) : M unit :=
  fun st => Ok (tt, stored n o st).

Definition warn (w : str) : M unit :=
  fun st => Ok (tt, {| convertedMetrics := convertedMetrics st;
                       prototype := prototype st;
                       warnings := warnings st ++ [w] |}).

(** A result that is a string, null or undefined: [None] is a result
    that is no string. *)
Definition js_string (v : jsval) : option str :=
  match v with
  | Str s => Some s
  | _ => None
  end.

(** *** formula/build_sigma_formula.js: buildSigmaMeasureFormula *)

Definition find_measure (semanticModel : SemanticModel) (n : str) : option Measure :=
  model_measures semanticModel ≫=
    List.find (fun m => bool_decide (measure_name m = n)).

Definition find_metric (allMetrics : list Metric) (n : str) : option Metric :=
  List.find (fun m => bool_decide (metric_name m = n)) allMetrics.

(** The result [None] is a result that is no string: null or undefined,
    which the callers only test for truth. *)
Definition buildSigmaMeasureFormula (userFriendly : bool)
    (typeParamMetric : MetricRef) (semanticModel : SemanticModel)
    (allMetrics : list Metric)
    (convertMetricToSigma : Metric → M SigmaMetric) : M (option str) :=
  let metricName := ref_name typeParamMetric in
  match find_measure semanticModel metricName with
  | Some measure =>
      let sigmaFormulaObject :=
        match ref_filter typeParamMetric with
        | Some filterStr =>
            buildMeasureFormulaWithFilter userFriendly measure filterStr
              (model_name semanticModel)
        | None => buildMeasureFormula userFriendly measure
        end in
      _ ← store_converted metricName sigmaFormulaObject;
      mret (Some (formula sigmaFormulaObject))
  | None =>
      match find_metric allMetrics metricName with
      | None => mret None
      | Some referencedMetric =>
          cached ← lookup_converted metricName;
          (* [None]: the function returns null; [Some v]: the value of
             [referencedMetricFormulaObject] *)
          resolved ←
            (if value_truthy cached then mret (Some cached)
             else
               convertedMetric ← convertMetricToSigma referencedMetric;
               if truthy (sigma_formula convertedMetric)
               then
                 o ← lookup_converted metricName;
                 mret (Some o)
               else mret None);
          match resolved with
          | None => mret None
          | Some referencedMetricFormulaObject =>
              let o := referencedMetricFormulaObject in
              (* [o ? o.formula : null] *)
              let plain :=
                if value_truthy o then js_string (value_formula o) else None in
              match ref_filter typeParamMetric with
              | Some newFilterStr =>
                  let convertedNewFilter :=
                    convertFilterToSigma userFriendly newFilterStr
                      (model_name semanticModel) in
                  if value_truthy o
                     && js_truthy (value_aggFunc o)
                     && negb (bool_decide (value_existingFilter o = Null))
                     && negb (bool_decide (value_existingFilter o = Undefined))
                  then
                    let combinedFilter :=
                      combineFilters (value_existingFilter o) (Str convertedNewFilter) in
                    let combinedFormula :=
                      rebuildFilteredFormula (value_aggFunc o) (value_measureExpr o)
                        combinedFilter in
                    _ ← store_converted metricName
                          {| formula := combinedFormula; aggFunc := value_aggFunc o;
                             measureExpr := value_measureExpr o;
                             existingFilter := combinedFilter |};
                    mret (Some combinedFormula)
                  else if value_truthy o && js_truthy (value_formula o)
                  then mret (js_string (value_formula o))
                  else mret plain
              | None => mret plain
              end
          end
      end
  end.

(** *** metric_converter.js *)

(** [[...new Set(parts)]]: the first occurrence of each part is kept. *)
Fixpoint dedupe (seen : list str) (parts : list str) : list str :=
  match parts with
  | [] => []
  | p :: rest =>
      if bool_decide (p ∈ seen) then dedupe seen rest else p :: dedupe (p :: seen) rest
  end.

(** The matches of the pattern for bare words, without duplicates. *)
Definition parseExprParts (expr : str) : list str :=
  dedupe [] (map snd (identifier_matches 0 false expr)).

Definition ref_alias (r : MetricRef) : option str :=
  match r with
  | RefName _ => None
  | RefObj _ a _ => a
  end.

(** A bare name has neither [alias] nor [name]. *)
Definition ref_object_name (r : MetricRef) : option str :=
  match r with
  | RefName _ => None
  | RefObj n _ _ => Some n
  end.

Definition findMetricInTypeParams (typeParamMetrics : list MetricRef) (exprPart : str)
    : option MetricRef :=
  match List.find (fun r => bool_decide (ref_alias r = Some exprPart)) typeParamMetrics with
  | Some r => Some r
  | None =>
      List.find (fun r => bool_decide (ref_object_name r = Some exprPart)) typeParamMetrics
  end.

(** The replacement patterns of [String.prototype.replace] in a
    replacement string, for a pattern without groups: [$$] is a dollar
    sign, [$&] the match, [$`] the text before it and [$'] the text after
    it. *)
Fixpoint substitution (before matchedText after : str) (replacement : str) : str :=
  match replacement with
  | [] => []
  | c :: r =>
      if Ascii.eqb c "$"%char then
        match r with
        | d :: r' =>
            if Ascii.eqb d "$"%char then "$"%char :: substitution before matchedText after r'
            else if Ascii.eqb d "&"%char
            then matchedText ++ substitution before matchedText after r'
            else if Ascii.eqb d "`"%char
            then before ++ substitution before matchedText after r'
            else if Ascii.eqb d quote
            then after ++ substitution before matchedText after r'
            else c :: substitution before matchedText after r
        | [] => [c]
        end
      else c :: substitution before matchedText after r
  end.

(** [s.replace(new RegExp('\\b' + part + '\\b', 'g'), replacement)]:
    [before] is the text already passed, [prevWord] tells that it ends in a
    word character. *)
Fixpoint replace_word_go (part replacement : str) (before : str) (prevWord : bool)
    (skip : nat) (s : str) : str :=
  match s with
  | [] => []
  | c :: s' =>
      match skip with
      | S skip' =>
          replace_word_go part replacement (before ++ [c]) (isWord c) skip' s'
      | 0 =>
          if negb prevWord && startsWith part s && boundary_after (drop (length part) s)
          then substitution before part (drop (length part) s) replacement
                 ++ replace_word_go part replacement (before ++ [c]) (isWord c)
                      (length part - 1) s'
          else c :: replace_word_go part replacement (before ++ [c]) (isWord c) 0 s'
      end
  end.

Definition replace_word (part replacement : str) (s : str) : str :=
  match part with
  | [] => s
  | _ :: _ => replace_word_go part replacement [] false 0 s
  end.

Definition part_warning (part expr : str) : str :=
  ("Warning: Part '" : str) ++ part ++ ("' in expr '" : str) ++ expr
    ++ ("' not found in type_params.metrics" : str).

Definition missing_warning (n : str) : str :=
  ("Warning: Measure/metric '" : str) ++ n
    ++ ("' not found in semantic model measures or metrics" : str).

(** The first loop of [convertExpression]: the assignments
    [formulas[part] = formula] in the order of the parts, or [None] when a
    part cannot be resolved. *)
Fixpoint part_formulas (userFriendly : bool) (expr : str)
    (typeParamMetrics : list MetricRef) (semanticModel : SemanticModel)
    (allMetrics : list Metric) (convertMetricToSigma : Metric → M SigmaMetric)
    (parts : list str) : M (option (list (str * str))) :=
  match parts with
  | [] => mret (Some [])
  | part :: rest =>
      match findMetricInTypeParams typeParamMetrics part with
      | None =>
          _ ← warn (part_warning part expr);
          mret None
      | Some typeParamMetric =>
          f ← buildSigmaMeasureFormula userFriendly typeParamMetric semanticModel
                allMetrics convertMetricToSigma;
          if truthy f then
            fs ← part_formulas userFriendly expr typeParamMetrics semanticModel
                   allMetrics convertMetricToSigma rest;
            mret ((fun l => (part, default [] f) :: l) <$> fs)
          else
            _ ← warn (missing_warning (ref_name typeParamMetric));
            mret None
      end
  end.

(** The text of [Object.prototype] as a replacement. *)
Definition object_text : str := "[object Object]".

(** [formulas[part]] in the second loop, after the assignment
    [formulas[part] = formula] of the first. The table is a plain object
    ([const formulas = {}]) and the parts are distinct: the read gives the
    string that was assigned, except for the part [__proto__], where the
    assignment is a call of the setter of [Object.prototype.__proto__],
    which ignores a string, and the read gives [Object.prototype], which
    [String.prototype.replace] converts to a string. *)
Definition assigned_formula (pf : str * str) : str :=
  if bool_decide (pf.1 = proto_key) then object_text else pf.2.

Definition convertExpression (userFriendly : bool) (expr : option str)
    (typeParamMetrics : list MetricRef) (semanticModel : SemanticModel)
    (allMetrics : list Metric) (convertMetricToSigma : Metric → M SigmaMetric)
    : M (option str) :=
  match expr with
  | None | Some [] => mret None
  | Some e =>
      match parseExprParts e with
      | [] => mret None
      | parts =>
          fs ← part_formulas userFriendly e typeParamMetrics semanticModel
                 allMetrics convertMetricToSigma parts;
          match fs with
          | None => mret None
          | Some formulas =>
              mret (Some (fold_left (fun convertedExpr pf =>
                                       replace_word pf.1 (assigned_formula pf)
                                         convertedExpr)
                                    formulas e))
          end
      end
  end.

Definition ratio_warning (metricName numeratorName denominatorName : str) : str :=
  ("Warning: Could not build formula for ratio metric '" : str) ++ metricName
    ++ ("'. Numerator: " : str) ++ numeratorName ++ (", Denominator: " : str)
    ++ denominatorName.

Definition first_truthy (a b : option str) (c : str) : str :=
  if truthy a then default [] a else if truthy b then default [] b else c.

(** The body of [convertMetricToSigma]; [self] is the function itself,
    which [buildSigmaMeasureFormula] receives as its last argument. *)
Definition convertMetricToSigma_body (userFriendly : bool)
    (self : Metric → M SigmaMetric)
    (metric : Metric) (semanticModel : SemanticModel) (allMetrics : list Metric)
    : M SigmaMetric :=
  let mtype := metric_type metric in
  let tp := metric_type_params metric in
  (* simple metrics *)
  f1 ←
    match tp ≫= tp_measure with
    | Some ((_ :: _) as measureName) =>
        if bool_decide (mtype = ("simple" : str)) then
          let typeParamMetrics :=
            [RefObj measureName None
               (if truthy (metric_filter metric) then metric_filter metric else None)] in
          f ← convertExpression userFriendly (Some measureName) typeParamMetrics
                semanticModel allMetrics self;
          o ← lookup_converted measureName;
          (* a value that is falsy or no formula object has no [aggFunc] *)
          _ ← match o with
              | VFormula obj =>
                  if bool_decide (aggFunc obj = Undefined) then mret tt
                  else store_converted (metric_name metric) obj
              | _ => mret tt
              end;
          mret f
        else mret None
    | _ => mret None
    end;
  (* derived metrics *)
  f2 ←
    match tp with
    | Some params =>
        if bool_decide (mtype = ("derived" : str)) then
          match tp_expr params, tp_metrics params with
          | Some ((_ :: _) as expr), Some ((_ :: _) as typeParamMetrics) =>
              convertExpression userFriendly (Some expr) typeParamMetrics
                semanticModel allMetrics self
          | _, _ => mret f1
          end
        else mret f1
    | None => mret f1
    end;
  (* ratio metrics *)
  f3 ←
    match tp with
    | Some params =>
        if bool_decide (mtype = ("ratio" : str)) then
          match tp_numerator params, tp_denominator params with
          | Some numerator, Some denominator =>
              if negb (ref_truthy numerator && ref_truthy denominator) then mret f2
              else
              numeratorFormula ←
                buildSigmaMeasureFormula userFriendly numerator semanticModel
                  allMetrics self;
              denominatorFormula ←
                buildSigmaMeasureFormula userFriendly denominator semanticModel
                  allMetrics self;
              if truthy numeratorFormula && truthy denominatorFormula then
                mret (Some (("(" : str) ++ default [] numeratorFormula
                              ++ (") / (" : str) ++ default [] denominatorFormula
                              ++ (")" : str)))
              else
                _ ← warn (ratio_warning (metric_name metric) (ref_name numerator)
                            (ref_name denominator));
                mret f2
          | _, _ => mret f2
          end
        else mret f2
    | None => mret f2
    end;
  (* memoize the formula when nothing is stored under the name yet *)
  _ ← (if truthy f3 then
         o ← lookup_converted (metric_name metric);
         if value_truthy o then mret tt
         else
           store_converted (metric_name metric)
             {| formula := default [] f3; aggFunc := Undefined;
                measureExpr := Undefined; existingFilter := Undefined |}
       else mret tt);
  mret {| sigma_id := metric_name metric;
          sigma_name := metric_name metric;
          sigma_description :=
            first_truthy (metric_description metric) (metric_label metric)
              (metric_name metric);
          sigma_formula := f3 |}.

(** [fuel] is the room on the call stack for nested calls. *)
Fixpoint convertMetricToSigma (userFriendly : bool) (fuel : nat)
    (semanticModel : SemanticModel) (allMetrics : list Metric) (metric : Metric)
    : M SigmaMetric :=
  match fuel with
  | 0 => fun _ => StackOverflow
  | S fuel' =>
      convertMetricToSigma_body userFriendly
        (convertMetricToSigma userFriendly fuel' semanticModel allMetrics)
        metric semanticModel allMetrics
  end.

(** *** convert_semantics.js: one pass over the metrics of a type *)

Record Output := {
  out_metrics : list SigmaMetric;
  crossModelMetrics : list Metric
}.

Definition process_metric (userFriendly : bool) (fuel : nat)
    (semanticModel : SemanticModel) (allMetrics : list Metric)
    (out : Output) (metric : Metric) : M Output :=
  if canAddMetricToModel userFriendly metric semanticModel allMetrics then
    sigmaMetric ← convertMetricToSigma userFriendly fuel semanticModel allMetrics metric;
    if truthy (sigma_formula sigmaMetric)
    then mret {| out_metrics := out_metrics out ++ [sigmaMetric];
                 crossModelMetrics := crossModelMetrics out |}
    else mret out
  else mret {| out_metrics := out_metrics out;
               crossModelMetrics := crossModelMetrics out ++ [metric] |}.

Fixpoint process_metrics (userFriendly : bool) (fuel : nat)
    (semanticModel : SemanticModel) (allMetrics : list Metric)
    (out : Output) (metrics : list Metric) : M Output :=
  match metrics with
  | [] => mret out
  | metric :: rest =>
      out' ← process_metric userFriendly fuel semanticModel allMetrics out metric;
      process_metrics userFriendly fuel semanticModel allMetrics out' rest
  end.

Definition of_type (t : str) (metrics : list Metric) : list Metric :=
  List.filter (fun m => bool_decide (metric_type m = t)) metrics.

(** The three passes over [sourceData.metrics]: simple, derived, ratio. *)
Definition process_source_metrics (userFriendly : bool) (fuel : nat)
    (semanticModel : SemanticModel) (sourceMetrics : list Metric) : M Output :=
  out1 ← process_metrics userFriendly fuel semanticModel sourceMetrics
           {| out_metrics := []; crossModelMetrics := [] |}
           (of_type "simple" sourceMetrics);
  out2 ← process_metrics userFriendly fuel semanticModel sourceMetrics out1
           (of_type "derived" sourceMetrics);
  process_metrics userFriendly fuel semanticModel sourceMetrics out2
    (of_type "ratio" sourceMetrics).

Definition initial_state : State :=
  {| convertedMetrics := ∅; prototype := None; warnings := [] |}.

(** *** The filter composition of the specification

    What a filter-bearing reference [r] to a metric with the cached formula
    object [o] returns according to the specification: the formula rebuilt
    from the cached aggregation function and measure expression with the
    two filters combined, which also replaces the cached object. *)
Definition combined_filter (userFriendly : bool) (semanticModel : SemanticModel)
    (o : FormulaObject) (newFilterStr : str) : jsval :=
  combineFilters (existingFilter o)
    (Str (convertFilterToSigma userFriendly newFilterStr (model_name semanticModel))).

Definition combines_filters (userFriendly : bool) (r : MetricRef)
    (semanticModel : SemanticModel) (allMetrics : list Metric)
    (self : Metric → M SigmaMetric) (st : State)
    (o : FormulaObject) (newFilterStr : str) : Prop :=
  let combinedFilter := combined_filter userFriendly semanticModel o newFilterStr in
  let combinedFormula :=
    rebuildFilteredFormula (aggFunc o) (measureExpr o) combinedFilter in
  buildSigmaMeasureFormula userFriendly r semanticModel allMetrics self st =
    Ok (Some combinedFormula,
        stored (ref_name r)
          {| formula := combinedFormula; aggFunc := aggFunc o;
             measureExpr := measureExpr o; existingFilter := combinedFilter |}
          st).

(** What the reference returns when its filter is dropped: the cached
    formula, with the state as it was. *)
Definition drops_filter (userFriendly : bool) (r : MetricRef)
    (semanticModel : SemanticModel) (allMetrics : list Metric)
    (self : Metric → M SigmaMetric) (st : State) (o : FormulaObject) : Prop :=
  buildSigmaMeasureFormula userFriendly r semanticModel allMetrics self st =
    Ok (Some (formula o), st).

(** *** Example inputs *)

Definition simple_metric (n m : str) (f : option str) : Metric :=
  {| metric_name := n; metric_description := None; metric_label := None;
     metric_type := "simple";
     metric_type_params :=
       Some {| tp_measure := Some m; tp_expr := None; tp_metrics := None;
               tp_numerator := None; tp_denominator := None |};
     metric_filter := f |}.

Definition derived_metric (n e : str) (refs : list MetricRef) : Metric :=
  {| metric_name := n; metric_description := None; metric_label := None;
     metric_type := "derived";
     metric_type_params :=
       Some {| tp_measure := None; tp_expr := Some e; tp_metrics := Some refs;
               tp_numerator := None; tp_denominator := None |};
     metric_filter := None |}.

(** The model [orders]: a sum, a count and a median over its rows. *)
Definition orders : SemanticModel :=
  {| model_name := "orders";
     model_measures :=
       Some [ {| measure_name := "order_total"; measure_agg := "sum";
                 measure_expr := Some ("amount" : str) |};
              {| measure_name := "order_count"; measure_agg := "count";
                 measure_expr := Some ("1" : str) |};
              {| measure_name := "median_amount"; measure_agg := "median";
                 measure_expr := Some ("amount" : str) |} ];
     model_entities := Some [ {| entity_name := "order" |} ] |}.

Definition food_filter : str := "{{ Dimension('order__is_food_order') }} = True".
Definition amount_filter : str := "{{ Dimension('order__amount') }} >= 50".

Definition revenue : Metric := simple_metric "revenue" "order_total" None.
Definition food_revenue : Metric :=
  simple_metric "food_revenue" "order_total" (Some food_filter).
Definition food_median : Metric :=
  simple_metric "food_median" "median_amount" (Some food_filter).

(** The measure [shipping_cost] belongs to another model. *)
Definition shipping : Metric := simple_metric "shipping" "shipping_cost" None.

(** A metric named like its measure, which another model declares. *)
Definition tax : Metric := simple_metric "tax" "tax" None.

(** A derived metric that refers to itself. *)
Definition growth : Metric :=
  derived_metric "growth" "growth + 1" [RefObj "growth" None None].

Definition big_revenue_ref : MetricRef := RefObj "revenue" None (Some amount_filter).

Definition catalog : list Metric := [revenue; food_revenue; food_median].

(** The state after the pass over the simple metrics of [catalog]. *)
Definition state_after_simple : State :=
  match process_metrics false 2 orders catalog
          {| out_metrics := []; crossModelMetrics := [] |} catalog initial_state with
  | Ok (_, st) => st
  | StackOverflow => initial_state
  end.

(** Metrics named like the measure [order_total] of [orders], without
    and with a filter of their own, and a filter-bearing reference to that
    name. *)
Definition order_total_metric : Metric :=
  simple_metric "order_total" "order_total" None.
Definition food_order_total_metric : Metric :=
  simple_metric "order_total" "order_total" (Some food_filter).
Definition big_order_total_ref : MetricRef :=
  RefObj "order_total" None (Some amount_filter).

(** The state after the conversion of [metric], the only metric of the
    catalog. *)
Definition state_after (metric : Metric) : State :=
  match convertMetricToSigma false 1 orders [metric] metric initial_state with
  | Ok (_, st) => st
  | StackOverflow => initial_state
  end.

(** The objects the simple pass stores for the metrics of [catalog]. *)
Definition cached_revenue : FormulaObject :=
  {| formula := "sum([amount])"; aggFunc := Str "sum";
     measureExpr := Str "amount"; existingFilter := Null |}.

Definition cached_food_revenue : FormulaObject :=
  {| formula := "sumif([amount],[is_food_order] = True)"; aggFunc := Str "sumif";
     measureExpr := Str "amount"; existingFilter := Str "[is_food_order] = True" |}.


End Metrics.

(** ** Notions for the effects of the metric resolver *)

Module MetricsEffects.
Import Expr Metrics.

(** The state [st'] comes after [st]: every name memoized as a property
    of the memo is still memoized, a prototype that was set is still set,
    and the warnings of [st] are the first warnings of [st']. *)
Definition extends (st st' : State) : Prop :=
  (∀ n, is_Some (convertedMetrics st !! n) → is_Some (convertedMetrics st' !! n)) ∧
  (is_Some (prototype st) → is_Some (prototype st')) ∧
  ∃ ws, warnings st' = warnings st ++ ws.

(** A computation that only adds to the state. *)
Definition grows {A} (m : M A) : Prop :=
  ∀ st a st', m st = Ok (a, st') → extends st st'.

(** A formula object whose formula is the one that
    [rebuildFilteredFormula] gives for its parts. *)
Definition rebuilt (o : FormulaObject) : Prop :=
  formula o = rebuildFilteredFormula (aggFunc o) (measureExpr o) (existingFilter o).

(** A name as the pattern for bare words matches it. *)
Definition is_identifier (n : str) : bool :=
  match n with
  | [] => false
  | c :: n' => isIdentStart c && forallb isWord n'
  end.

(** The metrics that the three passes of [process_source_metrics] visit,
    in the order of the visits. *)
Definition visited (sourceMetrics : list Metric) : list Metric :=
  of_type "simple" sourceMetrics ++ of_type "derived" sourceMetrics
    ++ of_type "ratio" sourceMetrics.

(** An entry of the output: it has a formula, and it carries the name of
    a metric of [metrics] that can be added to the model. *)
Definition converted_from (userFriendly : bool) (semanticModel : SemanticModel)
    (allMetrics metrics : list Metric) (s : SigmaMetric) : Prop :=
  truthy (sigma_formula s) = true ∧
  ∃ metric, metric ∈ metrics ∧
            canAddMetricToModel userFriendly metric semanticModel allMetrics = true ∧
            sigma_id s = metric_name metric ∧ sigma_name s = metric_name metric.

(** The formula object of a measure under the filter of a simple
    metric, and the reference that [convertMetricToSigma] makes up for the
    measure of a simple metric. *)
Definition measure_object (userFriendly : bool) (semanticModel : SemanticModel)
    (measure : Measure) (filter : option str) : FormulaObject :=
  match filter with
  | Some ((_ :: _) as filterStr) =>
      buildMeasureFormulaWithFilter userFriendly measure filterStr
        (model_name semanticModel)
  | _ => buildMeasureFormula userFriendly measure
  end.

Definition measure_reference (name : str) (filter : option str) : MetricRef :=
  RefObj name None (if truthy filter then filter else None).

(** A derived metric over two metrics of [catalog]. *)
Definition revenue_share : Metric :=
  derived_metric "revenue_share" "food_revenue / revenue"
    [RefObj "food_revenue" None None; RefObj "revenue" None None].

End MetricsEffects.
(** * Facts about the dependency graph and the layerer *)

Module DagFacts.
Import Dag.

Section map_facts.
Context {V : Type}.
Implicit Types (m : JsMap.t V) (k : string) (v : V).

Lemma get_Some_elem m k v : JsMap.get k m = Some v → (k, v) ∈ m.
Proof.
  induction m as [|[k' v'] m IH]; simpl; [done|].
  case_decide as Hk.
  - intros [= ->]. subst. left.
  - intros H. right. by apply IH.
Qed.

Lemma get_of_key m k : k ∈ JsMap.keys m → is_Some (JsMap.get k m).
Proof.
  unfold JsMap.keys. induction m as [|[k' v'] m IH]; simpl.
  - by intros ?%elem_of_nil.
  - case_decide as Hk; [by eauto|].
    intros [?|?]%elem_of_cons; [congruence|by apply IH].
Qed.

Lemma get_key m k v : JsMap.get k m = Some v → k ∈ JsMap.keys m.
Proof.
  intros H%get_Some_elem. unfold JsMap.keys.
  apply list_elem_of_fmap. by exists (k, v).
Qed.

Lemma get_elem_wf m k v : JsMap.wf m → (k, v) ∈ m → JsMap.get k m = Some v.
Proof.
  unfold JsMap.wf, JsMap.keys.
  induction m as [|[k' v'] m IH]; simpl.
  - by intros _ ?%elem_of_nil.
  - intros [Hk' Hnd]%NoDup_cons [[= -> ->]|Hin]%elem_of_cons.
    + by rewrite decide_True.
    + rewrite decide_False; [by apply IH|].
      intros ->. apply Hk'. apply list_elem_of_fmap. by exists (k, v).
Qed.
End map_facts.


Lemma lm_name_entry_model l : map lm_name (map entry_model l) = l.*1.
Proof. induction l as [|[??] l IH]; simpl; [done|]. by rewrite IH. Qed.

Lemma layer1_step_eq acc e :
  layer1_step acc e =
    if decide (no_deps e) then (acc.1 ++ [entry_model e], acc.2 ∪ {[ e.1 ]}) else acc.
Proof.
  unfold layer1_step.
  destruct (decide (no_deps e)) as [H|H]; unfold no_deps in H.
  - rewrite decide_True; [done|by rewrite H].
  - rewrite decide_False; [done|].
    intros Hl. apply H. by destruct (dependsOn e.2).
Qed.

Lemma round_step_eq previous P acc e :
  (e.1 ∈ acc.2 ↔ e.1 ∈ P) →
  round_step previous acc e =
    if decide (is_ready previous P e)
    then (acc.1 ++ [entry_model e], acc.2 ∪ {[ e.1 ]}) else acc.
Proof.
  intros HP. unfold round_step.
  destruct (decide (is_ready previous P e)) as [[H1 H2]|H].
  - rewrite decide_False by tauto.
    by destruct (allDependenciesResolved previous e.2).
  - destruct (decide (e.1 ∈ acc.2)) as [|Hn]; [done|].
    destruct (allDependenciesResolved previous e.2) eqn:Hr; [|done].
    exfalso. apply H. split; [tauto|]. by rewrite Hr.
Qed.

Lemma layer1_fold l acc :
  fold_left layer1_step l acc =
    (acc.1 ++ map entry_model (root_list l),
     acc.2 ∪ list_to_set (root_list l).*1).
Proof.
  unfold root_list.
  revert acc. induction l as [|e l IH]; intros [c P]; simpl.
  - rewrite app_nil_r. f_equal. set_solver.
  - rewrite IH, filter_cons, layer1_step_eq.
    destruct (decide (no_deps e)); simpl; [|done].
    rewrite <- app_assoc. simpl. f_equal. set_solver.
Qed.

Lemma round_fold previous P l acc :
  NoDup l.*1 →
  (∀ k, k ∈ l.*1 → k ∈ acc.2 ↔ k ∈ P) →
  fold_left (round_step previous) l acc =
    (acc.1 ++ map entry_model (ready_list previous P l),
     acc.2 ∪ list_to_set (ready_list previous P l).*1).
Proof.
  unfold ready_list.
  revert acc. induction l as [|e l IH]; intros [c Q]; simpl.
  - intros _ _. rewrite app_nil_r. f_equal. set_solver.
  - intros [He Hnd]%NoDup_cons Hagree.
    rewrite (round_step_eq previous P) by (apply Hagree; left).
    rewrite filter_cons.
    destruct (decide (is_ready previous P e)); simpl.
    + rewrite IH; [|done|].
      * simpl. rewrite <- app_assoc. simpl. f_equal. set_solver.
      * simpl. intros k Hk.
        assert (k ≠ e.1) by (intros ->; done).
        rewrite <- (Hagree k) by (by right). set_solver.
    + apply IH; [done|]. intros k Hk. apply Hagree. by right.
Qed.

Lemma fallback_fold (deps : JsMap.t DepInfo) l acc :
  (∀ k, k ∈ l → k ∈ JsMap.keys deps) →
  ∃ ms, map lm_name ms = l ∧
    fold_left (fallback_step deps) l acc = (acc.1 ++ ms, acc.2 ∪ list_to_set l).
Proof.
  revert acc. induction l as [|k l IH]; intros [c Q] Hk; simpl.
  - exists []. rewrite app_nil_r. split; [done|]. f_equal. set_solver.
  - destruct (get_of_key deps k) as [d Hd]; [apply Hk; left|].
    unfold fallback_step at 2. rewrite Hd. simpl.
    destruct (IH (c ++ [mkLayerModel k d], Q ∪ {[k]})) as (ms & Hms & ->).
    { intros k' ?. apply Hk. by right. }
    exists (mkLayerModel k d :: ms). simpl. split; [by rewrite Hms|].
    rewrite <- app_assoc. f_equal. set_solver.
Qed.


Lemma numbered_snoc lo ls l :
  numbered lo ls (layer l) → numbered lo (ls ++ [l]) (S (layer l)).
Proof.
  revert lo. induction ls as [|l' ls IH]; intros lo; simpl.
  - lia.
  - intros [??]. split; [done|]. by apply IH.
Qed.

Lemma numbered_weaken lo ls hi hi' :
  (hi ≤ hi')%nat → numbered lo ls hi → numbered lo ls hi'.
Proof.
  intros Hle. revert lo. induction ls as [|l' ls IH]; intros lo; simpl.
  - lia.
  - intros [??]. split; [done|]. by apply IH.
Qed.

Lemma numbered_le lo ls hi : numbered lo ls hi → (lo ≤ hi)%nat.
Proof.
  revert lo. induction ls as [|l' ls IH]; intros lo; simpl; [done|].
  intros [? ?%IH]. lia.
Qed.

Lemma numbered_bounds lo ls hi l :
  numbered lo ls hi → l ∈ ls → (lo ≤ layer l < hi)%nat.
Proof.
  revert lo. induction ls as [|l' ls IH]; intros lo; simpl.
  - by intros _ ?%elem_of_nil.
  - intros [Hlo Hn] [->|Hin]%elem_of_cons.
    + apply numbered_le in Hn. lia.
    + specialize (IH _ Hn Hin). lia.
Qed.

Lemma placed_snoc ls l : placed (ls ++ [l]) = placed ls ++ layer_names l.
Proof. unfold placed. rewrite map_app, concat_app. simpl. by rewrite app_nil_r. Qed.

Lemma layer_of_Some ls m i :
  layer_of ls m = Some i → ∃ l, l ∈ ls ∧ layer l = i ∧ m ∈ layer_names l.
Proof.
  induction ls as [|l ls IH]; simpl; [done|].
  case_decide.
  - intros [= <-]. exists l. split; [left|done].
  - intros (l' & ? & ? & ?)%IH. exists l'. split; [by right|done].
Qed.

Lemma layer_of_placed ls m : m ∈ placed ls → is_Some (layer_of ls m).
Proof.
  induction ls as [|l ls IH]; simpl.
  - by intros ?%elem_of_nil.
  - unfold placed at 1. simpl. intros [?|?]%elem_of_app; case_decide; eauto; done.
Qed.

(** *** Walks and cycles *)

Lemma chain_app_r deps w1 w2 : chain deps (w1 ++ w2) → chain deps w2.
Proof.
  induction w1 as [|x w1 IH]; simpl; [done|].
  destruct (w1 ++ w2) eqn:E; [|by intros [_ ?]; apply IH].
  apply app_eq_nil in E as [-> ->]. done.
Qed.

Lemma chain_walk deps x l y : chain deps (x :: l ++ y :: []) → walk deps x l y.
Proof.
  revert x. induction l as [|z l IH]; intros x; simpl.
  - tauto.
  - intros [? ?]. split; [done|]. by apply IH.
Qed.

Lemma chain_prefix_walk deps x l y rest :
  chain deps (x :: l ++ y :: rest) → walk deps x l y.
Proof.
  revert x. induction l as [|z l IH]; intros x; simpl.
  - tauto.
  - intros [? ?]. split; [done|]. by apply IH.
Qed.

(** A nonempty set of models each of which depends on a member of the set
    contains a cycle. *)
Lemma chain_extend deps (U : list string) :
  (∀ u, u ∈ U → ∃ v, v ∈ U ∧ edge deps u v) →
  ∀ n u, u ∈ U →
    ∃ w, length w = n ∧ chain deps (u :: w) ∧ ∀ x, x ∈ u :: w → x ∈ U.
Proof.
  intros Hsucc n. induction n as [|n IH]; intros u Hu.
  - exists []. split_and!; [done..|]. by intros x ->%list_elem_of_singleton.
  - destruct (Hsucc u Hu) as (v & Hv & Huv).
    destruct (IH v Hv) as (w & Hlen & Hch & Hin).
    exists (v :: w). split_and!; [by simpl; rewrite Hlen|by simpl|].
    intros x [->|?]%elem_of_cons; [done|by apply Hin].
Qed.

Lemma no_sink_cycle deps (U : list string) :
  U ≠ [] →
  (∀ u, u ∈ U → ∃ v, v ∈ U ∧ edge deps u v) →
  ∃ c, is_cycle deps c.
Proof.
  intros HU Hsucc. destruct U as [|u0 U']; [done|]. clear HU.
  destruct (chain_extend deps (u0 :: U') Hsucc (length (u0 :: U')) u0)
    as (w & Hlen & Hch & Hin); [left|].
  assert (¬ NoDup (u0 :: w)) as Hdup.
  { intros Hnd. apply (NoDup_submseteq _ (u0 :: U')) in Hnd; [|done].
    apply submseteq_length in Hnd. simpl in *. lia. }
  assert (decidable_eq string) as Hdec.
  { intros x y. destruct (decide (x = y)); [by left|by right]. }
  rewrite NoDup_ListNoDup in Hdup.
  destruct (not_NoDup Hdec Hdup) as (a & l1 & l2 & l3 & Heq).
  exists (a :: l2). simpl. rewrite Heq in Hch.
  apply chain_app_r in Hch. by apply chain_prefix_walk in Hch.
Qed.

Lemma not_all_resolved previous info :
  ¬ allDependenciesResolved previous info →
  ∃ d, d ∈ dependsOn info ∧ d ∉ previous.
Proof.
  unfold allDependenciesResolved.
  induction (dependsOn info) as [|d ds IH]; simpl; [done|].
  destruct (decide (d ∈ previous)) as [Hd|Hd].
  - rewrite bool_decide_true by done. simpl.
    intros (d' & ? & ?)%IH. exists d'. split; [by right|done].
  - intros _. exists d. split; [left|done].
Qed.

Lemma all_resolved previous info d :
  allDependenciesResolved previous info → d ∈ dependsOn info → d ∈ previous.
Proof.
  unfold allDependenciesResolved. rewrite forallb_True, Forall_forall.
  intros H Hd. specialize (H d Hd). by apply bool_decide_unpack in H.
Qed.

Lemma layered_snoc deps before ls l :
  layered deps before ls →
  (∀ m d, m ∈ layer_names l → edge deps m d → d ∈ before ++ placed ls) →
  layered deps before (ls ++ [l]).
Proof.
  revert before. induction ls as [|l' ls IH]; intros before; simpl.
  - intros _ H. split; [|done]. intros m d Hm He.
    specialize (H m d Hm He). unfold placed in H. simpl in H.
    by rewrite app_nil_r in H.
  - intros [H1 H2] H. split; [done|]. apply IH; [done|].
    intros m d Hm He. specialize (H m d Hm He).
    unfold placed in *. simpl in H. by rewrite app_assoc in H.
Qed.

Lemma layered_order deps before ls lo hi m d :
  layered deps before ls → numbered lo ls hi →
  m ∈ placed ls → edge deps m d →
  d ∈ before ∨
  ∃ i j, layer_of ls m = Some i ∧ layer_of ls d = Some j ∧ (j < i)%nat.
Proof.
  revert before lo. induction ls as [|l ls IH]; intros before lo; simpl.
  - by intros _ _ ?%elem_of_nil.
  - intros [Hl Hls] [Hlo Hnum] Hm He.
    destruct (decide (m ∈ layer_names l)) as [Hml|Hml].
    { left. by apply (Hl m d). }
    unfold placed in Hm. simpl in Hm.
    apply elem_of_app in Hm as [?|Hm]; [done|].
    assert (∃ i, layer_of ls m = Some i ∧ (layer l < i)%nat) as (i & Hi & Hlt).
    { destruct (layer_of_placed ls m Hm) as [i Hi]. exists i. split; [done|].
      apply layer_of_Some in Hi as (l' & Hl' & <- & _).
      pose proof (numbered_bounds _ _ _ _ Hnum Hl'). lia. }
    destruct (decide (d ∈ layer_names l)) as [Hdl|Hdl].
    { right. exists i, (layer l). done. }
    destruct (IH _ _ Hls Hnum Hm He) as [Hd|(i' & j & Hi' & Hj & Hji)].
    + apply elem_of_app in Hd as [?|?]; [by left|done].
    + right. exists i', j. done.
Qed.

Lemma layer_count_zero ls m : m ∉ placed ls → layer_count ls m = 0.
Proof.
  unfold layer_count. induction ls as [|l ls IH]; [done|].
  unfold placed. simpl. rewrite not_elem_of_app. intros [H1 H2].
  rewrite filter_cons, decide_False by done. by apply IH.
Qed.

Lemma layer_count_one ls m :
  NoDup (placed ls) → m ∈ placed ls → layer_count ls m = 1.
Proof.
  unfold layer_count. induction ls as [|l ls IH].
  - by intros _ ?%elem_of_nil.
  - unfold placed. simpl. intros (Hnd1 & Hdisj & Hnd2)%NoDup_app Hm.
    rewrite filter_cons. destruct (decide (m ∈ layer_names l)) as [Hl|Hl].
    + simpl. f_equal. apply layer_count_zero. by apply Hdisj.
    + apply elem_of_app in Hm as [?|Hm]; [done|]. by apply IH.
Qed.

Section sorter.
Variable deps : JsMap.t DepInfo.
Hypothesis deps_wf : JsMap.wf deps.

Lemma Inv_push st ms P' ws :
  Inv deps st →
  NoDup (map lm_name ms) →
  (∀ m, m ∈ map lm_name ms → m ∈ JsMap.keys deps ∧ m ∉ placed (layers st)) →
  P' = processed st ∪ list_to_set (map lm_name ms) →
  Inv deps (push_layer st ms P' ws).
Proof.
  intros [HP Hprev Hnd Hk Hnum] Hms Hfresh ->.
  split; simpl; rewrite ?placed_snoc; unfold layer_names; simpl.
  - rewrite list_to_set_app_L. by rewrite HP.
  - rewrite list_to_set_app_L. by rewrite Hprev.
  - apply NoDup_app. split_and!; [done| |done].
    intros m Hm Hm'. by apply (Hfresh m).
  - intros m [?|?]%elem_of_app; [by apply Hk|by apply Hfresh].
  - by apply (numbered_snoc 1 (layers st)
       {| layer := currentLayer st; models := ms; description := _ |}).
Qed.

Lemma Inv_size st : Inv deps st → size (processed st) = length (placed (layers st)).
Proof. intros [-> _ Hnd _ _]. by apply size_list_to_set. Qed.

Lemma remaining_nonempty st :
  Inv deps st → (size (processed st) < JsMap.size deps)%nat → remaining_of deps st ≠ [].
Proof.
  intros HI Hlt Hnil.
  assert (list_to_set (JsMap.keys deps) ⊆ processed st) as Hsub.
  { intros k Hk%elem_of_list_to_set.
    destruct (decide (k ∈ processed st)) as [|Hn]; [done|].
    assert (k ∈ remaining_of deps st) as Hin by (by apply list_elem_of_filter).
    rewrite Hnil in Hin. by apply elem_of_nil in Hin. }
  apply subseteq_size in Hsub.
  rewrite size_list_to_set in Hsub by done.
  unfold JsMap.size, JsMap.keys in *. rewrite length_fmap in Hsub. lia.
Qed.

(** What one round does: the models that are ready form the next layer;
    when there is none, all the remaining models form it. *)
Lemma round_body_spec st :
  Inv deps st → (size (processed st) < JsMap.size deps)%nat →
  (ready_of deps st ≠ [] ∧
     round_body deps st =
       Continue (push_layer st (map entry_model (ready_of deps st))
                   (processed st ∪ list_to_set (ready_of deps st).*1) []))
  ∨ (ready_of deps st = [] ∧ remaining_of deps st ≠ [] ∧
     ∃ ms, map lm_name ms = remaining_of deps st ∧
       round_body deps st =
         Continue (push_layer st ms
                     (processed st ∪ list_to_set (remaining_of deps st))
                     [circular_warning (remaining_of deps st)])).
Proof.
  intros HI Hlt. unfold round_body.
  pose proof (remaining_nonempty st HI Hlt) as Hrem.
  rewrite (round_fold _ (processed st)) by done.
  unfold ready_of, remaining_of in *. cbn [fst snd app].
  destruct (ready_list _ _ deps) as [|e es].
  - right. split; [done|]. split; [done|].
    cbn [map fmap list_fmap list_to_set]. rewrite (right_id_L ∅ (∪)).
    destruct (filter _ (JsMap.keys deps)) as [|k ks] eqn:Hremeq; [done|].
    destruct (fallback_fold deps (k :: ks) ([], processed st)) as (ms & Hms & ->).
    { intros k' Hk'. rewrite <- Hremeq in Hk'.
      by apply list_elem_of_filter in Hk' as [_ ?]. }
    cbn [fst snd app]. exists ms. split; [done|].
    by destruct ms.
  - left. split; [done|]. done.
Qed.


Lemma filter_keys_NoDup (P : string * DepInfo → Prop) `{!∀ e, Decision (P e)}
    (l : list (string * DepInfo)) :
  NoDup l.*1 → NoDup (filter P l).*1.
Proof.
  induction l as [|e l IH]; simpl; [done|].
  intros [He Hnd]%NoDup_cons. rewrite filter_cons.
  destruct (decide (P e)); [|by apply IH].
  simpl. apply NoDup_cons. split; [|by apply IH].
  intros ([k v] & Hk & [_ Hin]%list_elem_of_filter)%list_elem_of_fmap.
  apply He. apply list_elem_of_fmap. by exists (k, v).
Qed.

Lemma ready_fresh st :
  Inv deps st →
  NoDup (map lm_name (map entry_model (ready_of deps st))) ∧
  ∀ m, m ∈ map lm_name (map entry_model (ready_of deps st)) →
    m ∈ JsMap.keys deps ∧ m ∉ placed (layers st).
Proof.
  intros HI. rewrite lm_name_entry_model. unfold ready_of, ready_list. split.
  - by apply filter_keys_NoDup.
  - intros m ([k v] & -> & [[Hk _] Hin]%list_elem_of_filter)%list_elem_of_fmap.
    simpl in *. split.
    + apply list_elem_of_fmap. by exists (k, v).
    + rewrite (inv_processed _ _ HI) in Hk. by rewrite elem_of_list_to_set in Hk.
Qed.

Lemma remaining_fresh st :
  Inv deps st →
  NoDup (remaining_of deps st) ∧
  ∀ m, m ∈ remaining_of deps st → m ∈ JsMap.keys deps ∧ m ∉ placed (layers st).
Proof.
  intros HI. unfold remaining_of. split.
  - by apply NoDup_filter.
  - intros m [Hm Hk]%list_elem_of_filter. split; [done|].
    rewrite (inv_processed _ _ HI) in Hm. by rewrite elem_of_list_to_set in Hm.
Qed.

(** Every round keeps the invariant and places at least one model. *)
Lemma round_body_progress st :
  Inv deps st → (size (processed st) < JsMap.size deps)%nat →
  ∃ st', round_body deps st = Continue st' ∧ Inv deps st' ∧
         (size (processed st) < size (processed st'))%nat.
Proof.
  intros HI Hlt.
  destruct (round_body_spec st HI Hlt) as [[Hne ->]|(Hnil & Hne & ms & Hms & ->)];
    eexists; (split; [done|]).
  - destruct (ready_fresh st HI) as [Hnd Hfresh].
    assert (Inv deps (push_layer st (map entry_model (ready_of deps st))
              (processed st ∪ list_to_set (ready_of deps st).*1) [])) as HI'.
    { apply Inv_push; [done..|]. by rewrite lm_name_entry_model. }
    split; [done|].
    rewrite (Inv_size _ HI), (Inv_size _ HI'). simpl.
    rewrite placed_snoc, length_app. unfold layer_names. simpl.
    rewrite !length_map. destruct (ready_of deps st); [done|]. simpl. lia.
  - destruct (remaining_fresh st HI) as [Hnd Hfresh].
    assert (Inv deps (push_layer st ms
              (processed st ∪ list_to_set (remaining_of deps st))
              [circular_warning (remaining_of deps st)])) as HI'.
    { apply Inv_push; rewrite ?Hms; done. }
    split; [done|].
    rewrite (Inv_size _ HI), (Inv_size _ HI'). simpl.
    rewrite placed_snoc, length_app. unfold layer_names. simpl.
    rewrite Hms. destruct (remaining_of deps st); [done|]. simpl. lia.
Qed.

Lemma Inv_complete st :
  Inv deps st → ¬ (size (processed st) < JsMap.size deps)%nat →
  processed st = list_to_set (JsMap.keys deps).
Proof.
  intros HI Hge. apply set_subseteq_size_eq.
  - rewrite (inv_processed _ _ HI).
    intros m Hm%elem_of_list_to_set. apply elem_of_list_to_set.
    by apply (inv_keys _ _ HI).
  - rewrite size_list_to_set by done.
    unfold JsMap.size, JsMap.keys in *. rewrite length_fmap. lia.
Qed.

(** The loop, for any property [J] that the rounds preserve. *)
Lemma sort_loop_run (J : SortState → Prop) :
  (∀ st st', Inv deps st → J st → (size (processed st) < JsMap.size deps)%nat →
             round_body deps st = Continue st' → J st') →
  ∀ fuel st, Inv deps st → J st →
    (JsMap.size deps - size (processed st) ≤ fuel)%nat →
    ∃ st', sort_loop fuel deps st = Some st' ∧ Inv deps st' ∧ J st' ∧
           processed st' = list_to_set (JsMap.keys deps).
Proof.
  intros Hstep fuel. induction fuel as [|fuel IH]; intros st HI HJ Hfuel.
  - exists st. simpl. rewrite decide_False by lia.
    split_and!; [done..|]. apply Inv_complete; [done|lia].
  - simpl. case_decide as Hlt.
    + destruct (round_body_progress st HI Hlt) as (st1 & Hrb & HI1 & Hgrow).
      rewrite Hrb. apply IH; [done| |lia]. by apply (Hstep st).
    + exists st. split_and!; [done..|]. by apply Inv_complete.
Qed.

Lemma sort_init_Inv : Inv deps (sort_init deps).
Proof.
  unfold sort_init. rewrite layer1_fold. cbn [fst snd app].
  assert (NoDup (root_list deps).*1) as Hnd by (by apply filter_keys_NoDup).
  assert (∀ m, m ∈ (root_list deps).*1 → m ∈ JsMap.keys deps) as Hk.
  { intros m ([k v] & -> & [_ Hin]%list_elem_of_filter)%list_elem_of_fmap.
    apply list_elem_of_fmap. by exists (k, v). }
  rewrite (left_id_L ∅ (∪)).
  destruct (root_list deps) as [|e es]; simpl.
  - split; simpl; try done; try apply NoDup_nil_2; lia.
  - split; simpl; unfold placed, layer_names; simpl;
      rewrite ?app_nil_r, ?lm_name_entry_model; try done; lia.
Qed.


Lemma edge_entry m d e :
  e ∈ deps → e.1 = m → edge deps m d → d ∈ dependsOn e.2.
Proof.
  destruct e as [k info]. simpl. intros Hin -> (info' & Hget & Hd).
  apply (get_elem_wf _ _ _ deps_wf) in Hin. congruence.
Qed.

(** In a closed acyclic map some model that is not placed yet has all
    its dependencies placed. *)
Lemma acyclic_progress st :
  closed deps → acyclic deps →
  Inv deps st → (size (processed st) < JsMap.size deps)%nat →
  ready_of deps st ≠ [].
Proof.
  intros Hclosed Hacyc HI Hlt Hnil.
  destruct (no_sink_cycle deps (remaining_of deps st)) as [c Hc];
    [by apply remaining_nonempty| |by apply (Hacyc c)].
  intros u [Hu Hk]%list_elem_of_filter.
  destruct (get_of_key deps u Hk) as [info Hget].
  assert (¬ is_ready (previousLayerModels st) (processed st) (u, info)) as Hnr.
  { intros Hr.
    assert ((u, info) ∈ ready_of deps st) as Hin.
    { apply list_elem_of_filter. split; [done|]. by apply get_Some_elem. }
    rewrite Hnil in Hin. by apply elem_of_nil in Hin. }
  assert (¬ allDependenciesResolved (previousLayerModels st) info) as Hres.
  { intros ?. apply Hnr. by split. }
  apply not_all_resolved in Hres as (d & Hd & Hdp).
  assert (edge deps u d) as He by (by exists info).
  exists d. split; [|done].
  apply list_elem_of_filter. split.
  - by rewrite (inv_processed _ _ HI), <- (inv_previous _ _ HI).
  - by apply (Hclosed u).
Qed.

Lemma well_layered_init : well_layered deps (sort_init deps).
Proof.
  unfold well_layered, sort_init. rewrite layer1_fold. cbn [fst snd app].
  split; [|done]. simpl.
  destruct (map entry_model (root_list deps)) as [|x xs] eqn:E; [done|].
  rewrite <- E. simpl. split; [|done].
  unfold layer_names. simpl. rewrite lm_name_entry_model.
  intros m d ([k info] & -> & [Hroot Hin]%list_elem_of_filter)%list_elem_of_fmap He.
  apply (edge_entry _ _ _ Hin eq_refl) in He.
  unfold no_deps in Hroot. rewrite Hroot in He. by apply elem_of_nil in He.
Qed.

Lemma well_layered_step st st' :
  closed deps → acyclic deps →
  Inv deps st → well_layered deps st → (size (processed st) < JsMap.size deps)%nat →
  round_body deps st = Continue st' → well_layered deps st'.
Proof.
  intros Hclosed Hacyc HI [Hlay Hw] Hlt Hrb.
  destruct (round_body_spec st HI Hlt) as [[Hne Heq]|[Hnil _]];
    [|by apply acyclic_progress in Hnil].
  rewrite Heq in Hrb. injection Hrb as <-.
  split; simpl; [|by rewrite Hw].
  apply layered_snoc; [done|]. unfold layer_names. simpl.
  rewrite lm_name_entry_model.
  intros m d ([k info] & -> & [[_ Hres] Hin]%list_elem_of_filter)%list_elem_of_fmap He.
  apply (edge_entry _ _ _ Hin eq_refl) in He. simpl in *.
  apply (all_resolved _ _ d Hres) in He.
  by rewrite (inv_previous _ _ HI), elem_of_list_to_set in He.
Qed.

(** The layerer returns for every map, and the layers hold every model
    exactly once. *)
Lemma sort_run (J : SortState → Prop) :
  J (sort_init deps) →
  (∀ st st', Inv deps st → J st → (size (processed st) < JsMap.size deps)%nat →
             round_body deps st = Continue st' → J st') →
  ∃ st, sort_loop (JsMap.size deps) deps (sort_init deps) = Some st ∧
        sort deps = Some (layers st, warnings st) ∧
        Inv deps st ∧ J st ∧ placed (layers st) ≡ₚ JsMap.keys deps.
Proof.
  intros Hinit Hstep.
  destruct (sort_loop_run J Hstep (JsMap.size deps) (sort_init deps))
    as (st & Hrun & HI & HJ & Hall); [apply sort_init_Inv|done|lia|].
  exists st. split_and!; [done| |done..|].
  - unfold sort, sort_fuel. by rewrite Hrun.
  - apply NoDup_Permutation; [by apply (inv_nodup _ _ HI)|done|].
    intros m. rewrite <- !(elem_of_list_to_set (C:=gset string)).
    by rewrite <- Hall, (inv_processed _ _ HI).
Qed.

End sorter.

(** C1 (amended). For every acyclic dependency map in which every name of
    a [dependsOn] list is itself a model of the map, [sort] returns, every
    model is in exactly one layer, and the layer number of a model is
    strictly greater than the layer number of every model it depends on. *)
Theorem sort_layers_acyclic (deps : JsMap.t DepInfo) :
  JsMap.wf deps → closed deps → acyclic deps → layering_claim deps.
Proof.
  intros Hwf Hclosed Hacyc.
  destruct (sort_run deps Hwf (well_layered deps))
    as (st & _ & Hsort & HI & [Hlay Hw] & Hperm).
  - by apply well_layered_init.
  - intros st st'. by apply well_layered_step.
  - exists (layers st), (warnings st). split_and!; [done| |].
    + intros m Hm. apply layer_count_one; [by apply (inv_nodup _ _ HI)|].
      by rewrite Hperm.
    + intros m d He _.
      assert (m ∈ placed (layers st)) as Hm.
      { rewrite Hperm. destruct He as (info & Hget & _). by apply get_key in Hget. }
      destruct (layered_order deps [] (layers st) 1 (currentLayer st) m d)
        as [Hd|?]; [done|by apply (inv_numbered _ _ HI)|done..| |done].
      by apply elem_of_nil in Hd.
Qed.

Lemma nonempty_elem {A} (l : list A) : l ≠ [] → ∃ x, x ∈ l.
Proof. destruct l as [|x l]; [done|]. intros _. exists x. left. Qed.

Lemma walk_succ deps x l y s :
  walk deps x l y → s ∈ x :: l → ∃ s', s' ∈ l ++ [y] ∧ edge deps s s'.
Proof.
  revert x. induction l as [|z l IH]; intros x; simpl.
  - intros He ->%list_elem_of_singleton. exists y. split; [left|done].
  - intros [He Hw] [->|Hs]%elem_of_cons.
    + exists z. split; [left|done].
    + destruct (IH z Hw Hs) as (s' & ? & ?). exists s'. split; [by right|done].
Qed.

(** Every member of a cycle depends on a member of the cycle. *)
Lemma cycle_succ deps c s :
  is_cycle deps c → s ∈ c → ∃ s', s' ∈ c ∧ edge deps s s'.
Proof.
  destruct c as [|x l]; [done|]. simpl. intros Hw Hs.
  destruct (walk_succ deps x l x s Hw Hs) as (s' & Hs' & He).
  exists s'. split; [|done].
  apply elem_of_app in Hs' as [?|Hs']; [by right|].
  apply list_elem_of_singleton in Hs' as ->. left.
Qed.

Section cycles.
Variable deps : JsMap.t DepInfo.
Hypothesis deps_wf : JsMap.wf deps.
Variable S : list string.
Hypothesis S_succ : ∀ s, s ∈ S → ∃ s', s' ∈ S ∧ edge deps s s'.

Lemma S_keys s : s ∈ S → s ∈ JsMap.keys deps.
Proof.
  intros (s' & _ & info & Hget & _)%S_succ. by apply get_key in Hget.
Qed.

Lemma cycle_pending_init : cycle_pending deps S (sort_init deps).
Proof.
  left. split; [done|]. intros s Hs.
  unfold sort_init. rewrite layer1_fold. cbn [fst snd processed].
  rewrite (left_id_L ∅ (∪)), elem_of_list_to_set.
  intros ([k info] & -> & [Hroot Hin]%list_elem_of_filter)%list_elem_of_fmap.
  destruct (S_succ _ Hs) as (s' & _ & He).
  apply (edge_entry deps deps_wf _ _ _ Hin eq_refl) in He.
  unfold no_deps in Hroot. rewrite Hroot in He. by apply elem_of_nil in He.
Qed.

Lemma cycle_pending_step st st' :
  Inv deps st → cycle_pending deps S st →
  (size (processed st) < JsMap.size deps)%nat →
  round_body deps st = Continue st' → cycle_pending deps S st'.
Proof.
  intros HI [[Hw Hnot]|(init & last & _ & _ & _ & Hall)] Hlt Hrb.
  2:{ rewrite Hall, size_list_to_set in Hlt by done.
      unfold JsMap.size, JsMap.keys in Hlt. rewrite length_fmap in Hlt. lia. }
  destruct (round_body_spec deps deps_wf st HI Hlt)
    as [[Hne Heq]|(Hnil & Hne & ms & Hms & Heq)];
    rewrite Heq in Hrb; injection Hrb as <-.
  - left. simpl. split; [by rewrite Hw|].
    intros s Hs [?|Hin]%elem_of_union; [by apply (Hnot s)|].
    apply elem_of_list_to_set in Hin.
    apply list_elem_of_fmap in Hin
      as ([k info] & -> & [[_ Hres] Hin]%list_elem_of_filter).
    destruct (S_succ _ Hs) as (s' & Hs' & He).
    apply (edge_entry deps deps_wf _ _ _ Hin eq_refl) in He. simpl in *.
    apply (all_resolved _ _ s' Hres) in He.
    apply (Hnot s' Hs').
    by rewrite (inv_processed _ _ HI), <- (inv_previous _ _ HI).
  - right. eexists (layers st), _. split; [done|].
    unfold layer_names. simpl. rewrite Hms. split_and!.
    + intros s Hs. apply list_elem_of_filter. split; [by apply Hnot|by apply S_keys].
    + by rewrite Hw.
    + apply set_eq. intros k.
      rewrite elem_of_union, !elem_of_list_to_set. unfold remaining_of.
      rewrite list_elem_of_filter. split.
      * intros [Hk|[_ ?]]; [|done]. apply (inv_keys _ _ HI).
        by rewrite (inv_processed _ _ HI), elem_of_list_to_set in Hk.
      * intros Hk. destruct (decide (k ∈ processed st)); [by left|by right].
Qed.

Lemma sort_places_together : S ≠ [] → cycle_claim deps S.
Proof.
  intros Hne.
  destruct (sort_run deps deps_wf (cycle_pending deps S) cycle_pending_init)
    as (st & Hrun & Hsort & HI & HJ & Hperm).
  { intros st st'. apply cycle_pending_step. }
  exists (layers st), (warnings st). split; [done|].
  destruct HJ as [[_ Hnot]|(init & last & Hl & Hin & Hw & _)].
  - destruct (nonempty_elem S Hne) as [s Hs]. exfalso. apply (Hnot s Hs).
    rewrite (inv_processed _ _ HI), elem_of_list_to_set, Hperm.
    by apply S_keys.
  - exists init, last. split_and!; [done| |done].
    intros s Hs. split; [by apply Hin|].
    apply layer_count_one; [by apply (inv_nodup _ _ HI)|].
    rewrite Hperm. by apply S_keys.
Qed.
End cycles.

(** C2. For every dependency map with a cycle among the models [c], [sort]
    returns (the loop ends within as many rounds as there are models), all
    the members of [c] are together in one layer, that layer is the last
    one, and the only effect besides is one warning that names the models
    of that layer. *)
Theorem sort_cycle_last_layer (deps : JsMap.t DepInfo) (c : list string) :
  JsMap.wf deps → is_cycle deps c → cycle_claim deps c.
Proof.
  intros Hwf Hc. apply sort_places_together; [done| |by destruct c].
  intros s Hs. by apply (cycle_succ deps c).
Qed.

(** *** Fuel *)

Lemma sort_loop_more_fuel deps fuel fuel' st st' :
  (fuel ≤ fuel')%nat →
  sort_loop fuel deps st = Some st' → sort_loop fuel' deps st = Some st'.
Proof.
  revert fuel' st. induction fuel as [|fuel IH]; intros fuel' st Hle; simpl.
  - case_decide; [done|]. intros [= <-].
    destruct fuel'; simpl; by rewrite decide_False.
  - destruct fuel' as [|fuel'']; [lia|]. simpl.
    case_decide; [|done].
    destruct (round_body deps st); [done|]. apply IH. lia.
Qed.

(** More rounds than there are models change nothing. *)
Lemma sort_fuel_enough deps fuel :
  JsMap.wf deps → (JsMap.size deps ≤ fuel)%nat → sort_fuel fuel deps = sort deps.
Proof.
  intros Hwf Hle.
  destruct (sort_run deps Hwf (fun _ => True) I) as (st & Hrun & Hsort & _);
    [done|].
  rewrite Hsort. unfold sort_fuel.
  by rewrite (sort_loop_more_fuel _ _ _ _ _ Hle Hrun).
Qed.

(** *** The example corpora *)

Lemma edge_elem deps m d :
  edge deps m d → ∃ info, (m, info) ∈ deps ∧ d ∈ dependsOn info.
Proof. intros (info & Hget%get_Some_elem & Hd). by exists info. Qed.

Ltac list_cases H :=
  repeat (apply elem_of_cons in H as [H|H]); try (by apply elem_of_nil in H).

Ltac edge_cases H :=
  let info := fresh "info" in
  let Hin := fresh "Hin" in
  let Hd := fresh "Hd" in
  apply edge_elem in H as (info & Hin & Hd);
  vm_compute in Hin; list_cases Hin; simplify_eq; simpl in Hd; list_cases Hd.

Lemma deps_dangling_edges m d :
  edge deps_dangling m d → (m = "B" ∧ d = "x") ∨ (m = "C" ∧ d = "B").
Proof. intros He. edge_cases He; subst; auto. Qed.

Lemma deps_dangling_acyclic : acyclic deps_dangling.
Proof.
  intros c Hc.
  assert ("x" ∈ c → False) as Hx.
  { intros Hin. destruct (cycle_succ _ _ _ Hc Hin) as (s' & _ & He).
    apply deps_dangling_edges in He as [[? _]|[? _]]; done. }
  assert ("B" ∈ c → False) as HB.
  { intros Hin. destruct (cycle_succ _ _ _ Hc Hin) as (s' & Hs' & He).
    apply deps_dangling_edges in He as [[_ ->]|[? _]]; [by apply Hx|done]. }
  destruct (nonempty_elem c) as [s Hs]; [by destruct c|].
  destruct (cycle_succ _ _ _ Hc Hs) as (s' & Hs' & He).
  apply deps_dangling_edges in He as [[-> _]|[_ ->]]; by apply HB.
Qed.

Lemma deps_diamond_edges m d :
  edge deps_diamond m d →
  (m = "D" ∧ (d = "B" ∨ d = "C")) ∨ ((m = "B" ∨ m = "C") ∧ d = "A").
Proof. intros He. edge_cases He; subst; auto. Qed.

Lemma deps_diamond_acyclic : acyclic deps_diamond.
Proof.
  intros c Hc.
  assert ("A" ∈ c → False) as HA.
  { intros Hin. destruct (cycle_succ _ _ _ Hc Hin) as (s' & _ & He).
    apply deps_diamond_edges in He as [[? _]|[[?|?] _]]; done. }
  assert (∀ s, s = "B" ∨ s = "C" → s ∈ c → False) as HBC.
  { intros s Hs Hin. destruct (cycle_succ _ _ _ Hc Hin) as (s' & Hs' & He).
    apply deps_diamond_edges in He as [[-> _]|[_ ->]]; [|done].
    by destruct Hs. }
  destruct (nonempty_elem c) as [s Hs]; [by destruct c|].
  destruct (cycle_succ _ _ _ Hc Hs) as (s' & Hs' & He).
  apply deps_diamond_edges in He as [[_ Hd]|[Hm ->]]; [|done].
  by apply (HBC s').
Qed.

Lemma deps_diamond_closed : closed deps_diamond.
Proof.
  intros m d He.
  apply deps_diamond_edges in He as [ [_ [-> | ->] ] | [_ ->] ]; compute_done.
Qed.

Lemma deps_cyclic_cycle : is_cycle deps_cyclic ["P"; "Q"].
Proof. split; eexists; (split; [by vm_compute|]); simpl; left. Qed.

(** *** The dependency graph builder *)

Section set_facts.
Context {V : Type}.
Implicit Types (m : JsMap.t V) (k : string) (v : V).

Lemma set_fresh m k v : k ∉ JsMap.keys m → JsMap.set k v m = m ++ [(k, v)].
Proof.
  unfold JsMap.keys. induction m as [|[k' v'] m IH]; simpl; [done|].
  intros [Hne Hk]%not_elem_of_cons.
  rewrite decide_False by done. by rewrite IH.
Qed.

Lemma set_elem m k v e : e ∈ JsMap.set k v m → e = (k, v) ∨ e ∈ m.
Proof.
  induction m as [|[k' v'] m IH]; simpl.
  - intros ->%list_elem_of_singleton. by left.
  - case_decide.
    + intros [->|?]%elem_of_cons; [by left|right; by right].
    + intros [->|[->|?]%IH]%elem_of_cons; [right; left|by left|right; by right].
Qed.

Lemma keys_set_old m k v : k ∈ JsMap.keys m → JsMap.keys (JsMap.set k v m) = JsMap.keys m.
Proof.
  unfold JsMap.keys. induction m as [|[k' v'] m IH]; simpl.
  - by intros ?%elem_of_nil.
  - case_decide as Hk; simpl; [by subst|].
    intros [?|?]%elem_of_cons; [done|]. f_equal. by apply IH.
Qed.

Lemma set_wf m k v : JsMap.wf m → JsMap.wf (JsMap.set k v m).
Proof.
  unfold JsMap.wf. intros Hwf.
  destruct (decide (k ∈ JsMap.keys m)) as [Hk|Hk].
  - by rewrite (keys_set_old m k v Hk).
  - rewrite (set_fresh m k v Hk). unfold JsMap.keys in *.
    rewrite fmap_app. simpl. apply NoDup_app. split_and!; [done| |].
    + intros x Hx ->%list_elem_of_singleton. done.
    + apply NoDup_singleton.
Qed.
End set_facts.

Lemma set_same_core (m : JsMap.t DepInfo) k v v' :
  JsMap.get k m = Some v → dep_core (k, v') = dep_core (k, v) →
  map dep_core (JsMap.set k v' m) = map dep_core m.
Proof.
  intros Hget Hcore. induction m as [|[k0 v0] m IH]; simpl in *; [done|].
  case_decide; simpl.
  - injection Hget as ->. subst k0. f_equal. exact Hcore.
  - f_equal. by apply IH.
Qed.

Lemma push_dependent_core modelName deps dependency :
  map dep_core (push_dependent modelName deps dependency) = map dep_core deps.
Proof.
  unfold push_dependent.
  destruct (JsMap.get dependency deps) as [d|] eqn:Hget; [|done].
  by apply (set_same_core _ _ d).
Qed.

Lemma push_dependents_core modelName ds deps :
  map dep_core (fold_left (push_dependent modelName) ds deps) = map dep_core deps.
Proof.
  revert deps. induction ds as [|d ds IH]; intros deps; simpl; [done|].
  by rewrite IH, push_dependent_core.
Qed.

Lemma second_pass_core (l : list (string * DepInfo)) deps :
  map dep_core
    (fold_left (fun deps e => fold_left (push_dependent e.1) (dependsOn e.2) deps) l deps)
  = map dep_core deps.
Proof.
  revert deps. induction l as [|e l IH]; intros deps; simpl; [done|].
  by rewrite IH, push_dependents_core.
Qed.

Lemma first_pass (l : JsMap.t ModelInfo) (acc : JsMap.t DepInfo) :
  NoDup (JsMap.keys acc ++ JsMap.keys l) →
  fold_left add_dependency_record l acc = acc ++ map initial_record l.
Proof.
  revert acc. induction l as [|[k mi] l IH]; intros acc; simpl.
  - intros _. by rewrite app_nil_r.
  - intros Hnd. unfold add_dependency_record at 2. simpl.
    rewrite set_fresh.
    + rewrite IH.
      * by rewrite <- app_assoc.
      * unfold JsMap.keys in *. rewrite fmap_app, <- app_assoc. done.
    + apply NoDup_app in Hnd as (_ & Hdisj & _).
      intros Hk. apply (Hdisj k Hk). left.
Qed.

Lemma buildDependencyGraph_core (models : JsMap.t ModelInfo) :
  JsMap.wf models →
  map dep_core (buildDependencyGraph models) = map dep_core (map initial_record models).
Proof.
  intros Hwf. unfold buildDependencyGraph.
  rewrite second_pass_core. by rewrite first_pass.
Qed.

(** A record of the dependency map holds the model of the same name, and
    its [dependsOn] is the list of the names of the model's foreign
    entities. *)
Lemma buildDependencyGraph_dependsOn (models : JsMap.t ModelInfo) m info :
  JsMap.wf models →
  JsMap.get m (buildDependencyGraph models) = Some info →
  (m, modelInfo info) ∈ models ∧
  dependsOn info = map fe_name (mi_foreignEntities (modelInfo info)).
Proof.
  intros Hwf Hget%get_Some_elem.
  apply (list_elem_of_fmap_2 dep_core) in Hget.
  rewrite buildDependencyGraph_core in Hget by done.
  apply list_elem_of_fmap in Hget as (e' & Heq & Hin).
  apply list_elem_of_fmap in Hin as ([k mi] & -> & Hin).
  unfold dep_core, initial_record in Heq. simpl in Heq.
  injection Heq as -> -> ->. done.
Qed.

Lemma parse_entities_foreign idx es mi :
  map fe_name (mi_foreignEntities (fold_left (parse_entity idx) es mi)) =
  map fe_name (mi_foreignEntities mi) ++
  map e_name (filter (fun e => e_type e = "foreign") es).
Proof.
  revert mi. induction es as [|e es IH]; intros mi; simpl.
  - by rewrite app_nil_r.
  - rewrite IH, filter_cons. unfold parse_entity.
    destruct (decide (e_type e = "primary")) as [Hp|Hp].
    + rewrite bool_decide_true by done. simpl.
      rewrite decide_False; [done|]. by rewrite Hp.
    + rewrite bool_decide_false by done.
      destruct (decide (e_type e = "foreign")) as [Hf|Hf].
      * rewrite bool_decide_true by done. simpl.
        rewrite map_app, <- app_assoc. simpl.
        by destruct (idx !! e_name e).
      * by rewrite bool_decide_false.
Qed.

Lemma parse_model_foreign idx fileName sm :
  map fe_name (mi_foreignEntities (parse_model idx fileName sm)) =
  foreign_entity_names sm.
Proof.
  unfold parse_model, foreign_entity_names.
  destruct (sm_entities sm) as [es|]; [|done].
  by rewrite parse_entities_foreign.
Qed.

Lemma parse_entities_name idx es mi :
  mi_name (fold_left (parse_entity idx) es mi) = mi_name mi.
Proof.
  revert mi. induction es as [|e es IH]; intros mi; simpl; [done|].
  rewrite IH. unfold parse_entity.
  by repeat (case_bool_decide; simpl).
Qed.

Lemma parse_model_name idx fileName sm :
  mi_name (parse_model idx fileName sm) = sm_name sm.
Proof.
  unfold parse_model. destruct (sm_entities sm); [|done].
  by rewrite parse_entities_name.
Qed.

Lemma analyze_infos_inv (Q : string * ModelInfo → Prop)
    (infos : list ModelInfo) (models : JsMap.t ModelInfo) :
  (∀ mi, mi ∈ infos → Q (mi_name mi, mi)) →
  JsMap.wf models ∧ Forall Q models →
  JsMap.wf (fold_left (fun m mi => JsMap.set (mi_name mi) mi m) infos models) ∧
  Forall Q (fold_left (fun m mi => JsMap.set (mi_name mi) mi m) infos models).
Proof.
  revert models. induction infos as [|mi infos IH]; intros models HQ [Hwf HF];
    simpl; [done|].
  apply IH.
  - intros mi' ?. apply HQ. by right.
  - split; [by apply set_wf|].
    apply Forall_forall. intros e [->|He]%set_elem.
    + apply HQ. left.
    + by apply (proj1 (Forall_forall _ _) HF).
Qed.

Lemma analyze_files_inv (files l : list ModelFile) (models : JsMap.t ModelInfo) :
  (∀ f, f ∈ l → f ∈ files) →
  JsMap.wf models ∧ Forall (parsed_from files) models →
  JsMap.wf (fold_left (analyze_file (buildEntityToFileMap files)) l models) ∧
  Forall (parsed_from files)
    (fold_left (analyze_file (buildEntityToFileMap files)) l models).
Proof.
  revert models. induction l as [|f l IH]; intros models Hl Hinv; simpl; [done|].
  apply IH; [intros f' ?; apply Hl; by right|].
  unfold analyze_file, parseSemanticModel.
  destruct (mf_semantic_models f) as [[|sm sms]|] eqn:Hsms; [done| |done].
  apply analyze_infos_inv; [|done].
  intros mi (sm' & -> & Hsm')%list_elem_of_fmap.
  exists f, (sm :: sms), sm'. simpl.
  split_and!; [apply Hl; left|done|done|apply parse_model_name|done].
Qed.

Lemma analyzeDirectory_inv files :
  JsMap.wf (analyzeDirectory files) ∧
  Forall (parsed_from files) (analyzeDirectory files).
Proof.
  apply analyze_files_inv; [done|]. split; [apply NoDup_nil_2|constructor].
Qed.

(** The statement of C3 fails on [corpus_orders]: the [dependsOn] list of
    [orders] holds the entity name [customer_id] twice, not the owning model
    [customers] once, and it holds [ghost], which the index does not know. *)
Lemma dependsOn_claim_counterexample :
  (∃ info,
     JsMap.get "orders" (buildDependencyGraph (analyzeDirectory corpus_orders))
       = Some info ∧
     dependsOn info = ["customer_id"; "ghost"; "customer_id"]) ∧
  buildEntityToFileMap corpus_orders !! "ghost" = None ∧
  ¬ dependsOn_claim corpus_orders.
Proof.
  split_and!.
  - eexists. split; vm_compute; reflexivity.
  - by vm_compute.
  - intros Hclaim.
    edestruct (Hclaim "orders") as [Hnd _]; [vm_compute; reflexivity|].
    simpl in Hnd. apply NoDup_cons in Hnd as [Hnot _]. apply Hnot.
    right. left.
Qed.

(** The statement of C1 fails on [deps_dangling], an acyclic map: [C]
    depends on [B], and both are placed in layer 2. *)
Lemma sort_layers_dangling_counterexample :
  JsMap.wf deps_dangling ∧ acyclic deps_dangling ∧ ¬ layering_claim deps_dangling.
Proof.
  split_and!.
  - unfold JsMap.wf. compute_done.
  - apply deps_dangling_acyclic.
  - intros (ls & ws & Hsort & _ & Horder).
    vm_compute in Hsort. injection Hsort as <- <-.
    destruct (Horder "C" "B") as (i & j & Hi & Hj & Hlt).
    + eexists. split; [vm_compute; reflexivity|]. simpl. left.
    + compute_done.
    + vm_compute in Hi, Hj. simplify_eq. lia.
Qed.

Lemma sort_layers_acyclic_witness :
  JsMap.wf deps_diamond ∧ closed deps_diamond ∧ acyclic deps_diamond ∧
  layering_claim deps_diamond.
Proof.
  assert (JsMap.wf deps_diamond) as Hwf by (unfold JsMap.wf; compute_done).
  split_and!; [done|apply deps_diamond_closed|apply deps_diamond_acyclic|].
  apply (sort_layers_acyclic deps_diamond);
    [done|apply deps_diamond_closed|apply deps_diamond_acyclic].
Defined.

Lemma sort_cycle_last_layer_witness :
  JsMap.wf deps_cyclic ∧ is_cycle deps_cyclic ["P"; "Q"] ∧
  cycle_claim deps_cyclic ["P"; "Q"].
Proof.
  assert (JsMap.wf deps_cyclic) as Hwf by (unfold JsMap.wf; compute_done).
  split_and!; [done|apply deps_cyclic_cycle|].
  apply (sort_cycle_last_layer deps_cyclic ["P"; "Q"]);
    [done|apply deps_cyclic_cycle].
Defined.

(** The layers of the three example maps. *)
Example sort_examples :
  (fun r => (map (fun l => (layer l, layer_names l)) r.1, r.2)) <$> sort deps_diamond
    = Some ([(1, ["A"]); (2, ["B"; "C"]); (3, ["D"])], []) ∧
  (fun r => (map (fun l => (layer l, layer_names l)) r.1, r.2)) <$> sort deps_cyclic
    = Some ([(1, ["R"]); (2, ["T"]); (3, ["P"; "Q"])],
            ["Warning: Circular dependencies detected for models: P, Q."]) ∧
  (fun r => (map (fun l => (layer l, layer_names l)) r.1, r.2)) <$> sort deps_dangling
    = Some ([(1, ["A"]); (2, ["B"; "C"])],
            ["Warning: Circular dependencies detected for models: B, C."]).
Proof. split_and!; vm_compute; reflexivity. Qed.

End DagFacts.

(** * Further facts about the layerer and the dependency graph builder *)

Module DagMore.
Import Dag DagFacts DagSummary.

(** ** TopologicalSorter.sort on an arbitrary map *)

Section sort_more.
Variable deps : JsMap.t DepInfo.
Hypothesis deps_wf : JsMap.wf deps.

Lemma sort_result (J : SortState → Prop) ls ws :
  J (sort_init deps) →
  (∀ st st', Inv deps st → J st → (size (processed st) < JsMap.size deps)%nat →
             round_body deps st = Continue st' → J st') →
  sort deps = Some (ls, ws) →
  ∃ st, ls = layers st ∧ ws = warnings st ∧ Inv deps st ∧ J st ∧
        placed ls ≡ₚ JsMap.keys deps.
Proof.
  intros Hinit Hstep Hsort.
  destruct (sort_run deps deps_wf J Hinit Hstep) as (st & _ & Hs & HI & HJ & Hp).
  rewrite Hs in Hsort. injection Hsort as <- <-. by exists st.
Qed.

(** The two ways in which a round goes on, with the layer it adds. *)
Lemma round_body_push st st' :
  Inv deps st → (size (processed st) < JsMap.size deps)%nat →
  round_body deps st = Continue st' →
  ∃ ms P ws, ms ≠ [] ∧ st' = push_layer st ms P ws.
Proof.
  intros HI Hlt Hrb.
  destruct (round_body_spec deps deps_wf st HI Hlt)
    as [[Hne Heq]|(Hnil & Hne & ms & Hms & Heq)];
    rewrite Heq in Hrb; injection Hrb as <-.
  - eexists _, _, _. split; [|done]. by destruct (ready_of deps st).
  - eexists ms, _, _. split; [|done]. intros ->. by rewrite <- Hms in Hne.
Qed.

(** X1. [sort] returns for every map, cyclic or not, and its layers hold
    every model of the map exactly once and nothing else. *)
Theorem sort_places_every_model :
  ∃ ls ws, sort deps = Some (ls, ws) ∧ placed ls ≡ₚ JsMap.keys deps.
Proof.
  destruct (sort_run deps deps_wf (λ _, True)) as (st & _ & Hs & _ & _ & Hp);
    [done..|].
  by exists (layers st), (warnings st).
Qed.

(** X2. No layer is empty, and the layers are numbered without gaps, from
    1 when some model has no dependencies and from 2 otherwise. *)
Theorem sort_layer_numbers ls ws :
  sort deps = Some (ls, ws) →
  Forall (λ l, models l ≠ []) ls ∧
  map layer ls = seq (if decide (root_list deps = []) then 2 else 1) (length ls).
Proof.
  set (k := if decide (root_list deps = []) then 2 else 1).
  intros Hsort.
  destruct (sort_result
              (λ st, Forall (λ l, models l ≠ []) (layers st) ∧
                     map layer (layers st) = seq k (length (layers st)) ∧
                     currentLayer st = k + length (layers st)) ls ws)
    as (st & -> & _ & _ & (Hne & Hnum & _) & _); [| |done|done].
  - unfold sort_init. rewrite layer1_fold. cbn [fst snd app layers currentLayer].
    subst k. destruct (root_list deps) as [|e es]; simpl; [done|].
    split_and!; [|done..]. by repeat constructor.
  - intros st st' HI (Hne & Hnum & Hcur) Hlt Hrb.
    destruct (round_body_push st st' HI Hlt Hrb) as (ms & P & w & Hms & ->).
    simpl. rewrite Forall_app, map_app, length_app, seq_app, <- Hnum, Hcur.
    simpl. split_and!; [done|by repeat constructor|done|lia].
Qed.

(** X3. Layer 1 holds exactly the models whose [dependsOn] is empty. *)
Theorem sort_first_layer ls ws m :
  sort deps = Some (ls, ws) →
  layer_of ls m = Some 1 ↔ ∃ info, JsMap.get m deps = Some info ∧ dependsOn info = [].
Proof.
  intros Hsort.
  destruct (sort_result
              (λ st, ∃ rest, layers st = layers (sort_init deps) ++ rest ∧
                             Forall (λ l, 2 ≤ layer l) rest ∧ 2 ≤ currentLayer st)
              ls ws)
    as (st & -> & _ & _ & (rest & -> & Hrest & _) & _); [| |done|].
  - exists []. by rewrite app_nil_r.
  - intros st st' HI (rest & Hl & Hrest & Hcur) Hlt Hrb.
    destruct (round_body_push st st' HI Hlt Hrb) as (ms & P & w & Hms & ->).
    simpl. eexists (rest ++ [_]). rewrite Hl, <- app_assoc.
    split_and!; [done| |lia].
    apply Forall_app. split; [done|]. by repeat constructor.
  - assert (layer_of rest m ≠ Some 1) as Hnot.
    { intros (l & Hl & Hone & _)%layer_of_Some.
      rewrite Forall_forall in Hrest. specialize (Hrest l Hl). lia. }
    assert (m ∈ (root_list deps).*1
            ↔ ∃ info, JsMap.get m deps = Some info ∧ dependsOn info = []) as Hroot.
    { split.
      - intros ([k info] & -> & [Hr Hin]%list_elem_of_filter)%list_elem_of_fmap.
        exists info. split; [by apply get_elem_wf|done].
      - intros (info & Hget%get_Some_elem & Hd).
        apply list_elem_of_fmap. exists (m, info). split; [done|].
        by apply list_elem_of_filter. }
    rewrite <- Hroot.
    unfold sort_init. rewrite layer1_fold. cbn [fst snd app layers].
    destruct (map entry_model (root_list deps)) as [|x xs] eqn:E.
    + apply map_eq_nil in E. rewrite E. simpl.
      split; [done|by intros ?%elem_of_nil].
    + rewrite <- E. cbn [app layer_of layer]. unfold layer_names. cbn [models].
      rewrite lm_name_entry_model. case_decide; [done|]. by split.
Qed.

(** X4. There is at most one warning; the layer it announces holds all
    the models that were left, and it is the last layer. *)
Theorem sort_warns_once ls ws :
  sort deps = Some (ls, ws) →
  ws = [] ∨
  ∃ init last, ls = init ++ [last] ∧ ws = [circular_warning (layer_names last)].
Proof.
  intros Hsort.
  destruct (sort_result (cycle_pending deps []) ls ws)
    as (st & -> & -> & _ & HJ & _); [| |done|].
  - apply cycle_pending_init; [done|]. by intros s ?%elem_of_nil.
  - intros st st'. apply cycle_pending_step; [done|]. by intros s ?%elem_of_nil.
  - destruct HJ as [[Hw _]|(init & last & Hl & _ & Hw & _)]; [by left|].
    right. by exists init, last.
Qed.

Lemma layer_names_placed ls l d : l ∈ ls → d ∈ layer_names l → d ∈ placed ls.
Proof.
  unfold placed. induction ls as [|l' ls IH]; simpl.
  - by intros ?%elem_of_nil.
  - intros [->|Hl]%elem_of_cons Hd; apply elem_of_app; [by left|right; by apply IH].
Qed.

Lemma later_trans ls a b c : later ls a b → later ls b c → later ls a c.
Proof.
  intros (i & j & Hi & Hj & ?) (j' & k & Hj' & Hk & ?).
  exists i, k. split_and!; [done..|]. simplify_eq. lia.
Qed.

Lemma walk_later ls x l y :
  (∀ m d, edge deps m d → later ls m d) → walk deps x l y → later ls x y.
Proof.
  intros He. revert x. induction l as [|z l IH]; intros x; simpl.
  - apply He.
  - intros [Hxz Hw]. eapply later_trans; [by apply He|by apply IH].
Qed.

(** A run without warning orders every edge. *)
Lemma sort_silent_later ls :
  sort deps = Some (ls, []) → ∀ m d, edge deps m d → later ls m d.
Proof.
  intros Hsort m d He.
  destruct (sort_result (λ st, warnings st = [] → layered deps [] (layers st)) ls [])
    as (st & -> & Hw & HI & HJ & Hp); [| |done|].
  - intros _. by apply well_layered_init.
  - intros st st' HI HJ Hlt Hrb.
    destruct (round_body_spec deps deps_wf st HI Hlt)
      as [[Hne Heq]|(Hnil & Hne & ms & Hms & Heq)];
      rewrite Heq in Hrb; injection Hrb as <-; simpl.
    + rewrite app_nil_r. intros Hw. apply layered_snoc; [by apply HJ|].
      unfold layer_names. simpl. rewrite lm_name_entry_model.
      intros m' d' ([k info] & -> & [[_ Hres] Hin]%list_elem_of_filter)%list_elem_of_fmap
        He'.
      apply (edge_entry deps deps_wf _ _ _ Hin eq_refl) in He'. simpl in *.
      apply (all_resolved _ _ d' Hres) in He'.
      by rewrite (inv_previous _ _ HI), elem_of_list_to_set in He'.
    + by intros [_ ?]%app_eq_nil.
  - assert (m ∈ placed (layers st)) as Hm.
    { rewrite Hp. destruct He as (info & Hget & _). by apply get_key in Hget. }
    destruct (layered_order deps [] (layers st) 1 (currentLayer st) m d)
      as [Hd|?]; [by apply HJ|by apply (inv_numbered _ _ HI)|done..| |done].
    by apply elem_of_nil in Hd.
Qed.

(** X5. [sort] gives no warning exactly when the map is acyclic and every
    name of a [dependsOn] list is a model of the map. *)
Theorem sort_silent_iff ls ws :
  sort deps = Some (ls, ws) → ws = [] ↔ closed deps ∧ acyclic deps.
Proof.
  intros Hsort. split.
  - intros ->. pose proof (sort_silent_later ls Hsort) as Hlater.
    destruct (sort_result (λ _, True) ls [] I) as (st & _ & _ & _ & _ & Hp);
      [done..|].
    split.
    + intros m d (i & j & _ & (l & Hl & _ & Hd)%layer_of_Some & _)%Hlater.
      rewrite <- Hp. by apply (layer_names_placed ls l).
    + intros [|s rest]; [by intros []|]. simpl. intros Hw.
      apply (walk_later ls) in Hw as (i & j & Hi & Hj & Hlt); [|done].
      simplify_eq. lia.
  - intros [Hclosed Hacyc].
    destruct (sort_result (well_layered deps) ls ws)
      as (st & -> & -> & _ & [_ Hw] & _); [| |done|done].
    + by apply well_layered_init.
    + intros st st'. by apply well_layered_step.
Qed.

End sort_more.

(** ** Lookup in maps that are filled entry by entry *)

Section lookup.
Context {V : Type}.
Implicit Types (m : JsMap.t V) (l : list (string * V)) (k : string).

Lemma get_set m k k' (v : V) :
  JsMap.get k (JsMap.set k' v m) = if decide (k = k') then Some v else JsMap.get k m.
Proof.
  induction m as [|[k0 v0] m IH]; simpl.
  - destruct (decide (k' = k)), (decide (k = k')); congruence.
  - destruct (decide (k0 = k')) as [->|Hne]; simpl.
    + destruct (decide (k' = k)), (decide (k = k')); congruence.
    + destruct (decide (k0 = k)) as [->|Hne'].
      * by rewrite decide_False.
      * exact IH.
Qed.

Lemma find_snoc {A} (f : A → bool) (l : list A) (x : A) :
  List.find f (l ++ [x]) =
    match List.find f l with
    | Some y => Some y
    | None => if f x then Some x else None
    end.
Proof. induction l as [|y l IH]; simpl; [done|]. by destruct (f y). Qed.

Lemma last_of_cons k (p : string * V) l :
  last_of k (p :: l) =
    match last_of k l with
    | Some v => Some v
    | None => if decide (p.1 = k) then Some p.2 else None
    end.
Proof.
  unfold last_of. simpl. rewrite find_snoc.
  destruct (List.find _ (rev l)); [done|].
  by destruct (decide (p.1 = k)); [rewrite bool_decide_true|rewrite bool_decide_false].
Qed.

Lemma last_of_app k l1 l2 :
  last_of k (l1 ++ l2) =
    match last_of k l2 with
    | Some v => Some v
    | None => last_of k l1
    end.
Proof.
  induction l1 as [|p l1 IH]; simpl.
  - by destruct (last_of k l2).
  - rewrite !last_of_cons, IH. by destruct (last_of k l2).
Qed.

Lemma last_of_Some k l v : last_of k l = Some v → (k, v) ∈ l.
Proof.
  induction l as [|[k0 v0] l IH]; [done|]. rewrite last_of_cons.
  destruct (last_of k l).
  - intros [= ->]. right. by apply IH.
  - simpl. case_decide; [|done]. intros [= ->]. subst. left.
Qed.

Lemma last_of_None k l : last_of k l = None ↔ k ∉ l.*1.
Proof.
  induction l as [|[k0 v0] l IH]; [by split; [intros _ ?%elem_of_nil|]|].
  rewrite last_of_cons, fmap_cons, not_elem_of_cons. simpl.
  destruct (last_of k l).
  - split; [done|]. intros [_ Hk]. by apply IH in Hk.
  - case_decide; split; try done.
    + by intros [? _].
    + intros _. split; [done|]. by apply IH.
Qed.

Lemma get_fold_set l m k :
  JsMap.get k (fold_left (fun m p => JsMap.set p.1 p.2 m) l m) =
    match last_of k l with
    | Some v => Some v
    | None => JsMap.get k m
    end.
Proof.
  revert m. induction l as [|p l IH]; intros m; simpl; [done|].
  rewrite IH, last_of_cons, get_set.
  destruct (last_of k l); [done|].
  destruct (decide (k = p.1)), (decide (p.1 = k)); congruence.
Qed.

Lemma lookup_fold_insert l (idx : gmap string V) k :
  fold_left (fun idx p => <[ p.1 := p.2 ]> idx) l idx !! k =
    match last_of k l with
    | Some v => Some v
    | None => idx !! k
    end.
Proof.
  revert idx. induction l as [|p l IH]; intros idx; simpl; [done|].
  rewrite IH, last_of_cons.
  destruct (last_of k l); [done|].
  case_decide as Hk.
  - by rewrite Hk, lookup_insert_eq.
  - by rewrite lookup_insert_ne.
Qed.

End lookup.

(** ** buildEntityToFileMap *)

Lemma index_entities fileName (sm : SemanticModel) es idx :
  fold_left (index_entity fileName (sm_name sm)) es idx =
  fold_left (fun idx p => <[ p.1 := p.2 ]> idx)
    (map (fun e => (e_name e, {| di_fileName := fileName;
                                 di_semanticModelName := sm_name sm |}))
         (List.filter is_definition es)) idx.
Proof.
  revert idx. induction es as [|e es IH]; intros idx; simpl; [done|].
  rewrite IH. unfold index_entity, is_definition.
  by destruct (_ || _).
Qed.

Lemma index_models fileName sms idx :
  fold_left (index_model fileName) sms idx =
  fold_left (fun idx p => <[ p.1 := p.2 ]> idx)
    (flat_map (model_definitions fileName) sms) idx.
Proof.
  revert idx. induction sms as [|sm sms IH]; intros idx; simpl; [done|].
  rewrite IH, fold_left_app. f_equal.
  unfold index_model, model_definitions.
  destruct (sm_entities sm) as [es|]; simpl; [|done]. apply index_entities.
Qed.

Lemma index_files files idx :
  fold_left index_file files idx =
  fold_left (fun idx p => <[ p.1 := p.2 ]> idx) (all_definitions files) idx.
Proof.
  revert idx. induction files as [|f files IH]; intros idx; simpl; [done|].
  rewrite IH. unfold all_definitions. simpl. rewrite fold_left_app. f_equal.
  unfold index_file. destruct (mf_semantic_models f) as [sms|]; simpl; [|done].
  apply index_models.
Qed.

(** X6. The index holds a name exactly when some semantic model declares
    an entity of that name with type primary or unique, and it records the
    file and the semantic model of the last such declaration. *)
Theorem buildEntityToFileMap_lookup (files : list ModelFile) (name : string) :
  buildEntityToFileMap files !! name = last_of name (all_definitions files).
Proof.
  unfold buildEntityToFileMap. rewrite index_files, lookup_fold_insert.
  by destruct (last_of name _).
Qed.

(** ** parseSemanticModel *)

(** The record of a foreign entity, resolved against the index. *)
Lemma parse_entities idx es mi :
  let r := fold_left (parse_entity idx) es mi in
  mi_allEntities r = mi_allEntities mi ++ map e_name es ∧
  mi_primaryEntity r =
    match last (List.filter (fun e => bool_decide (e_type e = "primary")) es) with
    | Some e => Some (e_name e)
    | None => mi_primaryEntity mi
    end ∧
  mi_foreignEntities r =
    mi_foreignEntities mi ++
    map (fun e => {| fe_name := e_name e; fe_expr := expr_or_null (e_expr e);
                     fe_file := di_fileName <$> idx !! e_name e;
                     fe_semanticModelName := di_semanticModelName <$> idx !! e_name e |})
        (List.filter (fun e => bool_decide (e_type e = "foreign")) es) ∧
  mi_fileName r = mi_fileName mi ∧ mi_description r = mi_description mi.
Proof.
  revert mi. induction es as [|e es IH]; intros mi; simpl.
  { by rewrite !app_nil_r. }
  destruct (IH (parse_entity idx mi e)) as (Hall & Hprim & Hfor & Hfile & Hdesc).
  rewrite Hall, Hprim, Hfor, Hfile, Hdesc. clear IH Hall Hprim Hfor Hfile Hdesc.
  unfold parse_entity.
  destruct (decide (e_type e = "primary")) as [Hp|Hp].
  - rewrite !bool_decide_true by done. rewrite bool_decide_false by (by rewrite Hp).
    simpl. rewrite <- app_assoc. split_and!; try done.
    destruct (List.filter _ es) as [|x l]; simpl; [done|].
    destruct (last (x :: l)) eqn:E; [done|]. by apply last_None in E.
  - rewrite (bool_decide_false (e_type e = "primary")) by done.
    destruct (decide (e_type e = "foreign")) as [Hf|Hf].
    + rewrite !bool_decide_true by done. simpl. rewrite <- !app_assoc.
      split_and!; try done. by destruct (idx !! e_name e).
    + rewrite !bool_decide_false by done. simpl. by rewrite <- app_assoc.
Qed.

(** X7. What [parseSemanticModel] records for a semantic model: all the
    entity names in order, the name of the last entity of type primary,
    and for every entity of type foreign, in order, its name, its
    expression (null when empty) and the file and semantic model that the
    index gives for the name (null when the index does not hold it). *)
Theorem parse_model_fields idx fileName sm :
  let es := default [] (sm_entities sm) in
  let mi := parse_model idx fileName sm in
  mi_allEntities mi = map e_name es ∧
  mi_primaryEntity mi =
    e_name <$> last (List.filter (fun e => bool_decide (e_type e = "primary")) es) ∧
  mi_foreignEntities mi =
    map (fun e => {| fe_name := e_name e; fe_expr := expr_or_null (e_expr e);
                     fe_file := di_fileName <$> idx !! e_name e;
                     fe_semanticModelName := di_semanticModelName <$> idx !! e_name e |})
        (List.filter (fun e => bool_decide (e_type e = "foreign")) es).
Proof.
  unfold parse_model. destruct (sm_entities sm) as [es|]; simpl; [|done].
  destruct (parse_entities idx es
              {| mi_fileName := fileName; mi_name := sm_name sm;
                 mi_description := sm_description sm; mi_primaryEntity := None;
                 mi_foreignEntities := []; mi_allEntities := [] |})
    as (Hall & Hprim & Hfor & _).
  simpl in *. rewrite Hall, Hprim, Hfor. split_and!; [done| |done].
  by destruct (last _).
Qed.

(** ** analyzeDirectory *)

Lemma analyze_files_fold idx files models :
  fold_left (analyze_file idx) files models =
  fold_left (fun m p => JsMap.set p.1 p.2 m)
    (map (fun q => (sm_name q.2, parse_model idx q.1 q.2)) (all_models files))
    models.
Proof.
  revert models. induction files as [|f files IH]; intros models; simpl; [done|].
  rewrite IH. unfold all_models. simpl. rewrite map_app, fold_left_app. f_equal.
  unfold analyze_file, parseSemanticModel.
  destruct (mf_semantic_models f) as [[|sm sms]|]; [done| |done].
  generalize (sm :: sms). clear. intros sms. simpl.
  revert models. induction sms as [|sm sms IH]; intros models; simpl; [done|].
  by rewrite IH, parse_model_name.
Qed.

(** X8. The models of a directory by name: the map holds a name exactly
    when a semantic model of a file has it, and with several semantic
    models of one name the last one read is kept. *)
Theorem analyzeDirectory_lookup (files : list ModelFile) (name : string) :
  JsMap.get name (analyzeDirectory files) =
    last_of name
      (map (fun q => (sm_name q.2, parse_model (buildEntityToFileMap files) q.1 q.2))
           (all_models files)).
Proof.
  unfold analyzeDirectory. rewrite analyze_files_fold, get_fold_set.
  by destruct (last_of name _).
Qed.

(** ** buildDependencyGraph *)

Lemma keys_dep_core (m : JsMap.t DepInfo) : (map dep_core m).*1 = JsMap.keys m.
Proof.
  unfold JsMap.keys. induction m as [|e m IH]; [done|].
  rewrite map_cons, !fmap_cons. by f_equal.
Qed.

Lemma keys_initial_record (models : JsMap.t ModelInfo) :
  JsMap.keys (map initial_record models) = JsMap.keys models.
Proof.
  unfold JsMap.keys. induction models as [|e m IH]; [done|].
  rewrite map_cons, !fmap_cons. by f_equal.
Qed.

Lemma buildDependencyGraph_keys (models : JsMap.t ModelInfo) :
  JsMap.wf models →
  JsMap.keys (buildDependencyGraph models) = JsMap.keys models.
Proof.
  intros Hwf.
  rewrite <- keys_dep_core, buildDependencyGraph_core by done.
  by rewrite keys_dep_core, keys_initial_record.
Qed.

Lemma buildDependencyGraph_wf (models : JsMap.t ModelInfo) :
  JsMap.wf models → JsMap.wf (buildDependencyGraph models).
Proof. intros Hwf. unfold JsMap.wf. by rewrite buildDependencyGraph_keys. Qed.

(** The last entry under a key, for entries computed from a list. *)
Lemma last_of_map {A V} (key : A → string) (g : A → V) (l : list A) k :
  last_of k (map (fun q => (key q, g q)) l) =
    g <$> List.find (fun q => bool_decide (key q = k)) (rev l).
Proof.
  unfold last_of. rewrite <- map_rev.
  induction (rev l) as [|q l' IH]; simpl; [done|].
  by destruct (bool_decide (key q = k)).
Qed.

(** C3 (amended). For every set of analyzed files and every model of the
    analysis, the dependency map has a record under the name of the model,
    the record holds that model, and its [dependsOn] is the list of the
    names of the foreign entities recorded for that model, which are the
    names of the entities of type foreign of the semantic model kept under
    the name, one entry for each such entity in declaration order: the
    entries are entity names, they are neither looked up in the index nor
    de-duplicated. *)
Theorem dependsOn_foreign_entity_names (files : list ModelFile) m mi :
  JsMap.get m (analyzeDirectory files) = Some mi →
  ∃ info fileName sm,
    JsMap.get m (buildDependencyGraph (analyzeDirectory files)) = Some info ∧
    modelInfo info = mi ∧
    dependsOn info = map fe_name (mi_foreignEntities mi) ∧
    model_of files m = Some (fileName, sm) ∧
    mi = parse_model (buildEntityToFileMap files) fileName sm ∧
    dependsOn info = foreign_entity_names sm.
Proof.
  intros Hget.
  destruct (analyzeDirectory_inv files) as [Hwf _].
  destruct (get_of_key (buildDependencyGraph (analyzeDirectory files)) m)
    as [info Hinfo].
  { rewrite buildDependencyGraph_keys by done. by apply get_key in Hget. }
  destruct (buildDependencyGraph_dependsOn _ _ _ Hwf Hinfo) as [Hin Hdep].
  apply (get_elem_wf _ _ _ Hwf) in Hin.
  assert (modelInfo info = mi) as Hmi by congruence.
  unfold analyzeDirectory in Hget.
  rewrite analyze_files_fold, get_fold_set in Hget.
  rewrite (last_of_map (fun q => sm_name q.2)
             (fun q => parse_model (buildEntityToFileMap files) q.1 q.2)) in Hget.
  fold (model_of files m) in Hget.
  destruct (model_of files m) as [[fileName sm]|]; [|done].
  injection Hget as Hparse. simpl in Hparse.
  exists info, fileName, sm. rewrite Hdep, Hmi.
  split_and!; [done..|]. by rewrite <- Hparse, parse_model_foreign.
Qed.

(** X9. The dependency map has the models of the analysis, in the same
    order, and the record of a model holds the information of that
    model. *)
Theorem buildDependencyGraph_models (models : JsMap.t ModelInfo) :
  JsMap.wf models →
  JsMap.keys (buildDependencyGraph models) = JsMap.keys models ∧
  ∀ m info, JsMap.get m (buildDependencyGraph models) = Some info →
            JsMap.get m models = Some (modelInfo info).
Proof.
  intros Hwf. split; [by apply buildDependencyGraph_keys|].
  intros m info Hget.
  apply buildDependencyGraph_dependsOn in Hget as [Hin _]; [|done].
  by apply get_elem_wf.
Qed.

Lemma push_dependent_get modelName deps dependency d :
  JsMap.get d (push_dependent modelName deps dependency) =
    add_dependents (if decide (d = dependency) then [modelName] else [])
      <$> JsMap.get d deps.
Proof.
  unfold push_dependent.
  destruct (JsMap.get dependency deps) as [di|] eqn:Hd.
  - rewrite get_set. case_decide as Heq.
    + subst. by rewrite Hd.
    + destruct (JsMap.get d deps) as [[]|]; simpl; [|done].
      unfold add_dependents. simpl. by rewrite app_nil_r.
  - case_decide as Heq.
    + subst. by rewrite Hd.
    + destruct (JsMap.get d deps) as [[]|]; simpl; [|done].
      unfold add_dependents. simpl. by rewrite app_nil_r.
Qed.

Lemma add_dependents_app l1 l2 di :
  add_dependents l2 (add_dependents l1 di) = add_dependents (l1 ++ l2) di.
Proof. unfold add_dependents. simpl. by rewrite app_assoc. Qed.

Lemma push_dependents_get e deps d :
  JsMap.get d (fold_left (push_dependent e.1) (dependsOn e.2) deps) =
    add_dependents (dependent_entries d e) <$> JsMap.get d deps.
Proof.
  unfold dependent_entries. revert deps.
  induction (dependsOn e.2) as [|x ds IH]; intros deps; simpl.
  - destruct (JsMap.get d deps) as [[]|]; simpl; [|done].
    unfold add_dependents. simpl. by rewrite app_nil_r.
  - rewrite IH, push_dependent_get.
    destruct (JsMap.get d deps) as [di|]; simpl; [|done].
    rewrite add_dependents_app. do 2 f_equal.
    destruct (decide (d = x)) as [->|Hne].
    + by rewrite bool_decide_true.
    + rewrite bool_decide_false; [done|]. congruence.
Qed.

Lemma second_pass_get (l : list (string * DepInfo)) deps d :
  JsMap.get d
    (fold_left (fun deps e => fold_left (push_dependent e.1) (dependsOn e.2) deps)
       l deps) =
    add_dependents (flat_map (dependent_entries d) l) <$> JsMap.get d deps.
Proof.
  revert deps. induction l as [|e l IH]; intros deps; simpl.
  - destruct (JsMap.get d deps) as [[]|]; simpl; [|done].
    unfold add_dependents. simpl. by rewrite app_nil_r.
  - rewrite IH, push_dependents_get.
    destruct (JsMap.get d deps) as [di|]; simpl; [|done].
    by rewrite add_dependents_app.
Qed.

Lemma initial_dependents (models : JsMap.t ModelInfo) d di :
  JsMap.get d (map initial_record models) = Some di → dependents di = [].
Proof.
  intros Hget%get_Some_elem. apply list_elem_of_fmap in Hget as (e & Heq & _).
  unfold initial_record in Heq. by injection Heq as _ ->.
Qed.

(** The dependents of a model, in full: the models that name it, in map
    order, once for each time they name it. *)
Lemma buildDependencyGraph_dependents (models : JsMap.t ModelInfo) d di :
  JsMap.wf models →
  JsMap.get d (buildDependencyGraph models) = Some di →
  dependents di = flat_map (dependent_entries d) (map initial_record models).
Proof.
  intros Hwf. unfold buildDependencyGraph.
  rewrite first_pass by done. simpl. rewrite second_pass_get.
  destruct (JsMap.get d _) as [di0|] eqn:Hget; [|done]. simpl.
  intros [= <-]. simpl. by rewrite (initial_dependents _ _ _ Hget).
Qed.

Lemma edge_initial (models : JsMap.t ModelInfo) m d :
  JsMap.wf models →
  edge (buildDependencyGraph models) m d ↔
  ∃ e, e ∈ map initial_record models ∧ e.1 = m ∧ d ∈ dependsOn e.2.
Proof.
  intros Hwf. split.
  - intros (info & Hget%get_Some_elem & Hd).
    apply (list_elem_of_fmap_2 dep_core) in Hget.
    rewrite buildDependencyGraph_core in Hget by done.
    apply list_elem_of_fmap in Hget as (e & Heq & Hin).
    exists e. split; [done|]. unfold dep_core in Heq. simpl in Heq.
    by injection Heq as <- _ <-.
  - intros (e & Hin & <- & Hd).
    apply (list_elem_of_fmap_2 dep_core) in Hin.
    rewrite <- buildDependencyGraph_core in Hin by done.
    apply list_elem_of_fmap in Hin as ([k info] & Heq & Hin).
    unfold dep_core in Heq. simpl in Heq. injection Heq as -> _ Hdeps.
    exists info. split; [|by rewrite <- Hdeps].
    apply get_elem_wf; [by apply buildDependencyGraph_wf|done].
Qed.

(** X10. [dependents] is the reverse of [dependsOn]: a model [m] is among
    the dependents of a model [d] of the map exactly when [dependsOn] of
    [m] names [d]. *)
Theorem dependents_reverse_dependsOn (models : JsMap.t ModelInfo) d di m :
  JsMap.wf models →
  JsMap.get d (buildDependencyGraph models) = Some di →
  m ∈ dependents di ↔ edge (buildDependencyGraph models) m d.
Proof.
  intros Hwf Hget.
  rewrite (buildDependencyGraph_dependents models d di Hwf Hget), edge_initial by done.
  rewrite list_elem_of_In, in_flat_map. unfold dependent_entries. split.
  - intros (e & He & Hm). exists e. rewrite list_elem_of_In. split; [done|].
    apply in_map_iff in Hm as (x & <- & Hx).
    apply filter_In in Hx as [Hx Hxd%bool_decide_eq_true]. subst.
    split; [done|]. by apply list_elem_of_In.
  - intros (e & He & <- & Hd). exists e. rewrite <- list_elem_of_In. split; [done|].
    apply in_map_iff. exists d. split; [done|].
    apply filter_In. split; [by apply list_elem_of_In|]. by apply bool_decide_eq_true.
Qed.

(** ** getSummary and buildDAG *)

Lemma length_placed ls : length (placed ls) = sum_list (map (λ l, length (models l)) ls).
Proof.
  unfold placed. induction ls as [|l ls IH]; simpl; [done|].
  rewrite length_app, IH. unfold layer_names. by rewrite length_map.
Qed.

(** X11. [buildDAG] returns a summary for every set of files: all the models
    are processed, and the model counts of the layers add up to the number
    of models. *)
Theorem buildDAG_summary (files : list ModelFile) :
  ∃ s, buildDAG files = Some s ∧
       totalModels s = length (JsMap.keys (analyzeDirectory files)) ∧
       processedModels s = totalModels s ∧
       totalLayers s = length (summaryLayers s) ∧
       sum_list (map ls_modelCount (summaryLayers s)) = totalModels s.
Proof.
  destruct (analyzeDirectory_inv files) as [Hwf _].
  pose proof (buildDependencyGraph_wf _ Hwf) as Hwf'.
  destruct (sort_run _ Hwf' (λ _, True)) as (st & Hrun & _ & HI & _ & Hp); [done..|].
  unfold buildDAG. rewrite Hrun. simpl. eexists. split; [done|]. simpl.
  assert (length (placed (layers st))
          = JsMap.size (buildDependencyGraph (analyzeDirectory files))) as Hlen.
  { rewrite Hp. unfold JsMap.size, JsMap.keys. by rewrite length_fmap. }
  split_and!.
  - unfold JsMap.size. rewrite <- (buildDependencyGraph_keys _ Hwf).
    unfold JsMap.keys. by rewrite length_fmap.
  - by rewrite (Inv_size _ _ HI).
  - by rewrite length_map.
  - rewrite <- Hlen, length_placed, map_map. done.
Qed.

(** ** The theorems at the example maps *)

Lemma deps_cyclic_wf : JsMap.wf deps_cyclic.
Proof. unfold JsMap.wf. compute_done. Qed.

Lemma deps_diamond_wf : JsMap.wf deps_diamond.
Proof. unfold JsMap.wf. compute_done. Qed.

Lemma sort_places_every_model_witness :
  JsMap.wf deps_cyclic ∧
  ∃ ls ws, sort deps_cyclic = Some (ls, ws) ∧ placed ls ≡ₚ JsMap.keys deps_cyclic.
Proof.
  split; [apply deps_cyclic_wf|].
  apply (sort_places_every_model deps_cyclic deps_cyclic_wf).
Defined.

Lemma sort_layer_numbers_witness :
  ∃ ls ws, sort deps_cyclic = Some (ls, ws) ∧
    Forall (λ l, models l ≠ []) ls ∧
    map layer ls = seq (if decide (root_list deps_cyclic = []) then 2 else 1) (length ls).
Proof.
  eexists _, _. split; [vm_compute; reflexivity|].
  eapply (sort_layer_numbers deps_cyclic deps_cyclic_wf). vm_compute. reflexivity.
Defined.

Lemma sort_first_layer_witness :
  ∃ ls ws, sort deps_cyclic = Some (ls, ws) ∧
    (layer_of ls "R" = Some 1
     ↔ ∃ info, JsMap.get "R" deps_cyclic = Some info ∧ dependsOn info = []).
Proof.
  eexists _, _. split; [vm_compute; reflexivity|].
  eapply (sort_first_layer deps_cyclic deps_cyclic_wf). vm_compute. reflexivity.
Defined.

Lemma sort_warns_once_witness :
  ∃ ls ws, sort deps_cyclic = Some (ls, ws) ∧
    (ws = [] ∨
     ∃ init last, ls = init ++ [last] ∧ ws = [circular_warning (layer_names last)]).
Proof.
  eexists _, _. split; [vm_compute; reflexivity|].
  eapply (sort_warns_once deps_cyclic deps_cyclic_wf). vm_compute. reflexivity.
Defined.

Lemma sort_silent_iff_witness :
  ∃ ls ws, sort deps_diamond = Some (ls, ws) ∧
    (ws = [] ↔ closed deps_diamond ∧ acyclic deps_diamond).
Proof.
  eexists _, _. split; [vm_compute; reflexivity|].
  eapply (sort_silent_iff deps_diamond deps_diamond_wf). vm_compute. reflexivity.
Defined.

Lemma analysis_diamond_wf : JsMap.wf (analyzeDirectory corpus_diamond).
Proof. unfold JsMap.wf. compute_done. Qed.

Lemma dependsOn_foreign_entity_names_witness :
  ∃ mi info fileName sm,
    JsMap.get "orders" (analyzeDirectory corpus_orders) = Some mi ∧
    JsMap.get "orders" (buildDependencyGraph (analyzeDirectory corpus_orders))
      = Some info ∧
    modelInfo info = mi ∧
    dependsOn info = map fe_name (mi_foreignEntities mi) ∧
    model_of corpus_orders "orders" = Some (fileName, sm) ∧
    mi = parse_model (buildEntityToFileMap corpus_orders) fileName sm ∧
    dependsOn info = foreign_entity_names sm.
Proof.
  eexists.
  destruct (dependsOn_foreign_entity_names corpus_orders "orders" _
              ltac:(vm_compute; reflexivity)) as (info & fileName & sm & H).
  exists info, fileName, sm. split; [reflexivity|exact H].
Defined.

Lemma buildDependencyGraph_models_witness :
  JsMap.keys (buildDependencyGraph (analyzeDirectory corpus_diamond))
    = JsMap.keys (analyzeDirectory corpus_diamond) ∧
  ∀ m info,
    JsMap.get m (buildDependencyGraph (analyzeDirectory corpus_diamond)) = Some info →
    JsMap.get m (analyzeDirectory corpus_diamond) = Some (modelInfo info).
Proof.
  apply (buildDependencyGraph_models (analyzeDirectory corpus_diamond)
           analysis_diamond_wf).
Defined.

Lemma dependents_reverse_dependsOn_witness :
  ∃ di, JsMap.get "A" deps_diamond = Some di ∧ dependents di = ["B"; "C"] ∧
        ("B" ∈ dependents di ↔ edge deps_diamond "B" "A").
Proof.
  eexists. split; [vm_compute; reflexivity|]. split; [reflexivity|].
  apply (dependents_reverse_dependsOn (analyzeDirectory corpus_diamond) "A" _ "B"
           analysis_diamond_wf).
  vm_compute. reflexivity.
Defined.

(** The index and the analysis of [corpus_orders]. *)
Example lookup_examples :
  buildEntityToFileMap corpus_orders !! "customer_id"
    = Some {| di_fileName := "customers"; di_semanticModelName := "customers" |} ∧
  buildEntityToFileMap corpus_orders !! "ghost" = None ∧
  mi_allEntities <$> JsMap.get "orders" (analyzeDirectory corpus_orders)
    = Some ["order_id"; "customer_id"; "ghost"; "customer_id"] ∧
  JsMap.get "ghost" (analyzeDirectory corpus_orders) = None.
Proof. repeat split; by vm_compute. Qed.

End DagMore.

(** * Facts about the expression translator *)

Module ExprFacts.
Import Expr.

(** ** findMatchingClosingParen *)

(** The scan steps over the closing parenthesis of a nested call. *)
Example closing_paren_nested :
  findMatchingClosingParen "CONCAT(col1, CONCAT(col2, col3))" 7 = Some 31.
Proof. reflexivity. Qed.

(** C5. The scan counts the parentheses inside a quoted literal like any
    other: in [SPLIT_PART(x, ')', 2)], scanned from position 11, it stops
    at position 15, the parenthesis inside the literal, not at position
    20, the one that closes the call; with an opening parenthesis in a
    literal it finds no end at all. *)
Theorem closing_paren_inside_literal :
  findMatchingClosingParen "SPLIT_PART(x, ')', 2)" 11 = Some 15 ∧
  substring 14 17 "SPLIT_PART(x, ')', 2)" = "')'" ∧
  substring 20 21 "SPLIT_PART(x, ')', 2)" = ")" ∧
  findMatchingClosingParen "CONCAT(a, ' (', b)" 7 = None.
Proof. repeat split; reflexivity. Qed.

(** ** convertSplitPart *)

Example convertSplitPart_three :
  convertSplitPart false (translate 3) "SPLIT_PART(email, '@', 2)"
    = Ok (Some ("splitpart([email],'@',2)" : str)).
Proof. vm_compute. reflexivity. Qed.

Example convertSplitPart_two :
  convertSplitPart false (translate 3) "SPLIT_PART(email, '@')" = Ok None.
Proof. vm_compute. reflexivity. Qed.

(** C6. A call with four arguments is not rejected: the rewriter returns
    null only for fewer than three arguments and carries every further
    argument over. *)
Theorem convertSplitPart_four_arguments :
  parseFunctionArguments "a, b, c, d" = ["a" : str; "b" : str; "c" : str; "d" : str] ∧
  convertSplitPart false (translate 3) "SPLIT_PART(a, b, c, d)"
    = Ok (Some ("splitpart([a],b,c,d)" : str)).
Proof. split; vm_compute; reflexivity. Qed.

(** ** convertColumnReferences *)

(** The examples of the documentation of the function. *)
Example convertColumnReferences_examples :
  convertColumnReferences false "col1 + col2 * col3" = "[col1] + [col2] * [col3]" ∧
  convertColumnReferences false "concat(col1, col2)" = "concat([col1], [col2])" ∧
  convertColumnReferences false "col1 = 'my_column' AND col2 = 'value'"
    = "[col1] = 'my_column' AND [col2] = 'value'" ∧
  convertColumnReferences false "[col1] + col2" = "[col1] + [col2]" ∧
  convertColumnReferences true "my_column  +  1" = "[my column] + 1".
Proof. repeat split; by vm_compute. Qed.

(** *** Normal form of the white space *)

Lemma drop_while_snoc p (l : str) c :
  drop_while p (l ++ [c]) =
    match drop_while p l with
    | [] => if p c then [] else [c]
    | r => r ++ [c]
    end.
Proof.
  induction l as [|d l IH]; simpl; [done|].
  destruct (p d) eqn:Hd; [exact IH|done].
Qed.

Lemma no_lead_drop_while s : no_lead (drop_while isSpace s) = true.
Proof.
  induction s as [|c s IH]; simpl; [done|].
  destruct (isSpace c) eqn:Hc; [done|]. simpl. by rewrite Hc.
Qed.

Lemma drop_while_no_lead s : no_lead s = true → drop_while isSpace s = s.
Proof. destruct s as [|c s]; simpl; [done|]. by intros ->%negb_true_iff. Qed.

Lemma trim_fixed s :
  no_lead s = true → no_lead (rev s) = true → trim s = s.
Proof.
  intros H1 H2. unfold trim.
  by rewrite (drop_while_no_lead s H1), (drop_while_no_lead _ H2), rev_involutive.
Qed.

Lemma tidy_weaken b s : tidy b s = true → tidy false s = true.
Proof.
  destruct s as [|c s]; simpl; [done|].
  destruct (isSpace c); [|done]. destruct b; simpl; [done|done].
Qed.

Lemma tidy_collapse b s : tidy b (collapse b s) = true.
Proof.
  revert b. induction s as [|c s IH]; intros b; simpl; [done|].
  destruct (isSpace c) eqn:Hc.
  - destruct b; [apply IH|]. simpl. rewrite IH. by vm_compute.
  - simpl. rewrite Hc. apply IH.
Qed.

Lemma collapse_tidy b s : tidy b s = true → collapse b s = s.
Proof.
  revert b. induction s as [|c s IH]; intros b; simpl; [done|].
  destruct (isSpace c) eqn:Hc.
  - intros [[Hb Hs%bool_decide_eq_true]%andb_true_iff Ht]%andb_true_iff.
    apply negb_true_iff in Hb. subst b c. by rewrite IH.
  - intros Ht. by rewrite IH.
Qed.

Lemma tidy_app_l b s r : tidy b (s ++ r) = true → tidy b s = true.
Proof.
  revert b. induction s as [|c s IH]; intros b; simpl; [done|].
  destruct (isSpace c).
  - intros [-> Ht]%andb_true_iff. simpl. eauto.
  - eauto.
Qed.

Lemma tidy_drop_while b s : tidy b s = true → tidy false (drop_while isSpace s) = true.
Proof.
  revert b. induction s as [|c s IH]; intros b; simpl; [done|].
  destruct (isSpace c) eqn:Hc.
  - intros [_ Ht]%andb_true_iff. eauto.
  - intros Ht. simpl. by rewrite Hc.
Qed.

(** Dropping white space at the end leaves a part from the start on. *)
Lemma drop_end_prefix p (s : str) :
  ∃ r, s = rev (drop_while p (rev s)) ++ r.
Proof.
  induction s as [|c s [r IH]] using rev_ind; [by exists []|].
  rewrite rev_app_distr. simpl. destruct (p c).
  - exists (r ++ [c]). by rewrite app_assoc, <- IH.
  - exists []. simpl. by rewrite rev_involutive, app_nil_r.
Qed.

Lemma no_lead_drop_end s :
  no_lead s = true → no_lead (rev (drop_while isSpace (rev s))) = true.
Proof.
  destruct s as [|c s]; [done|]. simpl. intros Hc.
  rewrite drop_while_snoc.
  destruct (drop_while isSpace (rev s)) as [|d r] eqn:Hr.
  - destruct (isSpace c) eqn:E; [done|]. simpl. by rewrite E.
  - rewrite rev_app_distr. simpl. done.
Qed.

Lemma normalized_normalize s : normalized (normalize s).
Proof.
  unfold normalized, normalize, trim. repeat split.
  - pose proof (tidy_drop_while _ _ (tidy_collapse false s)) as Ht.
    destruct (drop_end_prefix isSpace (drop_while isSpace (collapse false s)))
      as [r Hr].
    rewrite Hr in Ht. by apply tidy_app_l in Ht.
  - apply no_lead_drop_end, no_lead_drop_while.
  - rewrite rev_involutive. apply no_lead_drop_while.
Qed.

Lemma normalize_fixed s : normalized s → normalize s = s.
Proof.
  intros (Ht & H1 & H2). unfold normalize.
  rewrite (collapse_tidy _ _ Ht). by apply trim_fixed.
Qed.

(** *** The tests of [skipped] *)

Lemma substring_0 n (s : str) : substring 0 n s = take n s.
Proof.
  unfold substring. simpl. rewrite Nat.sub_0_r, drop_0.
  destruct (decide (n ≤ length s)).
  - by rewrite Nat.min_l.
  - rewrite Nat.min_r, !take_ge by lia. done.
Qed.

Lemma startsWith_char c d (s : str) : startsWith [c] (d :: s) = Ascii.eqb c d.
Proof. simpl. apply andb_true_r. Qed.

Lemma indexOf_go_elem c pos (s : str) :
  c ∈ s → ∃ a, indexOf_go [c] pos s = Some a.
Proof.
  revert pos. induction s as [|d s IH]; intros pos Hin; [by apply elem_of_nil in Hin|].
  cbn [indexOf_go]. rewrite startsWith_char.
  destruct (Ascii.eqb c d) eqn:E; [by eexists|].
  apply elem_of_cons in Hin as [->|Hin]; [by rewrite Ascii.eqb_refl in E|].
  by apply IH.
Qed.

Lemma indexOf_go_not_elem c pos (s : str) :
  c ∉ s → indexOf_go [c] pos s = None.
Proof.
  revert pos. induction s as [|d s IH]; intros pos Hin; [done|].
  cbn [indexOf_go]. rewrite startsWith_char.
  apply not_elem_of_cons in Hin as [Hne Hin].
  destruct (Ascii.eqb c d) eqn:E; [by apply Ascii.eqb_eq in E|].
  by apply IH.
Qed.

Lemma lastIndexOf_go_elem c pos (s : str) found :
  c ∈ s → ∃ b, lastIndexOf_go [c] pos s found = Some b ∧ b < pos + length s.
Proof.
  revert pos found. induction s as [|d s IH]; intros pos found Hin;
    [by apply elem_of_nil in Hin|].
  cbn [lastIndexOf_go]. rewrite startsWith_char.
  destruct (decide (c ∈ s)) as [Hs|Hs].
  - destruct (IH (S pos) (if Ascii.eqb c d then Some pos else found) Hs)
      as (b & -> & Hb).
    exists b. split; [done|]. simpl. lia.
  - apply elem_of_cons in Hin as [->|Hin]; [|done].
    rewrite Ascii.eqb_refl. exists pos. split; [|simpl; lia].
    clear IH. revert Hs. generalize (S pos). induction s as [|e s IH]; intros q Hs; [done|].
    apply not_elem_of_cons in Hs as [Hne Hs].
    cbn [lastIndexOf_go]. rewrite startsWith_char.
    destruct (Ascii.eqb d e) eqn:E; [by apply Ascii.eqb_eq in E|].
    by apply IH.
Qed.

Lemma lastIndexOf_go_not_elem c pos (s : str) found :
  c ∉ s → lastIndexOf_go [c] pos s found = found.
Proof.
  revert pos. induction s as [|d s IH]; intros pos Hin; [done|].
  apply not_elem_of_cons in Hin as [Hne Hin].
  cbn [lastIndexOf_go]. rewrite startsWith_char.
  destruct (Ascii.eqb c d) eqn:E; [by apply Ascii.eqb_eq in E|].
  by apply IH.
Qed.

Lemma skipped_spec (pre identifier rest : str) :
  skipped (pre ++ identifier ++ rest) (length pre) identifier
    = skip_spec pre identifier rest.
Proof.
  unfold skipped, skip_spec, substringFrom, lastIndexOf, indexOf.
  rewrite substring_0, take_app_length.
  rewrite app_assoc, <- length_app, drop_app_length.
  do 3 f_equal. simpl. rewrite drop_0.
  destruct (decide (lbracket ∈ pre)) as [Hl|Hl].
  - destruct (lastIndexOf_go_elem lbracket 0 pre None Hl) as (b & -> & Hb).
    rewrite bool_decide_true by done.
    destruct (decide (rbracket ∈ rest)) as [Hr|Hr].
    + destruct (indexOf_go_elem rbracket 0 rest Hr) as (a & ->).
      rewrite bool_decide_true by done. simpl.
      rewrite andb_true_r. by apply Nat.ltb_lt.
    + rewrite (indexOf_go_not_elem _ _ _ Hr), bool_decide_false by done. done.
  - rewrite (lastIndexOf_go_not_elem _ _ _ _ Hl), bool_decide_false by done. done.
Qed.

(** *** The replacements are applied from right to left *)

Lemma insert_desc_last r l :
  Forall (before r) l → insert_desc r l = l ++ [r].
Proof.
  induction 1 as [|x l Hx _ IH]; [done|]. simpl.
  unfold before in Hx. destruct (Nat.ltb_spec (r_start x) (r_start r)); [lia|].
  by rewrite IH.
Qed.

Lemma sort_desc_rev l : StronglySorted before l → sort_desc l = rev l.
Proof.
  induction 1 as [|x l _ IH Hx]; [done|]. simpl. rewrite IH.
  apply insert_desc_last. apply Forall_forall. intros y Hy%list_elem_of_In.
  apply in_rev, list_elem_of_In in Hy.
  rewrite Forall_forall in Hx. by apply Hx.
Qed.

Lemma omap_cons {A B} (f : A → option B) x l :
  omap f (x :: l) = match f x with Some y => y :: omap f l | None => omap f l end.
Proof. reflexivity. Qed.

Lemma replacement_of_start userFriendly converted m r :
  replacement_of userFriendly converted m = Some r → r_start r = m.1.
Proof.
  unfold replacement_of. destruct (skipped _ _ _); [done|]. by intros [= <-].
Qed.

Lemma replacements_sorted userFriendly converted pos prevWord s :
  Forall (λ r, pos ≤ r_start r)
    (omap (replacement_of userFriendly converted) (identifier_matches pos prevWord s))
  ∧ StronglySorted before
      (omap (replacement_of userFriendly converted) (identifier_matches pos prevWord s)).
Proof.
  revert pos prevWord. induction s as [|c s IH]; intros pos prevWord.
  { split; constructor. }
  cbn [identifier_matches].
  destruct (IH (S pos) (isWord c)) as [Hge Hs].
  assert (Forall (λ r, pos ≤ r_start r)
            (omap (replacement_of userFriendly converted)
               (identifier_matches (S pos) (isWord c) s))) as Hge'.
  { eapply Forall_impl; [exact Hge|]. simpl. intros; lia. }
  destruct (negb prevWord && isIdentStart c); [|by split].
  rewrite omap_cons.
  destruct (replacement_of _ _ _) as [r|] eqn:Hr; [|by split].
  apply replacement_of_start in Hr. simpl in Hr.
  split.
  - constructor; [lia|done].
  - constructor; [done|]. eapply Forall_impl; [exact Hge|].
    unfold before. simpl. intros; lia.
Qed.

Lemma fold_left_apply_all converted l :
  fold_left apply_replacement (rev l) converted = apply_all converted l.
Proof. unfold apply_all. by rewrite <- fold_left_rev_right, rev_involutive. Qed.

(** *** The pass over the characters *)

Lemma take_drop_while p (s : str) : take_while p s ++ drop_while p s = s.
Proof.
  induction s as [|c s IH]; simpl; [done|].
  destruct (p c); simpl; [by rewrite IH|done].
Qed.

Lemma isIdentStart_isWord c : isIdentStart c = true → isWord c = true.
Proof. unfold isWord. by intros ->. Qed.

(** Inside an identifier the pass copies the rest of it. *)
Lemma bracketize_run pre s :
  bracketize pre true false s
    = take_while isWord s
        ++ bracketize (pre ++ take_while isWord s) true false (drop_while isWord s).
Proof.
  revert pre. induction s as [|c s IH]; intros pre; simpl.
  { done. }
  destruct (isWord c) eqn:Hc; simpl.
  - by rewrite IH, <- app_assoc.
  - by rewrite Hc, app_nil_r.
Qed.

Lemma bracketize_run_opened pre s :
  bracketize pre true true s
    = take_while isWord s
        ++ rbracket
           :: bracketize (pre ++ take_while isWord s) true false (drop_while isWord s).
Proof.
  revert pre. induction s as [|c s IH]; intros pre; simpl.
  { done. }
  destruct (isWord c) eqn:Hc; simpl.
  - by rewrite IH, <- app_assoc.
  - by rewrite Hc, app_nil_r.
Qed.

Lemma apply_all_bracketize pre prevWord s :
  apply_all (pre ++ s)
    (omap (replacement_of false (pre ++ s))
       (identifier_matches (length pre) prevWord s))
  = pre ++ bracketize pre prevWord false s.
Proof.
  revert pre prevWord. induction s as [|c s IH]; intros pre prevWord.
  { done. }
  cbn [identifier_matches bracketize].
  assert (pre ++ c :: s = (pre ++ [c]) ++ s) as Happ by by rewrite <- app_assoc.
  assert (S (length pre) = length (pre ++ [c])) as Hlen
    by (rewrite length_app; simpl; lia).
  specialize (IH (pre ++ [c]) (isWord c)). rewrite <- Happ, <- Hlen in IH.
  destruct (negb prevWord && isIdentStart c) eqn:Hstart.
  - apply andb_true_iff in Hstart as [_ Hc].
    rewrite (isIdentStart_isWord _ Hc) in *. cbn [andb].
    rewrite omap_cons. unfold replacement_of at 1. cbn [fst snd].
    assert (skipped (pre ++ c :: s) (length pre) (c :: take_while isWord s)
            = skip_spec pre (c :: take_while isWord s) (drop_while isWord s)) as ->.
    { rewrite <- skipped_spec. simpl. by rewrite take_drop_while. }
    destruct (skip_spec _ _ _); cbn [negb].
    + rewrite IH. by rewrite <- app_assoc.
    + unfold apply_all in *. cbn [fold_right]. rewrite IH.
      rewrite bracketize_run, bracketize_run_opened.
      set (B := bracketize ((pre ++ [c]) ++ take_while isWord s) true false
                  (drop_while isWord s)).
      set (id := c :: take_while isWord s).
      assert ((pre ++ [c]) ++ take_while isWord s ++ B = pre ++ id ++ B) as ->
        by by rewrite <- app_assoc.
      unfold apply_replacement, substringFrom. cbn [r_start r_end r_replacement].
      rewrite substring_0, take_app_length.
      rewrite (app_assoc pre id B), <- length_app, drop_app_length.
      subst id. simpl. by rewrite <- app_assoc.
  - cbn [andb]. rewrite IH, <- app_assoc. simpl. by destruct (isWord c).
Qed.

Lemma convertColumnReferences_bracketize expr :
  convertColumnReferences false expr = bracketize [] false false (normalize expr).
Proof.
  unfold convertColumnReferences.
  destruct (replacements_sorted false (normalize expr) 0 false (normalize expr))
    as [_ Hs].
  rewrite (sort_desc_rev _ Hs), fold_left_apply_all.
  apply (apply_all_bracketize [] false).
Qed.

(** *** The result of the pass is in normal form *)

Lemma isWord_not_space c : isWord c = true → isSpace c = false.
Proof. destruct c as [[] [] [] [] [] [] [] []]; by vm_compute. Qed.

Lemma not_isWord_not_start c : isWord c = false → isIdentStart c = false.
Proof. unfold isWord. by intros [-> _]%orb_false_iff. Qed.

Lemma tidy_cons b c (s r : str) :
  tidy b (c :: s) = true →
  (∀ b', tidy b' s = true → tidy b' r = true) →
  tidy b (c :: r) = true.
Proof.
  simpl. destruct (isSpace c); [|by eauto].
  intros [-> Ht]%andb_true_iff Hr. simpl. eauto.
Qed.

Lemma tidy_bracketize pre prevWord opened b s :
  tidy b s = true → tidy b (bracketize pre prevWord opened s) = true.
Proof.
  revert pre prevWord opened b.
  induction s as [|c s IH]; intros pre prevWord opened b Ht.
  { simpl. by destruct opened. }
  cbn [bracketize]. destruct (isWord c) eqn:Hc.
  - assert (tidy false s = true) as Hs.
    { simpl in Ht. by rewrite (isWord_not_space _ Hc) in Ht. }
    destruct (_ && _ && _).
    + cbn [tidy]. rewrite (isWord_not_space _ Hc).
      change (isSpace lbracket) with false. cbv iota. by apply IH.
    + cbn [tidy]. rewrite (isWord_not_space _ Hc). by apply IH.
  - destruct opened; cbn [app].
    + cbn [tidy]. change (isSpace rbracket) with false. cbv iota.
      eapply tidy_cons; [by eapply tidy_weaken|]. intros b'. apply IH.
    + eapply tidy_cons; [done|]. intros b'. apply IH.
Qed.

Lemma no_lead_bracketize pre prevWord opened s :
  no_lead s = true → no_lead (bracketize pre prevWord opened s) = true.
Proof.
  destruct s as [|c s]; simpl; [by destruct opened|]. intros Hc.
  destruct (isWord c); [by destruct (_ && _ && _)|]. by destruct opened.
Qed.

Lemma no_lead_rev_app (x y : str) :
  y ≠ [] → no_lead (rev (x ++ y)) = no_lead (rev y).
Proof.
  intros Hy. rewrite rev_app_distr.
  destruct (rev y) as [|d r] eqn:Hr; [|done].
  apply (f_equal (@rev _)) in Hr. rewrite rev_involutive in Hr. done.
Qed.

Lemma no_lead_rev_bracketize x pre prevWord opened s :
  no_lead (rev (x ++ s)) = true →
  no_lead (rev (x ++ bracketize pre prevWord opened s)) = true.
Proof.
  revert x pre prevWord opened.
  induction s as [|c s IH]; intros x pre prevWord opened Hx.
  { simpl. destruct opened; [|done]. by rewrite no_lead_rev_app. }
  assert (∀ (e : str) pw op,
            no_lead (rev (x ++ e ++ c :: bracketize (pre ++ [c]) pw op s)) = true)
    as Hstep.
  { intros e pw op.
    replace (x ++ e ++ c :: bracketize (pre ++ [c]) pw op s)
      with ((x ++ e ++ [c]) ++ bracketize (pre ++ [c]) pw op s)
      by (by rewrite <- !app_assoc).
    apply IH. destruct s as [|d s].
    - rewrite app_nil_r, app_assoc, no_lead_rev_app by done.
      by rewrite no_lead_rev_app in Hx.
    - rewrite no_lead_rev_app by done.
      change (x ++ c :: d :: s) with (x ++ [c] ++ d :: s) in Hx.
      by rewrite app_assoc, no_lead_rev_app in Hx. }
  cbn [bracketize]. destruct (isWord c).
  - destruct (_ && _ && _).
    + apply (Hstep [lbracket]).
    + apply (Hstep []).
  - destruct opened.
    + apply (Hstep [rbracket]).
    + apply (Hstep []).
Qed.

Lemma normalized_bracketize s :
  normalized s → normalized (bracketize [] false false s).
Proof.
  intros (Ht & H1 & H2). repeat split.
  - by apply tidy_bracketize.
  - by apply no_lead_bracketize.
  - by apply (no_lead_rev_bracketize []).
Qed.

(** *** Every identifier of the result is left alone *)

Lemma count_char_app c (a b : str) :
  count_char c (a ++ b) = count_char c a + count_char c b.
Proof. induction a as [|d a IH]; simpl; [done|]. rewrite IH. lia. Qed.

Lemma similar_step pre written (e : str) c :
  e = [] ∨ e = [lbracket] ∨ e = [rbracket] →
  similar pre written → similar (pre ++ [c]) (written ++ e ++ [c]).
Proof.
  intros He (Hq & Hd & Hl). unfold similar.
  rewrite !count_char_app, Hq, Hd.
  assert (count_char quote e = 0 ∧ count_char dquote e = 0) as [-> ->]
    by (destruct He as [->|[->| ->]]; done).
  repeat split; [done..|].
  rewrite !elem_of_app. intros [?|?]; auto.
Qed.

Lemma elem_of_bracketize x pre prevWord opened s :
  x ∈ s → x ∈ bracketize pre prevWord opened s.
Proof.
  revert pre prevWord opened. induction s as [|c s IH]; intros pre prevWord opened Hx.
  { by apply elem_of_nil in Hx. }
  assert (∀ (e : str) pw op, x ∈ e ++ c :: bracketize (pre ++ [c]) pw op s) as Hstep.
  { intros e pw op. apply elem_of_app. right.
    apply elem_of_cons in Hx as [->|Hx]; [left|right; by apply IH]. }
  cbn [bracketize]. destruct (isWord c).
  - destruct (_ && _ && _); [apply (Hstep [lbracket])|apply (Hstep [])].
  - destruct opened; [apply (Hstep [rbracket])|apply (Hstep [])].
Qed.

Lemma skip_spec_similar pre written identifier rest rest' :
  similar pre written →
  (rbracket ∈ rest → rbracket ∈ rest') →
  skip_spec pre identifier rest = true →
  skip_spec written identifier rest' = true.
Proof.
  intros (Hq & Hd & Hl) Hr. unfold skip_spec. rewrite Hq, Hd.
  rewrite !orb_true_iff, !andb_true_iff, !bool_decide_eq_true. naive_solver.
Qed.

Lemma skip_spec_bracketed written identifier rest :
  skip_spec (written ++ [lbracket]) identifier (rbracket :: rest) = true.
Proof.
  unfold skip_spec. rewrite !orb_true_iff, !andb_true_iff, !bool_decide_eq_true.
  right. split; [apply elem_of_app; right|]; by left.
Qed.

Lemma take_while_app_stop p (s r : str) :
  take_while p r = [] → take_while p (take_while p s ++ r) = take_while p s.
Proof.
  intros Hr. induction s as [|c s IH]; simpl; [done|].
  destruct (p c) eqn:Hc; simpl; [by rewrite Hc, IH|done].
Qed.

Lemma take_while_bracketize_rest pre s :
  take_while isWord (bracketize pre true false (drop_while isWord s)) = [].
Proof.
  induction s as [|c s IH]; simpl; [done|].
  destruct (isWord c) eqn:Hc; [exact IH|]. simpl. rewrite Hc. simpl. by rewrite Hc.
Qed.

Lemma length_snoc (l : str) c : length (l ++ [c]) = S (length l).
Proof. rewrite length_app. simpl. lia. Qed.

Lemma bracketize_skipped s pre prevWord opened written converted :
  similar pre written →
  (opened = true → lbracket ∈ written ∧ prevWord = true) →
  converted = written ++ bracketize pre prevWord opened s →
  Forall (λ m, skipped converted m.1 m.2 = true)
    (identifier_matches (length written) prevWord
       (bracketize pre prevWord opened s)).
Proof.
  revert pre prevWord opened written.
  induction s as [|c s IH]; intros pre prevWord opened written Hsim Hop Hconv.
  { simpl. destruct opened; [|constructor]. simpl.
    change (isIdentStart rbracket) with false. rewrite andb_false_r. constructor. }
  cbn [bracketize] in *. destruct (isWord c) eqn:Hc.
  - destruct (negb prevWord && isIdentStart c) eqn:Hstart; cbn [andb] in *.
    + apply andb_true_iff in Hstart as [Hpw%negb_true_iff Hid]. subst prevWord.
      assert (opened = false) as -> by (destruct opened; naive_solver).
      destruct (skip_spec pre _ _) eqn:Hskip; cbn [negb] in *.
      * (* left alone in the text read *)
        cbn [identifier_matches]. rewrite Hid, Hc. cbn [negb andb].
        constructor.
        -- cbn [fst snd]. rewrite bracketize_run in *.
           rewrite take_while_app_stop by apply take_while_bracketize_rest.
           subst converted.
           change (written ++ c :: take_while isWord s ++ ?r)
             with (written ++ (c :: take_while isWord s) ++ r).
           rewrite skipped_spec.
           eapply skip_spec_similar; [done| |done]. apply elem_of_bracketize.
        -- rewrite <- (length_snoc written c). apply IH.
           ++ by apply (similar_step _ _ []); [left|].
           ++ done.
           ++ subst converted. by rewrite <- app_assoc.
      * (* written between brackets *)
        cbn [identifier_matches].
        change (isIdentStart lbracket) with false.
        change (isWord lbracket) with false. rewrite Hid, Hc. cbn [negb andb].
        constructor.
        -- cbn [fst snd]. rewrite bracketize_run_opened in *.
           rewrite take_while_app_stop by done.
           subst converted. rewrite <- (length_snoc written lbracket).
           change (written ++ lbracket :: c :: take_while isWord s ++ ?r)
             with (written ++ [lbracket] ++ (c :: take_while isWord s) ++ r).
           rewrite (app_assoc written), skipped_spec.
           apply skip_spec_bracketed.
        -- rewrite <- (length_snoc written lbracket), <- (length_snoc _ c).
           apply IH.
           ++ rewrite <- app_assoc.
              by apply (similar_step _ _ [lbracket]); [right; left|].
           ++ intros _. split; [|done]. rewrite !elem_of_app. left. right. by left.
           ++ subst converted. by rewrite <- !app_assoc.
    + cbn [identifier_matches]. rewrite Hstart, Hc.
      rewrite <- (length_snoc written c). apply IH.
      * by apply (similar_step _ _ []); [left|].
      * intros Ho. destruct (Hop Ho) as [Hl _]. split; [|done].
        apply elem_of_app. by left.
      * subst converted. by rewrite <- app_assoc.
  - pose proof (not_isWord_not_start _ Hc) as Hid. destruct opened; cbn [app] in *.
    + cbn [identifier_matches].
      change (isIdentStart rbracket) with false.
      change (isWord rbracket) with false. rewrite Hid, Hc, !andb_false_r.
      rewrite <- (length_snoc written rbracket), <- (length_snoc _ c). apply IH.
      * rewrite <- app_assoc.
        by apply (similar_step _ _ [rbracket]); [right; right|].
      * done.
      * subst converted. by rewrite <- !app_assoc.
    + cbn [identifier_matches]. rewrite Hid, Hc, !andb_false_r.
      rewrite <- (length_snoc written c). apply IH.
      * by apply (similar_step _ _ []); [left|].
      * done.
      * subst converted. by rewrite <- app_assoc.
Qed.

Lemma omap_skipped userFriendly converted l :
  Forall (λ m, skipped converted m.1 m.2 = true) l →
  omap (replacement_of userFriendly converted) l = [].
Proof.
  induction 1 as [|m l Hm _ IH]; [done|].
  rewrite omap_cons. unfold replacement_of at 1. by rewrite Hm.
Qed.

(** The result of [convertColumnReferences] is in normal form, and the
    function gives it back. *)
Lemma normalized_convertColumnReferences expr :
  normalized (convertColumnReferences false expr).
Proof.
  rewrite convertColumnReferences_bracketize.
  apply normalized_bracketize, normalized_normalize.
Qed.

Lemma convertColumnReferences_fixed expr :
  convertColumnReferences false (convertColumnReferences false expr)
    = convertColumnReferences false expr.
Proof.
  pose proof (normalized_convertColumnReferences expr) as Hn.
  rewrite (convertColumnReferences_bracketize expr) in *.
  set (t := bracketize [] false false (normalize expr)) in *.
  unfold convertColumnReferences. rewrite (normalize_fixed _ Hn).
  rewrite (omap_skipped false t).
  - done.
  - apply (bracketize_skipped (normalize expr) [] false false [] t); done.
Qed.

(** ** convertExpressionToSigma *)

Example translate_case :
  translate 2 "case when a = 1 then b else c end"
    = Ok (Some ("if([a] = 1,[b],[c])" : str)).
Proof. by vm_compute. Qed.

(** A text of white space translates to the empty string, and the empty
    string to null. *)
Example translate_blank :
  translate 1 " " = Ok (Some []) ∧ translate_value 1 (Some []) = Ok None.
Proof. split; by vm_compute. Qed.






End ExprFacts.

(** * Further facts about the expression translator *)

Module ExprMore.
Import Expr ExprFacts ExprScan Metrics MetricsEffects.

(** ** findMatchingClosingParen *)

Lemma closing_paren_balance i depth depth' (body r : str) :
  balance depth body = Some depth' →
  closing_paren_go i depth (body ++ r) = closing_paren_go (i + length body) depth' r.
Proof.
  revert i depth. induction body as [|c body IH]; intros i depth; simpl.
  - intros [= ->]. by rewrite Nat.add_0_r.
  - rewrite <- Nat.add_succ_comm.
    destruct (Ascii.eqb c lparen); [apply IH|].
    destruct (Ascii.eqb c rparen); [|apply IH].
    destruct depth; [done|apply IH].
Qed.

Lemma closing_paren_sound i depth (s : str) j :
  closing_paren_go i depth s = Some j →
  ∃ body rest, s = body ++ rparen :: rest ∧ j = i + length body ∧
               balance depth body = Some 0.
Proof.
  revert i depth. induction s as [|c s IH]; intros i depth; simpl; [done|].
  destruct (Ascii.eqb c lparen) eqn:Hl.
  - intros (body & rest & -> & -> & Hb)%IH.
    exists (c :: body), rest. simpl. rewrite Hl. split_and!; [done|lia|done].
  - destruct (Ascii.eqb c rparen) eqn:Hr.
    + destruct depth as [|depth].
      * intros [= <-]. apply Ascii.eqb_eq in Hr as ->.
        exists [], s. simpl. split_and!; [done|lia|done].
      * intros (body & rest & -> & -> & Hb)%IH.
        exists (c :: body), rest. simpl. rewrite Hl, Hr. split_and!; [done|lia|done].
    + intros (body & rest & -> & -> & Hb)%IH.
      exists (c :: body), rest. simpl. rewrite Hl, Hr. split_and!; [done|lia|done].
Qed.

Lemma substring_middle (pre body rest : str) :
  substring (length pre) (length pre + length body) (pre ++ body ++ rest) = body.
Proof.
  unfold substring. rewrite !length_app.
  rewrite !Nat.min_l by lia. rewrite Nat.max_r by lia.
  replace (length pre + length body - length pre) with (length body) by lia.
  by rewrite drop_app_length, take_app_length.
Qed.

(** X12. After text whose parentheses are balanced, the scan ends at the
    next closing parenthesis. *)
Theorem closing_paren_after_balanced (pre body rest : str) :
  balanced body →
  findMatchingClosingParen (pre ++ body ++ rparen :: rest) (length pre)
    = Some (length pre + length body).
Proof.
  intros Hb. unfold findMatchingClosingParen.
  by rewrite drop_app_length, (closing_paren_balance _ _ 0).
Qed.

(** X13. A position that the scan returns holds a closing parenthesis, is
    not before the start, and the text between the start and the position
    has balanced parentheses; when the scan returns none, no text from the
    start on is balanced and followed by a closing parenthesis. *)
Theorem closing_paren_characterized (expr : str) (startPos : nat) :
  match findMatchingClosingParen expr startPos with
  | Some endPos =>
      startPos ≤ endPos ∧ expr !! endPos = Some rparen ∧
      balanced (substring startPos endPos expr)
  | None =>
      ∀ body rest, drop startPos expr = body ++ rparen :: rest → ¬ balanced body
  end.
Proof.
  unfold findMatchingClosingParen.
  destruct (closing_paren_go startPos 0 (drop startPos expr)) as [j|] eqn:Hgo.
  - apply closing_paren_sound in Hgo as (body & rest & Hdrop & -> & Hb).
    assert (∃ pre, expr = pre ++ body ++ rparen :: rest ∧ length pre = startPos)
      as (pre & -> & <-).
    { exists (take startPos expr). split; [by rewrite <- Hdrop, take_drop|].
      rewrite length_take. apply Nat.min_l.
      destruct (decide (startPos ≤ length expr)); [done|].
      rewrite drop_ge in Hdrop by lia. by destruct body. }
    split_and!; [lia| |].
    + rewrite lookup_app_r by lia.
      replace (length pre + length body - length pre) with (length body) by lia.
      rewrite lookup_app_r by lia. by rewrite Nat.sub_diag.
    + by rewrite substring_middle.
  - intros body rest Hdrop Hb.
    rewrite Hdrop, (closing_paren_balance _ _ 0) in Hgo by done.
    done.
Qed.

(** ** parseFunctionArguments *)

Lemma arg_step_scan st c σ :
  scan_step (scan_of st) c = Some σ →
  args (arg_step st c) = args st ∧
  currentArg (arg_step st c) = currentArg st ++ [c] ∧
  scan_of (arg_step st c) = σ.
Proof.
  unfold scan_step, arg_step, scan_of.
  destruct (negb (inString st) && isQuote c); [by intros [= <-]|].
  destruct (inString st && bool_decide (stringChar st = Some c)); [by intros [= <-]|].
  destruct (negb (inString st) && Ascii.eqb c lparen); [by intros [= <-]|].
  destruct (negb (inString st) && Ascii.eqb c rparen); [by intros [= <-]|].
  destruct (negb (inString st) && (parenDepth st =? 0)%Z && Ascii.eqb c comma);
    [done|by intros [= <-]].
Qed.

Lemma fold_arg_step_scan (a : str) st σ :
  scan (scan_of st) a = Some σ →
  args (fold_left arg_step a st) = args st ∧
  currentArg (fold_left arg_step a st) = currentArg st ++ a ∧
  scan_of (fold_left arg_step a st) = σ.
Proof.
  revert st. induction a as [|c a IH]; intros st; cbn [scan fold_left].
  - intros [= <-]. by rewrite app_nil_r.
  - destruct (scan_step (scan_of st) c) as [σ1|] eqn:Hstep; [|done].
    cbn [mbind option_bind].
    destruct (arg_step_scan st c σ1 Hstep) as (Ha & Hc & Hs).
    rewrite <- Hs. intros (Ha' & Hc' & Hs')%IH.
    rewrite Ha', Hc', Ha, Hc, <- app_assoc. done.
Qed.

Lemma arg_step_comma st :
  scan_of st = (false, None, 0%Z) →
  arg_step st comma =
    {| args := args st ++ [trim (currentArg st)]; currentArg := [];
       inString := false; stringChar := None; parenDepth := 0%Z |}.
Proof.
  unfold scan_of, arg_step. intros [= Hi Hs Hd]. by rewrite Hi, Hs, Hd.
Qed.

Lemma arg_step_space st :
  scan_of st = (false, None, 0%Z) →
  arg_step st space =
    {| args := args st; currentArg := currentArg st ++ [space];
       inString := false; stringChar := None; parenDepth := 0%Z |}.
Proof.
  unfold scan_of, arg_step. intros [= Hi Hs Hd]. by rewrite Hi, Hs, Hd.
Qed.

Lemma trim_space (a : str) : trim (space :: a) = trim a.
Proof. done. Qed.

(** The arguments after the first one, each after a comma and a space;
    [x] is the argument that is being read. *)
Lemma fold_arg_step_rest (l : list str) st x :
  Forall whole_argument l →
  scan_of st = (false, None, 0%Z) →
  trim (currentArg st) = x →
  ∃ st', fold_left arg_step (flat_map (fun a => comma :: space :: a) l) st = st' ∧
         args st' ++ [trim (currentArg st')] = args st ++ x :: l.
Proof.
  intros Hl. revert st x. induction Hl as [|a l (Hne & Htrim & Hscan) _ IH];
    intros st x Hst Hcur; simpl.
  - exists st. by rewrite Hcur.
  - rewrite fold_left_app. simpl.
    rewrite (arg_step_comma st Hst), arg_step_space by done. simpl.
    set (st1 := {| args := args st ++ [trim (currentArg st)];
                   currentArg := [space]; inString := false;
                   stringChar := None; parenDepth := 0%Z |}).
    destruct (fold_arg_step_scan a st1 (false, None, 0%Z) Hscan) as (Ha & Hc & Hs).
    destruct (IH (fold_left arg_step a st1) a) as (st' & Hfold & Hargs).
    + done.
    + rewrite Hc. simpl. by rewrite trim_space.
    + exists st'. split; [done|].
      rewrite Hargs, Ha. simpl. by rewrite Hcur, <- app_assoc.
Qed.

Lemma join_flat_map (a : str) (l : list str) :
  join ", " (map Some (a :: l)) = a ++ flat_map (fun b => comma :: space :: b) l.
Proof.
  revert a. induction l as [|b l IH]; intros a.
  - simpl. by rewrite app_nil_r.
  - change (join ", " (map Some (a :: b :: l)))
      with (a ++ (", " : str) ++ join ", " (map Some (b :: l))).
    rewrite IH. simpl. done.
Qed.

(** X14. Arguments that are joined with a comma and a space are parsed
    back: each one must be whole, that is not empty, without white space
    around it, with every literal and parenthesis closed and with commas
    only inside of literals and parentheses. *)
Theorem parseFunctionArguments_join (l : list str) :
  Forall whole_argument l →
  parseFunctionArguments (join ", " (map Some l)) = l.
Proof.
  intros Hl. destruct Hl as [|a l (Hne & Htrim & Hscan) Hl]; [done|].
  rewrite join_flat_map. unfold parseFunctionArguments.
  rewrite fold_left_app.
  set (st0 := {| args := []; currentArg := []; inString := false;
                 stringChar := None; parenDepth := 0%Z |}).
  destruct (fold_arg_step_scan a st0 (false, None, 0%Z) Hscan) as (Ha & Hc & Hs).
  destruct (fold_arg_step_rest l (fold_left arg_step a st0) a Hl Hs)
    as (st' & -> & Hargs).
  { by rewrite Hc. }
  rewrite Ha in Hargs. simpl in Hargs.
  destruct (trim (currentArg st')) as [|c t] eqn:Ht.
  - exfalso. assert (last (args st' ++ [[]]) = last (a :: l)) as Hlast
      by by rewrite Hargs.
    rewrite last_snoc in Hlast. symmetry in Hlast.
    apply last_Some in Hlast as (l' & Hl').
    assert (whole_argument []) as (Hnil & _); [|done].
    assert (Forall whole_argument (a :: l)) as Hall by (by constructor).
    rewrite Hl' in Hall. apply Forall_app in Hall as [_ Hall].
    by apply Forall_inv in Hall.
  - done.
Qed.

(** The example of the documentation, and an empty argument string. *)
Example parseFunctionArguments_examples :
  parseFunctionArguments "col1, 'hello,world', concat(col2,col3)"
    = ["col1" : str; "'hello,world'" : str; "concat(col2,col3)" : str] ∧
  parseFunctionArguments "" = [] ∧
  parseFunctionArguments "a,,b, " = ["a" : str; [] ; "b" : str].
Proof. repeat split; by vm_compute. Qed.

(** ** convertColumnReferences *)

(** X15. Converting the column references of a converted expression
    changes nothing. *)
Theorem convertColumnReferences_idempotent (expr : str) :
  convertColumnReferences false (convertColumnReferences false expr)
    = convertColumnReferences false expr.
Proof. apply convertColumnReferences_fixed. Qed.

(** X16. The result has its white space in normal form: neither
    normalizing nor trimming changes it. *)
Theorem convertColumnReferences_normal (expr : str) :
  normalize (convertColumnReferences false expr) = convertColumnReferences false expr ∧
  trim (convertColumnReferences false expr) = convertColumnReferences false expr.
Proof.
  pose proof (normalized_convertColumnReferences expr) as Hn. split.
  - by apply normalize_fixed.
  - destruct Hn as (_ & H1 & H2). by apply trim_fixed.
Qed.

Lemma without_brackets_bracketize pre prevWord opened s :
  without_brackets (bracketize pre prevWord opened s) = without_brackets s.
Proof.
  unfold without_brackets.
  revert pre prevWord opened. induction s as [|c s IH]; intros pre prevWord opened.
  { simpl. by destruct opened. }
  cbn [bracketize]. destruct (isWord c).
  - destruct (_ && _ && _); simpl; by rewrite IH.
  - destruct opened; simpl; by rewrite IH.
Qed.

(** X17. The function only writes square brackets into the expression with
    normalized white space: without the brackets, the result is the
    normalized expression without its brackets. *)
Theorem convertColumnReferences_only_brackets (expr : str) :
  without_brackets (convertColumnReferences false expr)
    = without_brackets (normalize expr).
Proof.
  rewrite convertColumnReferences_bracketize. apply without_brackets_bracketize.
Qed.

(** ** convertExpressionToSigma *)




(** ** A bare name *)

Lemma take_while_all (p : ascii → bool) (s : str) :
  forallb p s = true → take_while p s = s.
Proof.
  induction s as [|c s IH]; simpl; [done|].
  intros [-> Hs]%andb_true_iff. by rewrite IH.
Qed.

Lemma drop_while_all (p : ascii → bool) (s : str) :
  forallb p s = true → drop_while p s = [].
Proof.
  induction s as [|c s IH]; simpl; [done|].
  intros [-> Hs]%andb_true_iff. by apply IH.
Qed.

Lemma forallb_isWord_not_space (s : str) :
  forallb isWord s = true → forallb (λ c, negb (isSpace c)) s = true.
Proof.
  induction s as [|c s IH]; simpl; [done|].
  intros [Hc Hs]%andb_true_iff. by rewrite (isWord_not_space c Hc), IH.
Qed.

Lemma collapse_no_space b (s : str) :
  forallb (λ c, negb (isSpace c)) s = true → collapse b s = s.
Proof.
  revert b. induction s as [|c s IH]; intros b; simpl; [done|].
  intros [Hc%negb_true_iff Hs]%andb_true_iff. by rewrite Hc, IH.
Qed.

Lemma drop_while_no_space (s : str) :
  forallb (λ c, negb (isSpace c)) s = true → drop_while isSpace s = s.
Proof.
  destruct s as [|c s]; simpl; [done|].
  by intros [->%negb_true_iff _]%andb_true_iff.
Qed.

Lemma normalize_no_space (s : str) :
  forallb (λ c, negb (isSpace c)) s = true → normalize s = s.
Proof.
  intros Hs. unfold normalize, trim. rewrite collapse_no_space by done.
  rewrite (drop_while_no_space s) by done.
  rewrite (drop_while_no_space (rev s)).
  - by rewrite rev_involutive.
  - rewrite forallb_forall in *. intros c Hc%in_rev. by apply Hs.
Qed.

(** X20. A bare name is written between brackets, unless it is one of the
    function names and keywords that are left alone. *)
Theorem convertColumnReferences_identifier (n : str) :
  is_identifier n = true →
  convertColumnReferences false n =
    if isSigmaFunction n then n else [lbracket] ++ n ++ [rbracket].
Proof.
  intros Hid. rewrite convertColumnReferences_bracketize.
  destruct n as [|c n]; [done|]. simpl in Hid.
  apply andb_true_iff in Hid as [Hc Hn].
  pose proof (isIdentStart_isWord c Hc) as Hw.
  rewrite normalize_no_space
    by (apply forallb_isWord_not_space; simpl; by rewrite Hw).
  cbn [bracketize]. rewrite Hw, Hc. cbn [negb andb].
  rewrite take_while_all by done.
  rewrite (drop_while_all isWord n) by done.
  unfold skip_spec. simpl count_char. rewrite bool_decide_false by by intros ?%elem_of_nil.
  change (0 mod 2 =? 1) with false. rewrite !orb_false_r.
  destruct (isSigmaFunction (c :: n)); cbn [negb].
  - rewrite bracketize_run, take_while_all, drop_while_all by done.
    simpl. by rewrite app_nil_r.
  - by rewrite bracketize_run_opened, take_while_all, drop_while_all.
Qed.

(** ** The theorems at example inputs *)

Lemma closing_paren_after_balanced_witness :
  balanced "col1, CONCAT(col2, col3)" ∧
  findMatchingClosingParen "CONCAT(col1, CONCAT(col2, col3))" 7 = Some 31.
Proof.
  split; [reflexivity|].
  apply (closing_paren_after_balanced "CONCAT(" "col1, CONCAT(col2, col3)" []).
  reflexivity.
Defined.

Lemma whole_arguments_example :
  Forall whole_argument
    ["col1" : str; "'hello,world'" : str; "concat(col2,col3)" : str].
Proof. repeat constructor; done. Qed.

Lemma parseFunctionArguments_join_witness :
  parseFunctionArguments "col1, 'hello,world', concat(col2,col3)"
    = ["col1" : str; "'hello,world'" : str; "concat(col2,col3)" : str].
Proof.
  apply (parseFunctionArguments_join
           ["col1" : str; "'hello,world'" : str; "concat(col2,col3)" : str]).
  repeat constructor; done.
Defined.



Lemma convertColumnReferences_identifier_witness :
  convertColumnReferences false "order_total" = "[order_total]" ∧
  convertColumnReferences false "coalesce" = "coalesce".
Proof.
  split.
  - rewrite (convertColumnReferences_identifier "order_total"); [|reflexivity].
    by vm_compute.
  - rewrite (convertColumnReferences_identifier "coalesce"); [|reflexivity].
    by vm_compute.
Defined.

End ExprMore.

(** * Facts about the metric resolver *)

Module MetricsFacts.
Import Expr Metrics MetricsEffects.

(** ** canAddMetricToModel and the pass over the simple metrics *)

(** A metric without [type_params.metrics] that is no ratio metric passes
    the eligibility test: the measure of a simple metric is not looked at. *)
Lemma canAddMetricToModel_no_references userFriendly metric semanticModel allMetrics tp :
  metric_type_params metric = Some tp →
  tp_metrics tp = None →
  metric_type metric ≠ ("ratio" : str) →
  canAddMetricToModel userFriendly metric semanticModel allMetrics = true.
Proof.
  intros Htp Hrefs Htype. unfold canAddMetricToModel, extractDimensionReferences.
  rewrite Htp. simpl. rewrite Hrefs. simpl.
  by rewrite bool_decide_false.
Qed.

(** C7. The simple metric [shipping] refers to a measure that [orders]
    does not declare (and that is no metric either). The eligibility test
    accepts it, its conversion yields no formula, and the metric ends up
    neither among the metrics of the model nor in the cross-model set:
    only a warning is left. *)
Theorem missing_measure_metric_is_dropped (fuel : nat) :
  measure_exists orders "shipping_cost" = false ∧
  metric_exists [shipping] "shipping_cost" = false ∧
  canAddMetricToModel false shipping orders [shipping] = true ∧
  process_source_metrics false (S fuel) orders [shipping] initial_state =
    Ok ({| out_metrics := []; crossModelMetrics := [] |},
        {| convertedMetrics := ∅; prototype := None;
           warnings := [missing_warning "shipping_cost"] |}).
Proof. split_and!; vm_compute; reflexivity. Qed.

(** ** Re-entry of convertMetricToSigma *)

Section reentry.
Variable userFriendly : bool.
Variable semanticModel : SemanticModel.
Variable allMetrics : list Metric.
Variable self : Metric → M SigmaMetric.
Variable st : State.

(** A reference to a metric that is not converted yet calls [self]. *)
Lemma buildSigmaMeasureFormula_reenters r m :
  find_measure semanticModel (ref_name r) = None →
  find_metric allMetrics (ref_name r) = Some m →
  value_truthy (read_converted st (ref_name r)) = false →
  self m st = StackOverflow →
  buildSigmaMeasureFormula userFriendly r semanticModel allMetrics self st
    = StackOverflow.
Proof.
  intros H1 H2 H3 H4. unfold buildSigmaMeasureFormula. rewrite H1, H2.
  unfold mbind, M_bind, lookup_converted. rewrite H3. by rewrite H4.
Qed.

Lemma convertExpression_reenters e refs part rest r :
  e ≠ [] →
  parseExprParts e = part :: rest →
  findMetricInTypeParams refs part = Some r →
  buildSigmaMeasureFormula userFriendly r semanticModel allMetrics self st
    = StackOverflow →
  convertExpression userFriendly (Some e) refs semanticModel allMetrics self st
    = StackOverflow.
Proof.
  intros He Hparts Hfind Hcall. unfold convertExpression.
  destruct e as [|c e']; [done|]. rewrite Hparts. simpl. rewrite Hfind.
  unfold mbind, M_bind. by rewrite Hcall.
Qed.

Lemma bind_ret_overflow {A B} (m : M A) (k : A → M B) a :
  m st = Ok (a, st) → k a st = StackOverflow → (m ≫= k) st = StackOverflow.
Proof. intros Hm Hk. unfold mbind, M_bind. by rewrite Hm. Qed.

Lemma bind_overflow {A B} (m : M A) (k : A → M B) :
  m st = StackOverflow → (m ≫= k) st = StackOverflow.
Proof. intros Hm. unfold mbind, M_bind. by rewrite Hm. Qed.

Lemma derived_body_reenters metric tp e refs :
  metric_type metric = ("derived" : str) →
  metric_type_params metric = Some tp →
  tp_expr tp = Some e → e ≠ [] →
  tp_metrics tp = Some refs → refs ≠ [] →
  convertExpression userFriendly (Some e) refs semanticModel allMetrics self st
    = StackOverflow →
  convertMetricToSigma_body userFriendly self metric semanticModel allMetrics st
    = StackOverflow.
Proof.
  intros Htype Htp He Hne Hrefs Hrne Hcall.
  unfold convertMetricToSigma_body. rewrite Htype, Htp.
  change (Some tp ≫= tp_measure) with (tp_measure tp).
  rewrite He, Hrefs.
  destruct e as [|c e']; [done|]. destruct refs as [|r0 refs']; [done|].
  apply (bind_ret_overflow _ _ None).
  - by destruct (tp_measure tp) as [[|??]|].
  - apply bind_overflow. by rewrite bool_decide_true.
Qed.

Lemma simple_body_reenters metric tp measureName :
  metric_type metric = ("simple" : str) →
  metric_type_params metric = Some tp →
  tp_measure tp = Some measureName → measureName ≠ [] →
  convertExpression userFriendly (Some measureName)
    [RefObj measureName None
       (if truthy (metric_filter metric) then metric_filter metric else None)]
    semanticModel allMetrics self st = StackOverflow →
  convertMetricToSigma_body userFriendly self metric semanticModel allMetrics st
    = StackOverflow.
Proof.
  intros Htype Htp Hm Hne Hcall.
  unfold convertMetricToSigma_body. rewrite Htype, Htp.
  change (Some tp ≫= tp_measure) with (tp_measure tp). rewrite Hm.
  destruct measureName as [|c n']; [done|].
  apply bind_overflow. rewrite bool_decide_true by done.
  by apply bind_overflow.
Qed.

End reentry.

Lemma growth_reenters (self : Metric → M SigmaMetric) :
  self growth initial_state = StackOverflow →
  convertMetricToSigma_body false self growth orders [growth] initial_state
    = StackOverflow.
Proof.
  intros H.
  eapply derived_body_reenters; [reflexivity..|done|reflexivity|done|].
  eapply (convertExpression_reenters _ _ _ _ _ _ _ "growth" []);
    [done|by vm_compute|by vm_compute|].
  by apply (buildSigmaMeasureFormula_reenters _ _ _ _ _ _ growth).
Qed.

Lemma tax_reenters (self : Metric → M SigmaMetric) :
  self tax initial_state = StackOverflow →
  convertMetricToSigma_body false self tax orders [tax] initial_state
    = StackOverflow.
Proof.
  intros H.
  eapply simple_body_reenters; [reflexivity..|done|].
  eapply (convertExpression_reenters _ _ _ _ _ _ _ "tax" []);
    [done|by vm_compute|by vm_compute|].
  by apply (buildSigmaMeasureFormula_reenters _ _ _ _ _ _ tax).
Qed.

(** C9. The resolution of the self-referential metric [growth] does not
    terminate: the memo is written only after a conversion has returned,
    so the nested call finds no entry and calls again, whatever the room
    on the call stack. The same holds for [tax], a simple metric named
    like a measure that the model does not declare. *)
Theorem self_reference_overflows (fuel : nat) :
  convertMetricToSigma false fuel orders [growth] growth initial_state = StackOverflow ∧
  convertMetricToSigma false fuel orders [tax] tax initial_state = StackOverflow.
Proof.
  induction fuel as [|fuel [IH1 IH2]]; [done|]. split.
  - by apply growth_reenters.
  - by apply tax_reenters.
Qed.

(** ** The conversion of a simple metric over a measure of the model *)

Lemma startsWith_refl (s : str) : startsWith s s = true.
Proof. induction s as [|c s IH]; simpl; [done|]. by rewrite Ascii.eqb_refl. Qed.

Lemma identifier_matches_word pos (s : str) :
  forallb isWord s = true → identifier_matches pos true s = [].
Proof.
  revert pos. induction s as [|c s IH]; intros pos; simpl; [done|].
  intros [-> Hs]%andb_true_iff. by apply IH.
Qed.

Lemma parseExprParts_identifier (n : str) :
  is_identifier n = true → parseExprParts n = [n].
Proof.
  destruct n as [|c n]; [done|]. simpl.
  intros [Hc Hn]%andb_true_iff. unfold parseExprParts.
  cbn [identifier_matches negb andb].
  rewrite Hc, (ExprFacts.isIdentStart_isWord c Hc).
  by rewrite ExprMore.take_while_all, identifier_matches_word.
Qed.

Lemma substitution_plain before matchedText after (replacement : str) :
  "$"%char ∉ replacement →
  substitution before matchedText after replacement = replacement.
Proof.
  induction replacement as [|c r IH]; [done|].
  intros [Hc Hr]%not_elem_of_cons. cbn [substitution].
  destruct (Ascii.eqb c "$") eqn:E; [by apply Ascii.eqb_eq in E|].
  by rewrite IH.
Qed.

Lemma replace_word_go_skip part replacement before prevWord (s : str) :
  replace_word_go part replacement before prevWord (length s) s = [].
Proof.
  revert before prevWord. induction s as [|c s IH]; intros before prevWord; simpl;
    [done|apply IH].
Qed.

(** A whole text that is the word is replaced by the replacement. *)
Lemma replace_word_whole (part replacement : str) :
  part ≠ [] → "$"%char ∉ replacement →
  replace_word part replacement part = replacement.
Proof.
  intros Hne Hplain. destruct part as [|c part]; [done|].
  unfold replace_word. cbn [replace_word_go negb andb].
  rewrite startsWith_refl, drop_all. cbn [boundary_after andb].
  rewrite substitution_plain by done.
  replace (length (c :: part) - 1) with (length part) by (simpl; lia).
  rewrite replace_word_go_skip. apply app_nil_r.
Qed.

Lemma convertExpression_parts userFriendly (e : str) refs semanticModel allMetrics self :
  e ≠ [] →
  convertExpression userFriendly (Some e) refs semanticModel allMetrics self =
    match parseExprParts e with
    | [] => mret None
    | parts =>
        fs ← part_formulas userFriendly e refs semanticModel allMetrics self parts;
        match fs with
        | None => mret None
        | Some formulas =>
            mret (Some (fold_left (fun convertedExpr pf =>
                                     replace_word pf.1 (assigned_formula pf)
                                       convertedExpr)
                                  formulas e))
        end
    end.
Proof. by destruct e. Qed.

Lemma is_identifier_not_empty n : is_identifier n = true → n ≠ [].
Proof. by destruct n. Qed.

Lemma read_stored n o st : read_converted (stored n o st) n = VFormula o.
Proof.
  unfold read_converted, stored. case_bool_decide; [done|].
  cbn [convertedMetrics]. by rewrite lookup_insert_eq.
Qed.

Section simple_metric.
Variable userFriendly : bool.
Variable semanticModel : SemanticModel.
Variable allMetrics : list Metric.
Variable self : Metric → M SigmaMetric.
Variable name : str.
Variable measure : Measure.
Variable filter : option str.

Hypothesis name_identifier : is_identifier name = true.
Hypothesis measure_found : find_measure semanticModel name = Some measure.

Notation o := (measure_object userFriendly semanticModel measure filter).
Notation reference := (measure_reference name filter).

Lemma formula_not_empty : truthy (Some (formula o)) = true.
Proof.
  assert (∀ (a b : str) c, truthy (Some (a ++ c :: b)) = true) as Happ
    by (by intros [|??] ??).
  unfold measure_object. destruct filter as [[|c f]|].
  - apply Happ.
  - unfold buildMeasureFormulaWithFilter. cbn [formula].
    destruct (bool_decide _); apply Happ.
  - apply Happ.
Qed.

Lemma aggFunc_defined : aggFunc o ≠ Undefined.
Proof.
  unfold measure_object. destruct filter as [[|c f]|]; simpl; try done.
  unfold filtered_aggregation. by repeat case_bool_decide.
Qed.

Lemma measure_reference_formula st :
  buildSigmaMeasureFormula userFriendly reference semanticModel allMetrics self st
    = Ok (Some (formula o), stored name o st).
Proof.
  unfold buildSigmaMeasureFormula, measure_reference, measure_object. simpl.
  rewrite measure_found. by destruct filter as [[|c f]|].
Qed.

(** The expression that is the name of the measure: the formula of the
    measure is assigned to the part and replaces the name. *)
Lemma measure_expression st :
  convertExpression userFriendly (Some name) [reference] semanticModel allMetrics
    self st
    = Ok (Some (replace_word name (assigned_formula (name, formula o)) name),
          stored name o st).
Proof.
  pose proof (is_identifier_not_empty _ name_identifier) as Hne.
  rewrite convertExpression_parts by done.
  rewrite (parseExprParts_identifier name name_identifier).
  cbn [part_formulas].
  assert (findMetricInTypeParams [reference] name = Some reference) as ->.
  { unfold findMetricInTypeParams, measure_reference. simpl.
    by rewrite bool_decide_true. }
  unfold mbind at 1, M_bind at 1. unfold mbind at 1, M_bind at 1.
  by rewrite measure_reference_formula, formula_not_empty.
Qed.

End simple_metric.

(** A simple metric over a measure of the model is converted without a
    nested conversion, and the formula object of the measure, under the
    filter of the metric, is memoized under the name of the measure and
    under the name of the metric. *)
Lemma simple_metric_memo userFriendly fuel semanticModel allMetrics
    metric tp name measure st :
  metric_type metric = ("simple" : str) →
  metric_type_params metric = Some tp →
  tp_measure tp = Some name →
  is_identifier name = true →
  find_measure semanticModel name = Some measure →
  let o := measure_object userFriendly semanticModel measure (metric_filter metric) in
  convertMetricToSigma userFriendly (S fuel) semanticModel allMetrics metric st =
    Ok ({| sigma_id := metric_name metric;
           sigma_name := metric_name metric;
           sigma_description :=
             first_truthy (metric_description metric) (metric_label metric)
               (metric_name metric);
           sigma_formula :=
             Some (replace_word name (assigned_formula (name, formula o)) name) |},
        stored (metric_name metric) o (stored name o st)).
Proof.
  intros Htype Htp Hmeasure Hid Hfound o.
  pose proof (is_identifier_not_empty _ Hid) as Hne.
  cbn [convertMetricToSigma]. unfold convertMetricToSigma_body.
  rewrite Htype, Htp.
  change (Some tp ≫= tp_measure) with (tp_measure tp). rewrite Hmeasure.
  destruct name as [|c n] eqn:Hname; [done|]. rewrite <- Hname in *.
  rewrite (bool_decide_true (("simple" : str) = ("simple" : str))) by done.
  rewrite (bool_decide_false (("simple" : str) = ("derived" : str))) by done.
  rewrite (bool_decide_false (("simple" : str) = ("ratio" : str))) by done.
  unfold mbind at 1, M_bind at 1. unfold mbind at 1, M_bind at 1.
  unfold mbind at 1, M_bind at 1.
  change (RefObj name None (if truthy (metric_filter metric) then metric_filter metric
                            else None))
    with (measure_reference name (metric_filter metric)).
  rewrite (measure_expression userFriendly semanticModel allMetrics _ name measure
             (metric_filter metric) Hid Hfound).
  unfold lookup_converted at 1. rewrite read_stored.
  unfold mbind at 1, M_bind at 1.
  rewrite bool_decide_false
    by apply (aggFunc_defined userFriendly semanticModel measure (metric_filter metric)).
  unfold store_converted at 1.
  unfold mret, M_ret, mbind, M_bind, lookup_converted. cbv beta iota.
  destruct (truthy _); [|done]. by rewrite read_stored.
Qed.

(** ** Filter-bearing references to a converted metric *)

Section filtered_reference.
Variable userFriendly : bool.
Variable semanticModel : SemanticModel.
Variable allMetrics : list Metric.
Variable self : Metric → M SigmaMetric.
Variable r : MetricRef.
Variable st : State.
Variable o : FormulaObject.
Variable newFilterStr : str.

(** The reference names no measure of the model but a metric of the
    catalog whose formula object [o] is cached, and it carries a filter. *)
Hypothesis no_measure : find_measure semanticModel (ref_name r) = None.
Hypothesis is_metric : is_Some (find_metric allMetrics (ref_name r)).
Hypothesis cached : read_converted st (ref_name r) = VFormula o.
Hypothesis has_filter : ref_filter r = Some newFilterStr.

Lemma filtered_reference_cases :
  buildSigmaMeasureFormula userFriendly r semanticModel allMetrics self st =
    if js_truthy (aggFunc o)
       && negb (bool_decide (existingFilter o = Null))
       && negb (bool_decide (existingFilter o = Undefined))
    then
      let combinedFilter := combined_filter userFriendly semanticModel o newFilterStr in
      let combinedFormula :=
        rebuildFilteredFormula (aggFunc o) (measureExpr o) combinedFilter in
      Ok (Some combinedFormula,
          stored (ref_name r)
            {| formula := combinedFormula; aggFunc := aggFunc o;
               measureExpr := measureExpr o; existingFilter := combinedFilter |}
            st)
    else Ok (Some (formula o), st).
Proof.
  destruct is_metric as [referencedMetric Hmetric].
  unfold buildSigmaMeasureFormula. rewrite no_measure, Hmetric.
  unfold mbind, M_bind, lookup_converted. rewrite cached. simpl.
  rewrite has_filter.
  destruct (js_truthy (aggFunc o) && _ && _); [done|].
  by destruct (formula o).
Qed.

(** C10 (amended). When the reference names no measure of the model and
    the cached object of the referenced metric has no filter of its own
    ([existingFilter] is null or undefined), the resolver returns the
    cached formula unchanged: the filter of the reference is dropped,
    nothing is stored and no warning is recorded. *)
Theorem filter_is_dropped :
  existingFilter o = Null ∨ existingFilter o = Undefined →
  drops_filter userFriendly r semanticModel allMetrics self st o.
Proof.
  intros Hnone. unfold drops_filter. rewrite filtered_reference_cases.
  destruct Hnone as [-> | ->]; simpl; by rewrite andb_false_r.
Qed.

End filtered_reference.



Lemma filter_is_dropped_witness :
  drops_filter false big_revenue_ref orders catalog
    (convertMetricToSigma false 1 orders catalog) state_after_simple cached_revenue ∧
  formula cached_revenue = "sum([amount])".
Proof.
  split; [|reflexivity].
  apply (filter_is_dropped false orders catalog _ big_revenue_ref
           state_after_simple cached_revenue amount_filter
           ltac:(vm_compute; reflexivity) ltac:(vm_compute; eauto)
           ltac:(vm_compute; reflexivity) ltac:(vm_compute; reflexivity)
           ltac:(left; reflexivity)).
Defined.


(** The statement of C8 also fails for a metric named like a measure of
    the model: [food_order_total_metric] was resolved with a filter of its
    own, but a reference to its name is answered from the measure, with
    the filter of the reference alone. *)
Example filters_not_combined_measure_name :
  find_metric [food_order_total_metric] (ref_name big_order_total_ref)
    = Some food_order_total_metric ∧
  read_converted (state_after food_order_total_metric) (ref_name big_order_total_ref)
    = VFormula cached_food_revenue ∧
  buildSigmaMeasureFormula false big_order_total_ref orders
      [food_order_total_metric]
      (convertMetricToSigma false 1 orders [food_order_total_metric])
      (state_after food_order_total_metric)
    = Ok (Some ("sumif([amount],[amount] >= 50)" : str),
          stored "order_total"
            {| formula := "sumif([amount],[amount] >= 50)"; aggFunc := Str "sumif";
               measureExpr := Str "amount"; existingFilter := Str "[amount] >= 50" |}
            (state_after food_order_total_metric)) ∧
  ¬ combines_filters false big_order_total_ref orders [food_order_total_metric]
      (convertMetricToSigma false 1 orders [food_order_total_metric])
      (state_after food_order_total_metric) cached_food_revenue amount_filter.
Proof.
  split_and!; [vm_compute; reflexivity..|].
  unfold combines_filters. intros Heq.
  apply (f_equal (fun x : res (option str * State) =>
                    match x with Ok (Some f, _) => f | _ => [] end)) in Heq.
  vm_compute in Heq. discriminate Heq.
Qed.

(** The statement of C10 fails for a metric named like a measure of the
    model: the cached object of [order_total_metric] has no filter of its
    own, but a filter-bearing reference to its name is answered from the
    measure, so that the filter is applied, and the filtered object
    replaces the cached one. *)
Lemma filter_not_dropped_counterexample :
  find_metric [order_total_metric] (ref_name big_order_total_ref)
    = Some order_total_metric ∧
  read_converted (state_after order_total_metric) (ref_name big_order_total_ref)
    = VFormula cached_revenue ∧
  existingFilter cached_revenue = Null ∧
  ref_filter big_order_total_ref = Some amount_filter ∧
  buildSigmaMeasureFormula false big_order_total_ref orders [order_total_metric]
      (convertMetricToSigma false 1 orders [order_total_metric])
      (state_after order_total_metric)
    = Ok (Some ("sumif([amount],[amount] >= 50)" : str),
          stored "order_total"
            {| formula := "sumif([amount],[amount] >= 50)"; aggFunc := Str "sumif";
               measureExpr := Str "amount"; existingFilter := Str "[amount] >= 50" |}
            (state_after order_total_metric)) ∧
  ¬ drops_filter false big_order_total_ref orders [order_total_metric]
      (convertMetricToSigma false 1 orders [order_total_metric])
      (state_after order_total_metric) cached_revenue.
Proof.
  split_and!; [vm_compute; reflexivity..|].
  unfold drops_filter. intros Heq.
  apply (f_equal (fun x : res (option str * State) =>
                    match x with Ok (Some f, _) => f | _ => [] end)) in Heq.
  vm_compute in Heq. discriminate Heq.
Qed.

End MetricsFacts.

(** * Further facts about the metric resolver *)

Module MetricsMore.
Import Expr Metrics MetricsEffects MetricsFacts.

(** ** Formula objects *)

(** X21. The formula of a filtered measure is the one that
    [rebuildFilteredFormula] gives for the aggregation function, the
    measure expression and the filter that are stored with it. *)
Theorem buildMeasureFormulaWithFilter_rebuilt userFriendly measure filterStr modelName :
  rebuilt (buildMeasureFormulaWithFilter userFriendly measure filterStr modelName).
Proof.
  unfold rebuilt, buildMeasureFormulaWithFilter, rebuildFilteredFormula,
    filtered_aggregation. simpl.
  repeat (case_bool_decide; simplify_eq; try done; try congruence).
Qed.

(** ** canAddMetricToModel *)

Lemma metric_exists_mono (allMetrics allMetrics' : list Metric) n :
  allMetrics ⊆ allMetrics' →
  metric_exists allMetrics n = true → metric_exists allMetrics' n = true.
Proof.
  unfold metric_exists. rewrite !existsb_exists. intros Hsub (m & Hin & Hm).
  exists m. split; [|done]. apply list_elem_of_In, Hsub. by apply list_elem_of_In.
Qed.

Lemma reference_known_mono semanticModel (allMetrics allMetrics' : list Metric) r :
  allMetrics ⊆ allMetrics' →
  reference_known semanticModel allMetrics r = true →
  reference_known semanticModel allMetrics' r = true.
Proof.
  unfold reference_known. intros Hsub [->|Hm]%orb_true_iff; [done|].
  rewrite (metric_exists_mono _ _ _ Hsub Hm). apply orb_true_r.
Qed.

(** X22. A metric that can be added to a model can still be added when the
    catalog of metrics gets more entries. *)
Theorem canAddMetricToModel_mono userFriendly metric semanticModel
    (allMetrics allMetrics' : list Metric) :
  allMetrics ⊆ allMetrics' →
  canAddMetricToModel userFriendly metric semanticModel allMetrics = true →
  canAddMetricToModel userFriendly metric semanticModel allMetrics' = true.
Proof.
  intros Hsub. unfold canAddMetricToModel.
  intros [[Hrefs Hratio]%andb_true_iff Hdims]%andb_true_iff.
  rewrite Hdims, andb_true_r. apply andb_true_iff. split.
  - destruct (metric_type_params metric ≫= tp_metrics) as [refs|]; [|done].
    rewrite forallb_forall in *. intros r Hr.
    by apply (reference_known_mono _ allMetrics), Hrefs.
  - destruct (metric_type_params metric) as [tp|]; [|done].
    destruct (bool_decide _); [|done].
    apply andb_true_iff in Hratio as [Hn Hd]. apply andb_true_iff. split.
    + destruct (tp_numerator tp) as [r|]; [|done].
      apply orb_true_iff in Hn as [->|Hn]; [done|].
      rewrite (reference_known_mono _ _ _ _ Hsub Hn). apply orb_true_r.
    + destruct (tp_denominator tp) as [r|]; [|done].
      apply orb_true_iff in Hd as [->|Hd]; [done|].
      rewrite (reference_known_mono _ _ _ _ Hsub Hd). apply orb_true_r.
Qed.

(** ** parseExprParts and findMetricInTypeParams *)

Lemma dedupe_spec seen parts :
  NoDup (dedupe seen parts) ∧
  ∀ p, p ∈ dedupe seen parts ↔ p ∈ parts ∧ p ∉ seen.
Proof.
  revert seen. induction parts as [|q parts IH]; intros seen; simpl.
  - split; [constructor|]. intros p. split; [by intros ?%elem_of_nil|].
    by intros [?%elem_of_nil _].
  - case_bool_decide as Hq.
    + destruct (IH seen) as [Hnd Hin]. split; [done|].
      intros p. rewrite Hin, elem_of_cons. split; [tauto|].
      intros [[->|?] ?]; [done|tauto].
    + destruct (IH (q :: seen)) as [Hnd Hin]. split.
      * constructor; [|done]. rewrite Hin, elem_of_cons. tauto.
      * intros p. rewrite !elem_of_cons, Hin, elem_of_cons.
        destruct (decide (p = q)) as [->|]; tauto.
Qed.

(** X23. The parts of an expression are its bare words, each one once. *)
Theorem parseExprParts_spec (expr : str) :
  NoDup (parseExprParts expr) ∧
  ∀ p, p ∈ parseExprParts expr ↔ p ∈ map snd (identifier_matches 0 false expr).
Proof.
  unfold parseExprParts.
  destruct (dedupe_spec [] (map snd (identifier_matches 0 false expr))) as [Hnd Hin].
  split; [done|]. intros p. rewrite Hin. split; [tauto|].
  intros ?. split; [done|]. by intros ?%elem_of_nil.
Qed.

Lemma find_Some_elem {A} (f : A → bool) l x :
  List.find f l = Some x → x ∈ l ∧ f x = true.
Proof. intros [??]%find_some. split; [by apply list_elem_of_In|done]. Qed.

Lemma find_None_elem {A} (f : A → bool) l x :
  List.find f l = None → x ∈ l → f x = false.
Proof. intros Hn Hx%list_elem_of_In. by apply (find_none f l Hn). Qed.

(** X24. A part of an expression is matched to a reference of
    [type_params.metrics] by alias first and by name second, and only to
    a reference that is an object: a reference that is a bare string is
    never found. *)
Theorem findMetricInTypeParams_spec (typeParamMetrics : list MetricRef) (exprPart : str) :
  match findMetricInTypeParams typeParamMetrics exprPart with
  | Some r =>
      r ∈ typeParamMetrics ∧
      (ref_alias r = Some exprPart
       ∨ (ref_object_name r = Some exprPart ∧
          ∀ r', r' ∈ typeParamMetrics → ref_alias r' ≠ Some exprPart))
  | None =>
      ∀ r, r ∈ typeParamMetrics →
           ref_alias r ≠ Some exprPart ∧ ref_object_name r ≠ Some exprPart
  end.
Proof.
  unfold findMetricInTypeParams.
  destruct (List.find (λ r, bool_decide (ref_alias r = Some exprPart)) _)
    as [r|] eqn:Halias.
  { apply find_Some_elem in Halias as [Hin Ha%bool_decide_eq_true]. by split; [|left]. }
  destruct (List.find (λ r, bool_decide (ref_object_name r = Some exprPart)) _)
    as [r|] eqn:Hname.
  - apply find_Some_elem in Hname as [Hin Hn%bool_decide_eq_true].
    split; [done|]. right. split; [done|]. intros r' Hr'.
    apply (find_None_elem _ _ r' Halias) in Hr'. by apply bool_decide_eq_false in Hr'.
  - intros r Hr. split.
    + apply (find_None_elem _ _ r Halias) in Hr. by apply bool_decide_eq_false in Hr.
    + apply (find_None_elem _ _ r Hname) in Hr. by apply bool_decide_eq_false in Hr.
Qed.

Lemma findMetricInTypeParams_bare_name (names : list str) (exprPart : str) :
  findMetricInTypeParams (map RefName names) exprPart = None.
Proof.
  unfold findMetricInTypeParams.
  assert (∀ f : MetricRef → option str,
            (∀ n, f (RefName n) = None) →
            List.find (λ r, bool_decide (f r = Some exprPart)) (map RefName names)
              = None) as Hnone.
  { intros f Hf. induction names as [|n names IH]; simpl; [done|].
    by rewrite Hf, bool_decide_false. }
  by rewrite !Hnone.
Qed.

(** ** The effects of the resolver on its state *)

Lemma extends_refl st : extends st st.
Proof. split_and!; [done..|]. exists []. by rewrite app_nil_r. Qed.

Lemma extends_trans st1 st2 st3 : extends st1 st2 → extends st2 st3 → extends st1 st3.
Proof.
  intros (H1 & P1 & w1 & Hw1) (H2 & P2 & w2 & Hw2). split_and!; [by eauto..|].
  exists (w1 ++ w2). by rewrite Hw2, Hw1, app_assoc.
Qed.

Lemma bind_Ok {A B} (m : M A) (k : A → M B) st b st' :
  (m ≫= k) st = Ok (b, st') → ∃ a st1, m st = Ok (a, st1) ∧ k a st1 = Ok (b, st').
Proof.
  unfold mbind, M_bind. destruct (m st) as [[a st1]|]; [|done]. by exists a, st1.
Qed.

Lemma grows_ret {A} (a : A) : grows (mret a).
Proof. intros st a' st' [= <- <-]. apply extends_refl. Qed.

Lemma grows_bind {A B} (m : M A) (k : A → M B) :
  grows m → (∀ a, grows (k a)) → grows (m ≫= k).
Proof.
  intros Hm Hk st b st' (a & st1 & H1 & H2)%bind_Ok.
  eapply extends_trans; [by eapply Hm|by eapply Hk].
Qed.

Lemma grows_lookup n : grows (lookup_converted n).
Proof. intros st a st' [= <- <-]. apply extends_refl. Qed.

Lemma grows_store n o : grows (store_converted n o).
Proof.
  intros st a st' [= <- <-]. unfold stored.
  case_bool_decide; split_and!; simpl; try done.
  - exists []. by rewrite app_nil_r.
  - intros n' Hn'. destruct (decide (n = n')) as [->|].
    + by rewrite lookup_insert_eq.
    + by rewrite lookup_insert_ne.
  - exists []. by rewrite app_nil_r.
Qed.

Lemma grows_warn w : grows (warn w).
Proof. intros st a st' [= <- <-]. split_and!; [done..|]. by exists [w]. Qed.

Ltac grows_step :=
  first
    [ apply grows_ret | apply grows_lookup | apply grows_store | apply grows_warn
    | assumption
    | apply grows_bind; [|intros ?]
    | match goal with
      | |- grows (match ?x with _ => _ end) => destruct x
      | |- grows (if ?x then _ else _) => destruct x
      | |- grows (let '(_, _) := ?x in _) => destruct x
      end ].

Section frame.
Variable userFriendly : bool.
Variable semanticModel : SemanticModel.
Variable allMetrics : list Metric.
Variable self : Metric → M SigmaMetric.
Hypothesis self_grows : ∀ metric, grows (self metric).

Lemma buildSigmaMeasureFormula_grows r :
  grows (buildSigmaMeasureFormula userFriendly r semanticModel allMetrics self).
Proof. unfold buildSigmaMeasureFormula. repeat grows_step. apply self_grows. Qed.

Lemma part_formulas_grows expr refs parts :
  grows (part_formulas userFriendly expr refs semanticModel allMetrics self parts).
Proof.
  induction parts as [|part parts IH]; simpl; [apply grows_ret|].
  destruct (findMetricInTypeParams refs part); [|by repeat grows_step].
  apply grows_bind; [apply buildSigmaMeasureFormula_grows|]. intros f.
  by repeat grows_step.
Qed.

Lemma convertExpression_grows expr refs :
  grows (convertExpression userFriendly expr refs semanticModel allMetrics self).
Proof.
  unfold convertExpression.
  destruct expr as [[|c e]|]; [apply grows_ret| |apply grows_ret].
  destruct (parseExprParts (c :: e)) as [|p ps]; [apply grows_ret|].
  apply grows_bind; [apply part_formulas_grows|]. intros fs.
  by repeat grows_step.
Qed.

Lemma convertMetricToSigma_body_grows metric :
  grows (convertMetricToSigma_body userFriendly self metric semanticModel allMetrics).
Proof.
  unfold convertMetricToSigma_body.
  repeat first
    [ apply convertExpression_grows | apply buildSigmaMeasureFormula_grows
    | grows_step ].
Qed.

End frame.

Lemma convertMetricToSigma_grows userFriendly fuel semanticModel allMetrics metric :
  grows (convertMetricToSigma userFriendly fuel semanticModel allMetrics metric).
Proof.
  revert metric. induction fuel as [|fuel IH]; intros metric; simpl.
  - by intros st a st'.
  - by apply convertMetricToSigma_body_grows.
Qed.

(** X25. A conversion that returns never drops a memoized formula object
    and never drops a warning: the names that were memoized before are
    memoized after, a prototype that was set is still set, and the
    warnings of before are the first warnings of after. *)
Theorem convertMetricToSigma_extends userFriendly fuel semanticModel allMetrics
    metric st sigmaMetric st' :
  convertMetricToSigma userFriendly fuel semanticModel allMetrics metric st
    = Ok (sigmaMetric, st') →
  extends st st'.
Proof. apply convertMetricToSigma_grows. Qed.

(** The result of a conversion carries the name of the metric. *)
Lemma convertMetricToSigma_name userFriendly fuel semanticModel allMetrics
    metric st sigmaMetric st' :
  convertMetricToSigma userFriendly fuel semanticModel allMetrics metric st
    = Ok (sigmaMetric, st') →
  sigma_id sigmaMetric = metric_name metric ∧
  sigma_name sigmaMetric = metric_name metric.
Proof.
  destruct fuel as [|fuel]; [done|]. simpl. unfold convertMetricToSigma_body.
  intros (f1 & st1 & _ & H)%bind_Ok.
  apply bind_Ok in H as (f2 & st2 & _ & H).
  apply bind_Ok in H as (f3 & st3 & _ & H).
  apply bind_Ok in H as (u & st4 & _ & H).
  by injection H as <- _.
Qed.

(** ** The passes over the metrics *)

Section passes.
Variable userFriendly : bool.
Variable fuel : nat.
Variable semanticModel : SemanticModel.
Variable allMetrics : list Metric.

Lemma process_metric_spec out metric st out' st' :
  process_metric userFriendly fuel semanticModel allMetrics out metric st
    = Ok (out', st') →
  crossModelMetrics out' =
    crossModelMetrics out ++
    List.filter (λ m, negb (canAddMetricToModel userFriendly m semanticModel allMetrics))
      [metric] ∧
  (∃ new, out_metrics out' = out_metrics out ++ new ∧
          Forall (converted_from userFriendly semanticModel allMetrics [metric]) new) ∧
  extends st st'.
Proof.
  unfold process_metric. simpl.
  destruct (canAddMetricToModel _ metric _ _) eqn:Hcan; simpl.
  - intros (s & st1 & Hconv & H)%bind_Ok.
    pose proof (convertMetricToSigma_grows _ _ _ _ _ _ _ _ Hconv) as Hext.
    apply convertMetricToSigma_name in Hconv as [Hid Hname].
    destruct (truthy (sigma_formula s)) eqn:Hf; injection H as <- <-; simpl.
    + rewrite app_nil_r. split_and!; [done| |done].
      exists [s]. split; [done|]. constructor; [|done].
      split; [done|]. exists metric. split_and!; [left|done..].
    + rewrite app_nil_r. split_and!; [done| |done].
      exists []. by rewrite app_nil_r.
  - intros [= <- <-]. simpl. split_and!; [done| |apply extends_refl].
    exists []. by rewrite app_nil_r.
Qed.

Lemma converted_from_incl metrics metrics' s :
  metrics ⊆ metrics' →
  converted_from userFriendly semanticModel allMetrics metrics s →
  converted_from userFriendly semanticModel allMetrics metrics' s.
Proof. intros Hsub (Hf & m & Hm & ?). split; [done|]. exists m. by split; [apply Hsub|]. Qed.

Lemma process_metrics_spec metrics out st out' st' :
  process_metrics userFriendly fuel semanticModel allMetrics out metrics st
    = Ok (out', st') →
  crossModelMetrics out' =
    crossModelMetrics out ++
    List.filter (λ m, negb (canAddMetricToModel userFriendly m semanticModel allMetrics))
      metrics ∧
  (∃ new, out_metrics out' = out_metrics out ++ new ∧
          Forall (converted_from userFriendly semanticModel allMetrics metrics) new) ∧
  extends st st'.
Proof.
  revert out st. induction metrics as [|metric metrics IH]; intros out st.
  - intros [= <- <-]. simpl. rewrite app_nil_r. split_and!; [done| |apply extends_refl].
    exists []. by rewrite app_nil_r.
  - cbn [process_metrics]. intros (out1 & st1 & H1 & H2)%bind_Ok.
    apply process_metric_spec in H1 as (Hc1 & (new1 & Ho1 & Hn1) & He1).
    apply IH in H2 as (Hc2 & (new2 & Ho2 & Hn2) & He2).
    split_and!.
    + rewrite Hc2, Hc1, <- app_assoc. f_equal.
      change (metric :: metrics) with ([metric] ++ metrics). by rewrite List.filter_app.
    + exists (new1 ++ new2). split; [by rewrite Ho2, Ho1, app_assoc|].
      apply Forall_app. split.
      * eapply Forall_impl; [exact Hn1|]. intros s. apply converted_from_incl.
        intros m ->%list_elem_of_singleton. left.
      * eapply Forall_impl; [exact Hn2|]. intros s. apply converted_from_incl.
        intros m ?. by right.
    + by eapply extends_trans.
Qed.

End passes.

Lemma of_type_visited t (metrics : list Metric) :
  t ∈ [("simple" : str); ("derived" : str); ("ratio" : str)] →
  of_type t metrics ⊆ visited metrics.
Proof.
  intros Ht m Hm. unfold visited. rewrite !elem_of_app.
  apply elem_of_cons in Ht as [->|Ht]; [by left|].
  apply elem_of_cons in Ht as [->|Ht]; [by right; left|].
  apply list_elem_of_singleton in Ht as ->. by right; right.
Qed.

(** X26. The three passes over the metrics: the deferred metrics are the
    metrics of type simple, derived and ratio that cannot be added to the
    model, in the order of the passes; every entry of the output has a
    formula that is not empty and carries the name of a metric of one of
    these three types that can be added; and the state only grows. *)
Theorem process_source_metrics_accounts userFriendly fuel semanticModel
    (sourceMetrics : list Metric) st out st' :
  process_source_metrics userFriendly fuel semanticModel sourceMetrics st
    = Ok (out, st') →
  crossModelMetrics out =
    List.filter
      (λ m, negb (canAddMetricToModel userFriendly m semanticModel sourceMetrics))
      (visited sourceMetrics) ∧
  Forall (converted_from userFriendly semanticModel sourceMetrics
            (visited sourceMetrics))
    (out_metrics out) ∧
  (∀ m, m ∈ visited sourceMetrics ↔
        m ∈ sourceMetrics ∧
        metric_type m ∈ [("simple" : str); ("derived" : str); ("ratio" : str)]) ∧
  extends st st'.
Proof.
  unfold process_source_metrics.
  intros (out1 & st1 & H1 & H)%bind_Ok.
  apply bind_Ok in H as (out2 & st2 & H2 & H3).
  apply process_metrics_spec in H1 as (Hc1 & (new1 & Ho1 & Hn1) & He1).
  apply process_metrics_spec in H2 as (Hc2 & (new2 & Ho2 & Hn2) & He2).
  apply process_metrics_spec in H3 as (Hc3 & (new3 & Ho3 & Hn3) & He3).
  simpl in *. split_and!.
  - unfold visited. by rewrite !List.filter_app, Hc3, Hc2, Hc1, app_assoc.
  - rewrite Ho3, Ho2, Ho1. rewrite !Forall_app. split_and!;
      (eapply Forall_impl; [eassumption|]); intros s;
      apply converted_from_incl, of_type_visited; set_solver.
  - intros m. unfold visited, of_type.
    rewrite !elem_of_app, !list_elem_of_In, !filter_In, !bool_decide_eq_true.
    rewrite <- !list_elem_of_In, !elem_of_cons, elem_of_nil. naive_solver.
  - eapply extends_trans; [|done]. by eapply extends_trans.
Qed.

(** ** parseDimensionReference *)

Lemma indexOf_go_None_head pat pos (s : str) :
  indexOf_go pat pos s = None → startsWith pat s = false.
Proof. destruct s; simpl; by destruct (startsWith pat _). Qed.

Lemma indexOf_go_None_tail pat pos c (s : str) :
  indexOf_go pat pos (c :: s) = None → indexOf_go pat (S pos) s = None.
Proof. cbn [indexOf_go]. by destruct (startsWith pat (c :: s)). Qed.

Lemma indexOf_0 pat (s : str) : indexOf pat 0 s = indexOf_go pat 0 s.
Proof. unfold indexOf. by rewrite drop_0. Qed.

Lemma split_go_no_separator pos current (s : str) :
  indexOf_go "__" pos s = None → split_go "__" 0 current s = [current ++ s].
Proof.
  revert pos current. induction s as [|c s IH]; intros pos current Hnone.
  - simpl. by rewrite app_nil_r.
  - cbn [split_go].
    rewrite (indexOf_go_None_head _ _ _ Hnone).
    rewrite (IH (S pos)) by by apply indexOf_go_None_tail in Hnone.
    by rewrite <- app_assoc.
Qed.

Lemma startsWith_sep_prefix (m rest : str) c :
  startsWith "__" (c :: m ++ ("_" : str)) = false →
  startsWith "__" (c :: m ++ ("__" : str) ++ rest) = false.
Proof. by destruct m as [|d m]. Qed.

Lemma split_go_separator pos current (m rest : str) :
  indexOf_go "__" pos (m ++ ("_" : str)) = None →
  split_go "__" 0 current (m ++ ("__" : str) ++ rest)
    = (current ++ m) :: split_go "__" 0 [] rest.
Proof.
  revert pos current. induction m as [|c m IH]; intros pos current Hnone.
  - simpl. by rewrite app_nil_r.
  - change ((c :: m) ++ ("__" : str) ++ rest) with (c :: m ++ ("__" : str) ++ rest).
    cbn [split_go].
    rewrite startsWith_sep_prefix by by apply indexOf_go_None_head in Hnone.
    rewrite (IH (S pos)) by by apply indexOf_go_None_tail in Hnone.
    by rewrite <- app_assoc.
Qed.

Lemma parseDimensionReference_no_model (dimRef : str) :
  indexOf "__" 0 dimRef = None →
  parseDimensionReference false dimRef = (None, dimRef).
Proof.
  rewrite indexOf_0. intros Hd. unfold parseDimensionReference, split.
  by rewrite (split_go_no_separator 0).
Qed.

(** X27. A reference [model__dimension] is parsed into its two names, when
    the model name neither holds two underscores in a row nor ends in one
    and the dimension name holds no two underscores in a row. *)
Theorem parseDimensionReference_split (modelName dimensionName : str) :
  indexOf "__" 0 (modelName ++ ("_" : str)) = None →
  indexOf "__" 0 dimensionName = None →
  parseDimensionReference false (modelName ++ ("__" : str) ++ dimensionName)
    = (Some modelName, dimensionName).
Proof.
  rewrite !indexOf_0. intros Hm Hd. unfold parseDimensionReference, split.
  rewrite (split_go_separator 0) by done.
  by rewrite (split_go_no_separator 0).
Qed.

(** A dimension name with two underscores in a row is cut there. *)
Example parseDimensionReference_cut :
  parseDimensionReference false "order__is__food" = (Some ("order" : str), "is" : str).
Proof. by vm_compute. Qed.

(** ** The conversion of a simple metric over a measure of the model *)

(** X28. A simple metric over a measure of the model is converted without
    any nested conversion: its formula is the formula of the measure,
    with the filter of the metric when it has one, and the formula object
    is memoized under the name of the measure and under the name of the
    metric. The name of the measure must be a bare word other than
    [__proto__], which reads [Object.prototype] from the table of the
    formulas, and the formula must hold no dollar sign, which
    [String.prototype.replace] reads as the start of a pattern. *)
Theorem simple_metric_conversion userFriendly fuel semanticModel allMetrics
    metric tp name measure st :
  metric_type metric = ("simple" : str) →
  metric_type_params metric = Some tp →
  tp_measure tp = Some name →
  is_identifier name = true →
  name ≠ proto_key →
  find_measure semanticModel name = Some measure →
  "$"%char ∉ formula (measure_object userFriendly semanticModel measure
                        (metric_filter metric)) →
  convertMetricToSigma userFriendly (S fuel) semanticModel allMetrics metric st =
    Ok ({| sigma_id := metric_name metric;
           sigma_name := metric_name metric;
           sigma_description :=
             first_truthy (metric_description metric) (metric_label metric)
               (metric_name metric);
           sigma_formula :=
             Some (formula (measure_object userFriendly semanticModel measure
                              (metric_filter metric))) |},
        stored (metric_name metric)
          (measure_object userFriendly semanticModel measure (metric_filter metric))
          (stored name
             (measure_object userFriendly semanticModel measure (metric_filter metric))
             st)).
Proof.
  intros Htype Htp Hmeasure Hid Hproto Hfound Hplain.
  rewrite (simple_metric_memo userFriendly fuel semanticModel allMetrics metric tp
             name measure st Htype Htp Hmeasure Hid Hfound).
  unfold assigned_formula. cbn [fst snd].
  rewrite bool_decide_false by done.
  rewrite replace_word_whole; [done| |done].
  by apply is_identifier_not_empty.
Qed.

(** A measure named [__proto__]: the conversion memoizes its formula
    object as the prototype of the memo, and the formula of the metric is
    the text of [Object.prototype]. *)
Example simple_metric_proto :
  let model :=
    {| model_name := "orders";
       model_measures :=
         Some [ {| measure_name := proto_key; measure_agg := "sum";
                   measure_expr := Some ("amount" : str) |} ];
       model_entities := None |} in
  let metric := simple_metric "total" proto_key None in
  convertMetricToSigma false 1 model [metric] metric initial_state =
    Ok ({| sigma_id := "total"; sigma_name := "total"; sigma_description := "total";
           sigma_formula := Some object_text |},
        {| convertedMetrics := {[ ("total" : str) := cached_revenue ]};
           prototype := Some cached_revenue; warnings := [] |}).
Proof. vm_compute. reflexivity. Qed.

(** A metric named like a method of [Object.prototype] reads as converted
    before it is: a reference to it yields no formula, without any
    conversion and without a warning of its own. *)
Example reference_to_builtin_name :
  let metric := simple_metric "constructor" "order_total" None in
  buildSigmaMeasureFormula false (RefObj "constructor" None None) orders [metric]
    (convertMetricToSigma false 1 orders [metric]) initial_state
  = Ok (None, initial_state).
Proof. vm_compute. reflexivity. Qed.

(** ** The theorems at the example inputs *)

(** The conversions that the documentation of [convertFilterToSigma]
    lists, and the other patterns of the function. *)
Example convertFilterToSigma_examples :
  convertFilterToSigma false "{{ Dimension('order__is_food_order') }} = True" "orders"
    = "[is_food_order] = True" ∧
  convertFilterToSigma false "{{ Dimension('order__amount') }} <= 100" "orders"
    = "[amount] <= 100" ∧
  convertFilterToSigma false "{{ Dimension('order__status') }} != 'cancelled'" "orders"
    = "[status] != 'cancelled'" ∧
  convertFilterToSigma false "{{ Dimension('order__status') }} in ('a','b')" "orders"
    = "arraycontains(array('a','b'),[status])" ∧
  convertFilterToSigma false "{{ Dimension('order__status') }} is not null" "orders"
    = "isnotnull([status])" ∧
  convertFilterToSigma true "{{ Dimension('order__is_food_order') }} = True" "orders"
    = "[is food order] = True".
Proof. repeat split; by vm_compute. Qed.

Lemma canAddMetricToModel_mono_witness :
  canAddMetricToModel false revenue_share orders catalog = true ∧
  canAddMetricToModel false revenue_share orders (catalog ++ [growth]) = true.
Proof.
  split; [reflexivity|].
  apply (canAddMetricToModel_mono false revenue_share orders catalog
           (catalog ++ [growth])); [|reflexivity].
  intros m Hm. apply elem_of_app. by left.
Defined.

Lemma convertMetricToSigma_extends_witness :
  ∃ s st', convertMetricToSigma false 3 orders (catalog ++ [revenue_share])
             revenue_share state_after_simple = Ok (s, st') ∧
           sigma_formula s
             = Some ("sumif([amount],[is_food_order] = True) / sum([amount])" : str) ∧
           extends state_after_simple st'.
Proof.
  eexists _, _. split; [vm_compute; reflexivity|]. split; [reflexivity|].
  eapply (convertMetricToSigma_extends false 3 orders (catalog ++ [revenue_share])
            revenue_share).
  vm_compute. reflexivity.
Defined.

Lemma process_source_metrics_accounts_witness :
  ∃ out st',
    process_source_metrics false 3 orders (catalog ++ [revenue_share]) initial_state
      = Ok (out, st') ∧
    map sigma_name (out_metrics out)
      = [("revenue" : str); ("food_revenue" : str); ("food_median" : str);
         ("revenue_share" : str)] ∧
    crossModelMetrics out =
      List.filter
        (λ m, negb (canAddMetricToModel false m orders (catalog ++ [revenue_share])))
        (visited (catalog ++ [revenue_share])) ∧
    Forall (converted_from false orders (catalog ++ [revenue_share])
              (visited (catalog ++ [revenue_share]))) (out_metrics out) ∧
    (∀ m, m ∈ visited (catalog ++ [revenue_share]) ↔
          m ∈ catalog ++ [revenue_share] ∧
          metric_type m ∈ [("simple" : str); ("derived" : str); ("ratio" : str)]) ∧
    extends initial_state st'.
Proof.
  eexists _, _. split; [vm_compute; reflexivity|]. split; [reflexivity|].
  eapply (process_source_metrics_accounts false 3 orders (catalog ++ [revenue_share])).
  vm_compute. reflexivity.
Defined.

Lemma parseDimensionReference_split_witness :
  parseDimensionReference false "order_item__is_food_order"
    = (Some ("order_item" : str), "is_food_order" : str).
Proof.
  apply (parseDimensionReference_split "order_item" "is_food_order"); reflexivity.
Defined.

Lemma simple_metric_conversion_witness :
  ∃ s st', convertMetricToSigma false 1 orders catalog food_revenue initial_state
             = Ok (s, st') ∧
           sigma_formula s = Some ("sumif([amount],[is_food_order] = True)" : str) ∧
           read_converted st' "order_total" = VFormula cached_food_revenue ∧
           read_converted st' "food_revenue" = VFormula cached_food_revenue.
Proof.
  eexists _, _. split.
  - apply (simple_metric_conversion false 0 orders catalog food_revenue
             {| tp_measure := Some ("order_total" : str); tp_expr := None;
                tp_metrics := None; tp_numerator := None; tp_denominator := None |}
             "order_total"
             {| measure_name := "order_total"; measure_agg := "sum";
                measure_expr := Some ("amount" : str) |} initial_state);
      [reflexivity..|done|reflexivity|compute_done].
  - split_and!; by vm_compute.
Defined.

End MetricsMore.
